(** * Fence.h of the D3D12LinkedGpus sample: Fence and LinearFence

    A shallow embedding of [Fence] and [LinearFence]
    (Samples/Desktop/D3D12LinkedGpus/src/LinkedGpus/Fence.h) together with a
    simulated D3D12 runtime (command queues, native fences, Win32 events),
    and the properties of the synchronisation contract proved about them. *)

From Stdlib Require Import ZArith Lia List Bool.
From stdpp Require Import base tactics option list numbers functions relations.

Local Open Scope Z_scope.

(** ** Machine integers *)

(** [UINT64] and [UINT] values are integers of [Z]; the wrap-around of the
    unsigned C++ arithmetic is written out where the source computes. *)
Definition UINT64_MAX : Z := 18446744073709551615.
Definition UINT_MAX : Z := 4294967295.

Definition wrap64 (z : Z) : Z := z `mod` 2 ^ 64.
Definition wrap32 (z : Z) : Z := z `mod` 2 ^ 32.

(** [HRESULT] is a signed 32-bit status; negative values are failures. *)
Definition S_OK : Z := 0.
Definition FAILED (hr : Z) : bool := hr <? 0.

Definition INFINITE : Z := 4294967295.
Definition WAIT_OBJECT_0 : Z := 0.
Definition WAIT_TIMEOUT : Z := 258.

(** [HRESULT_FROM_WIN32] of winerror.h, on the signed reading of the code. *)
Definition HRESULT_FROM_WIN32 (x : Z) : Z :=
  if x <=? 0 then x else Z.lor (Z.land x 65535) 2147942400 - 2 ^ 32.

(** ** The simulated runtime *)

(** Native fences, command queues and event handles are identified by
    numbers. A command queue holds the commands not yet retired by the GPU,
    oldest first. *)
Inductive Cmd : Type :=
| CmdSignal (f : nat) (v : Z)   (* ID3D12CommandQueue::Signal *)
| CmdWait (f : nat) (v : Z)     (* ID3D12CommandQueue::Wait *)
| CmdWork (tag : nat).          (* work submitted by the callers *)

(** A pending [SetEventOnCompletion]: fence, value, event handle. *)
Record Registration : Type := {
  reg_fence : nat;
  reg_value : Z;
  reg_event : nat
}.

Record Gpu : Type := {
  fence_value : nat -> Z;        (* completed value of each native fence *)
  queue : nat -> list Cmd;       (* pending commands of each queue *)
  retired : nat -> nat;          (* commands retired so far on each queue *)
  event_set : nat -> bool;       (* signalled state of each event *)
  registrations : list Registration
}.

Definition reg_due (f : nat) (v : Z) (r : Registration) : bool :=
  Nat.eqb (reg_fence r) f && (reg_value r <=? v).

(** The fence [f] takes the value [v]: registrations that are due fire. *)
Definition signal_fence (f : nat) (v : Z) (g : Gpu) : Gpu :=
  {| fence_value := <[f := v]> (fence_value g);
     queue := queue g;
     retired := retired g;
     event_set := fun h =>
       event_set g h ||
       existsb (fun r => reg_due f v r && Nat.eqb (reg_event r) h) (registrations g);
     registrations := List.filter (fun r => negb (reg_due f v r)) (registrations g) |}.

Definition retire (q : nat) (rest : list Cmd) (g : Gpu) : Gpu :=
  {| fence_value := fence_value g;
     queue := <[q := rest]> (queue g);
     retired := <[q := S (retired g q)]> (retired g);
     event_set := event_set g;
     registrations := registrations g |}.

(** One GPU step on queue [q]: the oldest command retires, unless it is a
    wait whose fence has not reached the value yet. *)
Definition gpu_exec (q : nat) (g : Gpu) : Gpu :=
  match queue g q with
  | [] => g
  | CmdSignal f v :: rest => retire q rest (signal_fence f v g)
  | CmdWait f v :: rest => if fence_value g f <? v then g else retire q rest g
  | CmdWork _ :: rest => retire q rest g
  end.

(** A burst of GPU activity: the queues named by the schedule step in turn. *)
Definition gpu_run (sched : list nat) (g : Gpu) : Gpu :=
  fold_left (fun g q => gpu_exec q g) sched g.

Definition enqueue (q : nat) (c : Cmd) (g : Gpu) : Gpu :=
  {| fence_value := fence_value g;
     queue := <[q := queue g q ++ [c]]> (queue g);
     retired := retired g;
     event_set := event_set g;
     registrations := registrations g |}.

(** [SetEventOnCompletion]: the event fires at once when the value has been
    reached, otherwise the registration is kept until it has. *)
Definition register_event (f : nat) (v : Z) (h : nat) (g : Gpu) : Gpu :=
  {| fence_value := fence_value g;
     queue := queue g;
     retired := retired g;
     event_set := if v <=? fence_value g f then <[h := true]> (event_set g)
                  else event_set g;
     registrations := if v <=? fence_value g f then registrations g
                      else registrations g
                             ++ [{| reg_fence := f; reg_value := v; reg_event := h |}] |}.

Definition write_event (h : nat) (b : bool) (g : Gpu) : Gpu :=
  {| fence_value := fence_value g;
     queue := queue g;
     retired := retired g;
     event_set := <[h := b]> (event_set g);
     registrations := registrations g |}.

Definition new_fence (f : nat) (v : Z) (g : Gpu) : Gpu :=
  {| fence_value := <[f := v]> (fence_value g);
     queue := queue g;
     retired := retired g;
     event_set := event_set g;
     registrations := registrations g |}.

(** The calls the code makes into the runtime, as they are logged. *)
Inductive Call : Type :=
| CallQueryInterface (q : nat)
| CallGetDevice (q : nat)
| CallCreateFence (v : Z)
| CallCreateEvent (manual initial : bool)
| CallQueueSignal (q f : nat) (v : Z)
| CallQueueWait (q f : nat) (v : Z)
| CallGetCompletedValue (f : nat)
| CallSetEventOnCompletion (f : nat) (v : Z) (h : nat)
| CallWaitForSingleObjectEx (h : nat) (ms : Z) (alertable : bool).

(** The environment of a run. Before each call into the runtime the GPU may
    make progress; [tape] holds, for the calls to come, the burst of GPU
    steps that precedes the call and the status the call reports. When the
    tape is used up the GPU stands still and calls succeed. *)
Record Env : Type := {
  gpu : Gpu;
  fences_made : nat;
  events_made : nat;
  last_error : Z;
  crt_debug : bool;              (* _DEBUG build: _ASSERT is active *)
  tape : list (list nat * Z);
  calls : list Call
}.

Definition with_gpu (g : Gpu) (e : Env) : Env :=
  {| gpu := g; fences_made := fences_made e; events_made := events_made e;
     last_error := last_error e; crt_debug := crt_debug e;
     tape := tape e; calls := calls e |}.

Definition idle_gpu : Gpu :=
  {| fence_value := fun _ => 0;
     queue := fun _ => []; retired := fun _ => O;
     event_set := fun _ => false; registrations := [] |}.

Definition boot (debug : bool) (t : list (list nat * Z)) : Env :=
  {| gpu := idle_gpu; fences_made := O; events_made := O; last_error := 0;
     crt_debug := debug; tape := t; calls := [] |}.

(** ** Outcomes and the monad of the methods *)

Inductive Error : Type :=
| Threw (hr : Z)          (* HrException out of ThrowIfFailed *)
| AssertFailed            (* _ASSERT fired *)
| OutOfBounds             (* std::vector::operator[] past the end *)
| DivByZero               (* integer remainder by zero *)
| Blocked.                (* the wait never returns on this tape *)

Inductive Outcome (A : Type) : Type :=
| Ok (a : A) (e : Env)
| Fail (err : Error) (e : Env).
Arguments Ok {A} a e.
Arguments Fail {A} err e.

Definition M (A : Type) : Type := Env -> Outcome A.

#[global] Instance M_ret : MRet M := fun A a e => Ok a e.
#[global] Instance M_bind : MBind M := fun A B k m e =>
  match m e with
  | Ok a e' => k a e'
  | Fail err e' => Fail err e'
  end.

Definition raise {A : Type} (err : Error) : M A := fun e => Fail err e.
Definition gets {A : Type} (f : Env -> A) : M A := fun e => Ok (f e) e.
Definition on_gpu (f : Gpu -> Gpu) : M unit := fun e => Ok tt (with_gpu (f (gpu e)) e).

(** The status the next call will report, and the environment once the GPU
    burst that precedes the call has run. *)
Definition status (e : Env) : Z :=
  match tape e with
  | [] => S_OK
  | (_, hr) :: _ => hr
  end.

Definition burst (e : Env) : list nat :=
  match tape e with
  | [] => []
  | (b, _) :: _ => b
  end.

Definition ticked (e : Env) : Env :=
  match tape e with
  | [] => e
  | (burst, _) :: t =>
      {| gpu := gpu_run burst (gpu e); fences_made := fences_made e;
         events_made := events_made e; last_error := last_error e;
         crt_debug := crt_debug e; tape := t; calls := calls e |}
  end.

Definition tick : M Z := fun e => Ok (status e) (ticked e).

Definition logged (c : Call) (e : Env) : Env :=
  {| gpu := gpu e; fences_made := fences_made e;
     events_made := events_made e; last_error := last_error e;
     crt_debug := crt_debug e; tape := tape e; calls := calls e ++ [c] |}.

Definition log (c : Call) : M unit := fun e => Ok tt (logged c e).

Definition modify (f : Env -> Env) : M unit := fun e => Ok tt (f e).

Definition with_fences_made (n : nat) (e : Env) : Env :=
  {| gpu := gpu e; fences_made := n; events_made := events_made e;
     last_error := last_error e; crt_debug := crt_debug e;
     tape := tape e; calls := calls e |}.

Definition with_events_made (n : nat) (e : Env) : Env :=
  {| gpu := gpu e; fences_made := fences_made e; events_made := n;
     last_error := last_error e; crt_debug := crt_debug e;
     tape := tape e; calls := calls e |}.

Definition with_last_error (x : Z) (e : Env) : Env :=
  {| gpu := gpu e; fences_made := fences_made e; events_made := events_made e;
     last_error := x; crt_debug := crt_debug e;
     tape := tape e; calls := calls e |}.

(** ** The runtime's entry points *)

(** A call that fails leaves the runtime as it was. *)

Definition QueryInterface (q : nat) : M Z :=
  hr ← tick; log (CallQueryInterface q);; mret hr.

Definition GetDevice (q : nat) : M Z :=
  hr ← tick; log (CallGetDevice q);; mret hr.

(** [ID3D12Device::CreateFence]: a new fence with the initial value. *)
Definition CreateFence (v : Z) : M (Z * nat) :=
  hr ← tick; log (CallCreateFence v);;
  if FAILED hr then mret (hr, O)
  else n ← gets fences_made;
       modify (with_fences_made (S n));;
       on_gpu (new_fence (S n) v);;
       mret (hr, S n).

(** [CreateEvent]: a new event handle, or the null handle [0] with the
    thread's last error set. The status on the tape is read as the Win32
    error code, [0] for success. *)
Definition CreateEvent (manual initial : bool) : M nat :=
  err ← tick; log (CallCreateEvent manual initial);;
  if err =? 0
  then n ← gets events_made;
       modify (with_events_made (S n));;
       on_gpu (write_event (S n) initial);;
       mret (S n)
  else modify (with_last_error err);; mret O.

Definition GetLastError : M Z := gets last_error.

(** [ID3D12CommandQueue::Signal] and [ID3D12CommandQueue::Wait]. *)
Definition Queue_Signal (q f : nat) (v : Z) : M Z :=
  hr ← tick; log (CallQueueSignal q f v);;
  if FAILED hr then mret hr
  else on_gpu (enqueue q (CmdSignal f v));; mret hr.

Definition Queue_Wait (q f : nat) (v : Z) : M Z :=
  hr ← tick; log (CallQueueWait q f v);;
  if FAILED hr then mret hr
  else on_gpu (enqueue q (CmdWait f v));; mret hr.

(** Work submitted on a queue by the callers of the fence. *)
Definition Queue_Submit (q tag : nat) : M unit :=
  _ ← tick; on_gpu (enqueue q (CmdWork tag)).

Definition Fence_GetCompletedValue (f : nat) : M Z :=
  _ ← tick; log (CallGetCompletedValue f);;
  gets (fun e => fence_value (gpu e) f).

Definition Fence_SetEventOnCompletion (f : nat) (v : Z) (h : nat) : M Z :=
  hr ← tick; log (CallSetEventOnCompletion f v h);;
  if FAILED hr then mret hr
  else on_gpu (register_event f v h);; mret hr.

(** [WaitForSingleObjectEx] on an auto-reset event: the burst of the tick is
    what the GPU does while the thread sleeps. With [INFINITE] the call
    returns only if the event has been set by then; it resets the event. *)
Definition WaitForSingleObjectEx (h : nat) (ms : Z) (alertable : bool) : M Z :=
  _ ← tick; log (CallWaitForSingleObjectEx h ms alertable);;
  set ← gets (fun e => event_set (gpu e) h);
  if set : bool then on_gpu (write_event h false);; mret WAIT_OBJECT_0
  else if ms =? INFINITE then raise Blocked
  else mret WAIT_TIMEOUT.

(** Modelled from the spec: [ThrowIfFailed] of DXSampleHelper.h, which is
    not part of the sources at hand. A failure of a native call is fatal and
    surfaces as an error up through the call stack. *)
Definition ThrowIfFailed (hr : Z) : M unit :=
  if FAILED hr then raise (Threw hr) else mret tt.

(** [_ASSERT] of crtdbg.h: checked in a [_DEBUG] build, removed otherwise. *)
Definition _ASSERT (cond : bool) : M unit := fun e =>
  if crt_debug e && negb cond then Fail AssertFailed e else Ok tt e.

(** ** class Fence *)

Record Fence : Type := {
  m_fence : nat;                 (* the D3D12 fence object *)
  m_queue : nat;                 (* the command queue of this fence *)
  m_currentFenceValue : Z;       (* the last value signaled by this fence *)
  m_fenceEvent : nat             (* CPU-waitable event handle *)
}.

Definition UnspecifiedFenceValue : Z := UINT64_MAX.

Definition set_currentFenceValue (v : Z) (this : Fence) : Fence :=
  {| m_fence := m_fence this; m_queue := m_queue this;
     m_currentFenceValue := v; m_fenceEvent := m_fenceEvent this |}.

(** [Fence::Fence(ID3D12CommandQueue* pQueue)] *)
Definition Fence_new (pQueue : nat) : M Fence :=
  let currentFenceValue := 0 in
  hr ← QueryInterface pQueue; ThrowIfFailed hr;;
  hr ← GetDevice pQueue; ThrowIfFailed hr;;
  '(hr, fence) ← CreateFence currentFenceValue; ThrowIfFailed hr;;
  fenceEvent ← CreateEvent false false;
  (if Nat.eqb fenceEvent O
   then err ← GetLastError; ThrowIfFailed (HRESULT_FROM_WIN32 err)
   else mret tt);;
  mret {| m_fence := fence; m_queue := pQueue;
          m_currentFenceValue := currentFenceValue;
          m_fenceEvent := fenceEvent |}.

(** [void Signal(UINT64 value = UnspecifiedFenceValue)] *)
Definition Signal (this : Fence) (value : Z) : M Fence :=
  this ← (if value =? UnspecifiedFenceValue
          then mret (set_currentFenceValue (wrap64 (m_currentFenceValue this + 1)) this)
          else _ASSERT (m_currentFenceValue this <? value);;
               mret (set_currentFenceValue value this));
  hr ← Queue_Signal (m_queue this) (m_fence this) (m_currentFenceValue this);
  ThrowIfFailed hr;;
  mret this.

(** [static void GpuWait(ID3D12CommandQueue* pQueue, Fence* pFence, UINT64 value)] *)
Definition GpuWait_static (pQueue : nat) (pFence : Fence) (value : Z) : M unit :=
  let value := if value =? UnspecifiedFenceValue
               then m_currentFenceValue pFence else value in
  hr ← Queue_Wait pQueue (m_fence pFence) value;
  ThrowIfFailed hr.

(** [void GpuWait(UINT64 value = UnspecifiedFenceValue)] *)
Definition GpuWait (this : Fence) (value : Z) : M unit :=
  GpuWait_static (m_queue this) this value.

(** [void CpuWait(UINT64 fenceValue = UnspecifiedFenceValue)] *)
Definition CpuWait (this : Fence) (fenceValue : Z) : M unit :=
  let fenceValue := if fenceValue =? UnspecifiedFenceValue
                    then m_currentFenceValue this else fenceValue in
  completed ← Fence_GetCompletedValue (m_fence this);
  if completed <? fenceValue
  then hr ← Fence_SetEventOnCompletion (m_fence this) fenceValue (m_fenceEvent this);
       ThrowIfFailed hr;;
       _ ← WaitForSingleObjectEx (m_fenceEvent this) INFINITE false;
       mret tt
  else mret tt.

(** [void FlushGpuQueue()] *)
Definition FlushGpuQueue (this : Fence) : M Fence :=
  this ← Signal this UnspecifiedFenceValue;
  CpuWait this (m_currentFenceValue this);;
  mret this.

(** ** class LinearFence : public Fence *)

Record LinearFence : Type := {
  base : Fence;
  m_signalHistory : list Z;      (* the history of signal events *)
  m_signalIndex : Z              (* the next slot of the ring buffer *)
}.

(** [std::vector::operator[]] checks nothing: an index past the end is
    undefined behaviour, reported here as [OutOfBounds]. *)
Definition vec_store (l : list Z) (i : Z) (v : Z) : M (list Z) :=
  if (0 <=? i) && (i <? Z.of_nat (length l))
  then mret (<[Z.to_nat i := v]> l) else raise OutOfBounds.

Definition vec_load (l : list Z) (i : Z) : M Z :=
  if 0 <=? i
  then match l !! Z.to_nat i with
       | Some v => mret v
       | None => raise OutOfBounds
       end
  else raise OutOfBounds.

(** Unsigned remainder; a zero divisor is undefined behaviour. *)
Definition urem (a b : Z) : M Z :=
  if b =? 0 then raise DivByZero else mret (a `mod` b).

(** [LinearFence::LinearFence(ID3D12CommandQueue* pQueue, UINT count)] *)
Definition LinearFence_new (pQueue : nat) (count : Z) : M LinearFence :=
  b ← Fence_new pQueue;
  mret {| base := b;
          m_signalHistory := replicate (Z.to_nat count) 0;
          m_signalIndex := 0 |}.

(** [void Next()] *)
Definition Next (this : LinearFence) : M LinearFence :=
  history ← vec_store (m_signalHistory this) (m_signalIndex this)
                      (m_currentFenceValue (base this));
  r ← urem (wrap32 (m_signalIndex this + 1)) (Z.of_nat (length history));
  let index := wrap32 r in
  v ← vec_load history index;
  CpuWait (base this) v;;
  mret {| base := base this; m_signalHistory := history; m_signalIndex := index |}.

(** ** Calls as the callers write them *)

(** A call that leaves the value out passes the default argument. *)
Definition arg (value : option Z) : Z := default UnspecifiedFenceValue value.

Inductive Op : Type :=
| OpSignal (value : option Z)
| OpGpuWait (value : option Z)
| OpCpuWait (value : option Z)
| OpFlushGpuQueue
| OpNext
| OpSubmit (q tag : nat).       (* the caller submits work on a queue *)

Definition with_base (b : Fence) (this : LinearFence) : LinearFence :=
  {| base := b; m_signalHistory := m_signalHistory this;
     m_signalIndex := m_signalIndex this |}.

Definition perform (op : Op) (this : LinearFence) : M LinearFence :=
  match op with
  | OpSignal value => b ← Signal (base this) (arg value); mret (with_base b this)
  | OpGpuWait value => GpuWait (base this) (arg value);; mret this
  | OpCpuWait value => CpuWait (base this) (arg value);; mret this
  | OpFlushGpuQueue => b ← FlushGpuQueue (base this); mret (with_base b this)
  | OpNext => Next this
  | OpSubmit q tag => Queue_Submit q tag;; mret this
  end.

(** A run of calls on one object. The journal keeps, for each call, the
    counter the call found. *)
Fixpoint script (ops : list Op) (this : LinearFence) : M (LinearFence * list (Op * Z)) :=
  match ops with
  | [] => mret (this, [])
  | op :: ops =>
      this' ← perform op this;
      '(final, journal) ← script ops this';
      mret (final, (op, m_currentFenceValue (base this)) :: journal)
  end.

(** The counter values the [Next] calls of a run stored in the ring. *)
Definition recorded (journal : list (Op * Z)) : list Z :=
  omap (fun entry => match fst entry with OpNext => Some (snd entry) | _ => None end)
       journal.

(** [n] calls of [Signal()] in a row, with the counter after each. *)
Fixpoint signal_times (n : nat) (this : Fence) : M (Fence * list Z) :=
  match n with
  | O => mret (this, [])
  | S n =>
      this' ← Signal this (arg None);
      '(final, seen) ← signal_times n this';
      mret (final, m_currentFenceValue this' :: seen)
  end.

(** ** Invariants of the simulated runtime *)

(** The values of the signals pending for fence [f] in a list of commands. *)
Definition signals_on (f : nat) (l : list Cmd) : list Z :=
  omap (fun c => match c with
                 | CmdSignal f' v => if Nat.eqb f' f then Some v else None
                 | _ => None
                 end) l.

(** [lo <= v1 <= v2 <= ... <= hi] *)
Fixpoint ascending (lo : Z) (l : list Z) (hi : Z) : Prop :=
  match l with
  | [] => lo <= hi
  | v :: l => lo <= v /\ ascending v l hi
  end.

(** The fence object owns its native fence: signals for it are pending only
    on its own queue, in ascending order above the completed value and up
    to the counter. *)
Definition Owns (this : Fence) (g : Gpu) : Prop :=
  (forall q, q <> m_queue this -> signals_on (m_fence this) (queue g q) = []) /\
  ascending (fence_value g (m_fence this))
            (signals_on (m_fence this) (queue g (m_queue this)))
            (m_currentFenceValue this).

(** The event of the fence object is at rest between two calls. *)
Definition Idle (this : Fence) (g : Gpu) : Prop :=
  event_set g (m_fenceEvent this) = false /\
  (forall r, In r (registrations g) -> reg_event r <> m_fenceEvent this).

(** While [CpuWait] is under way for the value [v]. *)
Definition Waiting (this : Fence) (v : Z) (g : Gpu) : Prop :=
  (forall r, In r (registrations g) -> reg_event r = m_fenceEvent this ->
             reg_fence r = m_fence this /\ reg_value r = v) /\
  (event_set g (m_fenceEvent this) = true ->
   v <= fence_value g (m_fence this) /\
   forall r, In r (registrations g) -> reg_event r <> m_fenceEvent this).

(** A ring of [n] slots after the [Next] calls that stored [seen]: each of
    the last [n] values sits in its slot, a slot never written holds [0]. *)
Definition Ring (n : nat) (seen : list Z) (this : LinearFence) : Prop :=
  length (m_signalHistory this) = n /\
  m_signalIndex this = Z.of_nat (length seen mod n) /\
  (forall i v, seen !! i = Some v -> (length seen <= i + n)%nat ->
               m_signalHistory this !! (i mod n)%nat = Some v) /\
  (forall s, (length seen <= s < n)%nat -> m_signalHistory this !! s = Some 0).

(** What the runtime can do between two observations. *)
Inductive gpu_step : Gpu -> Gpu -> Prop :=
| step_exec q g : gpu_step g (gpu_exec q g)
| step_enqueue q c g : gpu_step g (enqueue q c g)
| step_register f v h g : gpu_step g (register_event f v h g)
| step_event h b g : gpu_step g (write_event h b g)
| step_new_fence f v g : gpu_step g (new_fence f v g).

(** The place of the newest command of queue [q], counted from the first
    command the queue ever held. *)
Definition last_position (q : nat) (g : Gpu) : nat :=
  (retired g q + length (queue g q) - 1)%nat.

(** What a call asks of the counter it finds: an explicit value lies above
    it, and a call that counts by one finds it below the largest value. *)
Definition op_safe (op : Op) (counter : Z) : Prop :=
  match op with
  | OpSignal value =>
      if arg value =? UnspecifiedFenceValue then counter < UINT64_MAX
      else counter < arg value
  | OpFlushGpuQueue => counter < UINT64_MAX
  | _ => True
  end.

(** ** Observing an outcome *)

Definition value_of {A : Type} (o : Outcome A) : option A :=
  match o with
  | Ok a _ => Some a
  | Fail _ _ => None
  end.

Definition error_of {A : Type} (o : Outcome A) : option Error :=
  match o with
  | Ok _ _ => None
  | Fail err _ => Some err
  end.

Definition env_of {A : Type} (o : Outcome A) : Env :=
  match o with
  | Ok _ e => e
  | Fail _ e => e
  end.

(** ** CpuWait in closed form *)

(** The environment when [GetCompletedValue] has answered, when
    [SetEventOnCompletion] has been called for [v], and when the thread has
    gone to sleep on the event. *)
Definition queried (this : Fence) (e : Env) : Env :=
  logged (CallGetCompletedValue (m_fence this)) (ticked e).

Definition registering (this : Fence) (v : Z) (e : Env) : Env :=
  logged (CallSetEventOnCompletion (m_fence this) v (m_fenceEvent this))
         (ticked (queried this e)).

Definition sleeping (this : Fence) (v : Z) (e : Env) : Env :=
  logged (CallWaitForSingleObjectEx (m_fenceEvent this) INFINITE false)
         (ticked (with_gpu (register_event (m_fence this) v (m_fenceEvent this)
                                           (gpu (ticked (queried this e))))
                           (registering this v e))).

Definition woken (this : Fence) (v : Z) (e : Env) : Env :=
  with_gpu (write_event (m_fenceEvent this) false (gpu (sleeping this v e)))
           (sleeping this v e).

(** Nothing is pending on any queue. *)
Definition quiet (g : Gpu) : Prop := forall q, queue g q = [].

(** The command at place [pos] of queue [q] has retired. *)
Definition retired_at (q pos : nat) (g : Gpu) : Prop := (pos < retired g q)%nat.

(** Nothing in the runtime refers to the fence [f] or to the event [h]. *)
Definition Untouched (f h : nat) (g : Gpu) : Prop :=
  (forall q, signals_on f (queue g q) = []) /\
  (forall r, In r (registrations g) -> reg_event r <> h).

(** The state of a LinearFence of [n] slots whose [Next] calls so far stored
    [seen]: the ring holds them, the fence object owns its native fence, no
    stored value exceeds the counter, and the native fence has completed
    every value stored at least [n - 1] calls ago. *)
Definition Paced (n : nat) (seen : list Z) (this : LinearFence) (e : Env) : Prop :=
  Ring n seen this /\
  Owns (base this) (gpu e) /\
  Idle (base this) (gpu e) /\
  (forall i v, seen !! i = Some v -> v <= m_currentFenceValue (base this)) /\
  (forall i v, seen !! i = Some v -> (i + n <= length seen)%nat ->
               v <= fence_value (gpu e) (m_fence (base this))).

(** The registration of [CpuWait] for [v] is pending for as long as the
    event has not fired, and then the fence is still below [v]. *)
Definition Armed (this : Fence) (v : Z) (g : Gpu) : Prop :=
  event_set g (m_fenceEvent this) = false ->
  fence_value g (m_fence this) < v /\
  In {| reg_fence := m_fence this; reg_value := v; reg_event := m_fenceEvent this |}
     (registrations g).

(** ** The end of a Fence *)

Definition set_fenceEvent (h : nat) (this : Fence) : Fence :=
  {| m_fence := m_fence this; m_queue := m_queue this;
     m_currentFenceValue := m_currentFenceValue this; m_fenceEvent := h |}.

(** An event handle is open when the runtime has handed it out and it has
    not been closed since; the handles closed so far are passed along. *)
Definition is_open (closed : list nat) (h : nat) (e : Env) : bool :=
  negb (Nat.eqb h O) && (h <=? events_made e)%nat && negb (existsb (Nat.eqb h) closed).

(** [CloseHandle]: closing a handle that is not open fails and closes
    nothing. *)
Definition CloseHandle (h : nat) (closed : list nat) : M (bool * list nat) :=
  _ ← tick;
  ok ← gets (is_open closed h);
  mret (ok, if ok : bool then h :: closed else closed).

(** [Fence::~Fence()]. The [ComPtr] members release the native fence and the
    queue after the body has run; that part is the library's. *)
Definition Fence_delete (this : Fence) (closed : list nat) : M (Fence * list nat) :=
  if negb (Nat.eqb (m_fenceEvent this) O)
  then '(_, closed) ← CloseHandle (m_fenceEvent this) closed;
       mret (set_fenceEvent O this, closed)
  else mret (this, closed).

(** ** Queues seen from one fence *)

(** The commands ever submitted on queue [q]. *)
Definition submitted (q : nat) (g : Gpu) : nat := (retired g q + length (queue g q))%nat.

(** No queue but [mq] holds a signal for the fence [f]. *)
Definition Sole (f mq : nat) (g : Gpu) : Prop :=
  forall q, q <> mq -> signals_on f (queue g q) = [].

(** What the runtime can do while the fence [f] is signalled from the queue
    [mq] only, as it is through the methods of the fence object. *)
Inductive own_step (f mq : nat) : Gpu -> Gpu -> Prop :=
| own_exec q g : own_step f mq g (gpu_exec q g)
| own_enqueue q c g :
    (q <> mq -> signals_on f [c] = []) -> own_step f mq g (enqueue q c g)
| own_register f' v h g : own_step f mq g (register_event f' v h g)
| own_event h b g : own_step f mq g (write_event h b g)
| own_new_fence f' v g : f' <> f -> own_step f mq g (new_fence f' v g).

(** The counter is the value of the newest signal of the fence object: the
    last one pending on its queue, or the completed value when none is. *)
Definition Current (this : Fence) (g : Gpu) : Prop :=
  List.last (signals_on (m_fence this) (queue g (m_queue this)))
            (fence_value g (m_fence this))
  = m_currentFenceValue this.

(** The signals for [f] among the commands of queue [mq] that are ahead of
    the place [p0]. *)
Definition ahead (f mq p0 : nat) (g : Gpu) : list Z :=
  signals_on f (take (p0 - retired g mq) (queue g mq)).

(** The queue [mq] ends in the signal of [f] for [v], which the fence has
    not reached and no earlier signal reaches; or the queue is empty and the
    fence holds [v]. *)
Definition Draining (f mq : nat) (v : Z) (g : Gpu) : Prop :=
  (fence_value g f < v /\
   exists pre, queue g mq = pre ++ [CmdSignal f v] /\
               Forall (fun w => w < v) (signals_on f pre)) \/
  (queue g mq = [] /\ fence_value g f = v).

(** The commands a call submits on queue [q]. *)
Definition submits (op : Op) (this : Fence) (q : nat) : nat :=
  match op with
  | OpSignal _ | OpGpuWait _ | OpFlushGpuQueue =>
      if Nat.eqb q (m_queue this) then 1%nat else O
  | OpSubmit q' _ => if Nat.eqb q q' then 1%nat else O
  | OpCpuWait _ | OpNext => O
  end.

(** The commands a run of calls submits on queue [q]. *)
Definition submits_all (ops : list Op) (this : Fence) (q : nat) : nat :=
  list_sum (map (fun op => submits op this q) ops).

(** The command [c] holds the place [p0] of queue [mq] for as long as it has
    not retired, and until then [P] holds of the completed value of [f] and of
    the signals for [f] that are ahead of it. *)
Definition Placed (f mq p0 : nat) (c : Cmd) (P : Z -> list Z -> Prop) (g : Gpu) : Prop :=
  Sole f mq g /\
  ((retired g mq <= p0)%nat ->
   queue g mq !! (p0 - retired g mq)%nat = Some c /\
   P (fence_value g f) (ahead f mq p0 g)).

(** The step from [g] to [g'] leaves the fence object [this] in order: it
    still owns its native fence, its event is still at rest, and the completed
    value has not fallen. *)
Definition Kept (this : Fence) (g g' : Gpu) : Prop :=
  Owns this g -> Idle this g ->
  Owns this g' /\ Idle this g' /\
  fence_value g (m_fence this) <= fence_value g' (m_fence this).

(** * Properties *)

(** ** The monad *)

Ltac unfold_monad :=
  unfold mbind, mret, M_bind, M_ret, tick, log, gets, on_gpu, modify, raise in *.

Lemma bind_eq {A B : Type} (m : M A) (k : A -> M B) (e : Env) :
  (m ≫= k) e = match m e with
               | Ok a e' => k a e'
               | Fail err e' => Fail err e'
               end.
Proof. reflexivity. Qed.

Lemma ret_eq {A : Type} (a : A) (e : Env) : @mret M _ A a e = Ok a e.
Proof. reflexivity. Qed.

Lemma bind_Ok_inv {A B : Type} (m : M A) (k : A -> M B) (e e2 : Env) (b : B) :
  (m ≫= k) e = Ok b e2 -> exists a e1, m e = Ok a e1 /\ k a e1 = Ok b e2.
Proof.
  rewrite bind_eq. destruct (m e) as [a e1|err e1]; [eauto | discriminate].
Qed.

Lemma ThrowIfFailed_eq (hr : Z) (e : Env) :
  ThrowIfFailed hr e = if FAILED hr then Fail (Threw hr) e else Ok tt e.
Proof. unfold ThrowIfFailed. destruct (FAILED hr); reflexivity. Qed.

(** ** Entry points of the runtime, in closed form *)

Lemma ticked_fences_made (e : Env) : fences_made (ticked e) = fences_made e.
Proof. unfold ticked. destruct (tape e) as [|[b hr] t]; reflexivity. Qed.

Lemma ticked_events_made (e : Env) : events_made (ticked e) = events_made e.
Proof. unfold ticked. destruct (tape e) as [|[b hr] t]; reflexivity. Qed.

Lemma ticked_crt_debug (e : Env) : crt_debug (ticked e) = crt_debug e.
Proof. unfold ticked. destruct (tape e) as [|[b hr] t]; reflexivity. Qed.

Lemma ticked_calls (e : Env) : calls (ticked e) = calls e.
Proof. unfold ticked. destruct (tape e) as [|[b hr] t]; reflexivity. Qed.

Lemma ticked_last_error (e : Env) : last_error (ticked e) = last_error e.
Proof. unfold ticked. destruct (tape e) as [|[b hr] t]; reflexivity. Qed.

(** The burst that precedes the next call. *)
Lemma ticked_gpu (e : Env) : gpu (ticked e) = gpu_run (burst e) (gpu e).
Proof. unfold ticked, burst. destruct (tape e) as [|[b hr] t]; reflexivity. Qed.

Create Rewrite HintDb env.
#[local] Hint Rewrite ticked_fences_made ticked_events_made ticked_crt_debug
  ticked_calls ticked_last_error : env.

(** Projections of the environment after each of its updates. *)

Lemma gpu_with_gpu g e : gpu (with_gpu g e) = g.
Proof. reflexivity. Qed.

Lemma fences_made_with_gpu g e : fences_made (with_gpu g e) = fences_made e.
Proof. reflexivity. Qed.

Lemma events_made_with_gpu g e : events_made (with_gpu g e) = events_made e.
Proof. reflexivity. Qed.

Lemma last_error_with_gpu g e : last_error (with_gpu g e) = last_error e.
Proof. reflexivity. Qed.

Lemma crt_debug_with_gpu g e : crt_debug (with_gpu g e) = crt_debug e.
Proof. reflexivity. Qed.

Lemma tape_with_gpu g e : tape (with_gpu g e) = tape e.
Proof. reflexivity. Qed.

Lemma calls_with_gpu g e : calls (with_gpu g e) = calls e.
Proof. reflexivity. Qed.

Lemma gpu_with_fences_made n e : gpu (with_fences_made n e) = gpu e.
Proof. reflexivity. Qed.

Lemma fences_made_with_fences_made n e : fences_made (with_fences_made n e) = n.
Proof. reflexivity. Qed.

Lemma events_made_with_fences_made n e : events_made (with_fences_made n e) = events_made e.
Proof. reflexivity. Qed.

Lemma last_error_with_fences_made n e : last_error (with_fences_made n e) = last_error e.
Proof. reflexivity. Qed.

Lemma crt_debug_with_fences_made n e : crt_debug (with_fences_made n e) = crt_debug e.
Proof. reflexivity. Qed.

Lemma tape_with_fences_made n e : tape (with_fences_made n e) = tape e.
Proof. reflexivity. Qed.

Lemma calls_with_fences_made n e : calls (with_fences_made n e) = calls e.
Proof. reflexivity. Qed.

Lemma gpu_with_events_made n e : gpu (with_events_made n e) = gpu e.
Proof. reflexivity. Qed.

Lemma fences_made_with_events_made n e : fences_made (with_events_made n e) = fences_made e.
Proof. reflexivity. Qed.

Lemma events_made_with_events_made n e : events_made (with_events_made n e) = n.
Proof. reflexivity. Qed.

Lemma last_error_with_events_made n e : last_error (with_events_made n e) = last_error e.
Proof. reflexivity. Qed.

Lemma crt_debug_with_events_made n e : crt_debug (with_events_made n e) = crt_debug e.
Proof. reflexivity. Qed.

Lemma tape_with_events_made n e : tape (with_events_made n e) = tape e.
Proof. reflexivity. Qed.

Lemma calls_with_events_made n e : calls (with_events_made n e) = calls e.
Proof. reflexivity. Qed.

Lemma gpu_with_last_error x e : gpu (with_last_error x e) = gpu e.
Proof. reflexivity. Qed.

Lemma fences_made_with_last_error x e : fences_made (with_last_error x e) = fences_made e.
Proof. reflexivity. Qed.

Lemma events_made_with_last_error x e : events_made (with_last_error x e) = events_made e.
Proof. reflexivity. Qed.

Lemma last_error_with_last_error x e : last_error (with_last_error x e) = x.
Proof. reflexivity. Qed.

Lemma crt_debug_with_last_error x e : crt_debug (with_last_error x e) = crt_debug e.
Proof. reflexivity. Qed.

Lemma tape_with_last_error x e : tape (with_last_error x e) = tape e.
Proof. reflexivity. Qed.

Lemma calls_with_last_error x e : calls (with_last_error x e) = calls e.
Proof. reflexivity. Qed.

Lemma gpu_logged c e : gpu (logged c e) = gpu e.
Proof. reflexivity. Qed.

Lemma fences_made_logged c e : fences_made (logged c e) = fences_made e.
Proof. reflexivity. Qed.

Lemma events_made_logged c e : events_made (logged c e) = events_made e.
Proof. reflexivity. Qed.

Lemma last_error_logged c e : last_error (logged c e) = last_error e.
Proof. reflexivity. Qed.

Lemma crt_debug_logged c e : crt_debug (logged c e) = crt_debug e.
Proof. reflexivity. Qed.

Lemma tape_logged c e : tape (logged c e) = tape e.
Proof. reflexivity. Qed.

Lemma calls_logged c e : calls (logged c e) = calls e ++ [c].
Proof. reflexivity. Qed.

#[local] Hint Rewrite
  gpu_with_gpu fences_made_with_gpu events_made_with_gpu last_error_with_gpu
  crt_debug_with_gpu tape_with_gpu calls_with_gpu gpu_with_fences_made
  fences_made_with_fences_made events_made_with_fences_made last_error_with_fences_made crt_debug_with_fences_made
  tape_with_fences_made calls_with_fences_made gpu_with_events_made fences_made_with_events_made
  events_made_with_events_made last_error_with_events_made crt_debug_with_events_made tape_with_events_made
  calls_with_events_made gpu_with_last_error fences_made_with_last_error events_made_with_last_error
  last_error_with_last_error crt_debug_with_last_error tape_with_last_error calls_with_last_error
  gpu_logged fences_made_logged events_made_logged last_error_logged
  crt_debug_logged tape_logged calls_logged : env.

Ltac env_simpl := autorewrite with env.

Lemma Queue_Signal_eq (q f : nat) (v : Z) (e : Env) :
  Queue_Signal q f v e =
  Ok (status e)
     (if FAILED (status e) then logged (CallQueueSignal q f v) (ticked e)
      else with_gpu (enqueue q (CmdSignal f v) (gpu (ticked e)))
                    (logged (CallQueueSignal q f v) (ticked e))).
Proof.
  unfold Queue_Signal. rewrite bind_eq. unfold tick.
  destruct (FAILED (status e)); reflexivity.
Qed.

Lemma Queue_Wait_eq (q f : nat) (v : Z) (e : Env) :
  Queue_Wait q f v e =
  Ok (status e)
     (if FAILED (status e) then logged (CallQueueWait q f v) (ticked e)
      else with_gpu (enqueue q (CmdWait f v) (gpu (ticked e)))
                    (logged (CallQueueWait q f v) (ticked e))).
Proof.
  unfold Queue_Wait. rewrite bind_eq. unfold tick.
  destruct (FAILED (status e)); reflexivity.
Qed.

Lemma Queue_Submit_eq (q tag : nat) (e : Env) :
  Queue_Submit q tag e = Ok tt (with_gpu (enqueue q (CmdWork tag) (gpu (ticked e))) (ticked e)).
Proof. reflexivity. Qed.

Lemma Fence_GetCompletedValue_eq (f : nat) (e : Env) :
  Fence_GetCompletedValue f e =
  Ok (fence_value (gpu (ticked e)) f) (logged (CallGetCompletedValue f) (ticked e)).
Proof. reflexivity. Qed.

Lemma Fence_SetEventOnCompletion_eq (f : nat) (v : Z) (h : nat) (e : Env) :
  Fence_SetEventOnCompletion f v h e =
  Ok (status e)
     (if FAILED (status e) then logged (CallSetEventOnCompletion f v h) (ticked e)
      else with_gpu (register_event f v h (gpu (ticked e)))
                    (logged (CallSetEventOnCompletion f v h) (ticked e))).
Proof.
  unfold Fence_SetEventOnCompletion. rewrite bind_eq. unfold tick.
  destruct (FAILED (status e)); reflexivity.
Qed.

Lemma WaitForSingleObjectEx_INFINITE_eq (h : nat) (alertable : bool) (e : Env) :
  WaitForSingleObjectEx h INFINITE alertable e =
  let e1 := logged (CallWaitForSingleObjectEx h INFINITE alertable) (ticked e) in
  if event_set (gpu e1) h
  then Ok WAIT_OBJECT_0 (with_gpu (write_event h false (gpu e1)) e1)
  else Fail Blocked e1.
Proof.
  unfold WaitForSingleObjectEx. unfold_monad. cbn.
  destruct (event_set (gpu (ticked e)) h); reflexivity.
Qed.

(** ** Signal *)

(** The signal command that ends [Signal], once the counter is set. *)
Lemma Signal_eq (this : Fence) (value : Z) (e : Env) :
  Signal this value e =
  let this' := set_currentFenceValue
                 (if value =? UnspecifiedFenceValue
                  then wrap64 (m_currentFenceValue this + 1) else value) this in
  let c := CallQueueSignal (m_queue this) (m_fence this) (m_currentFenceValue this') in
  if negb (value =? UnspecifiedFenceValue) && crt_debug e
     && negb (m_currentFenceValue this <? value)
  then Fail AssertFailed e
  else if FAILED (status e) then Fail (Threw (status e)) (logged c (ticked e))
  else Ok this' (with_gpu (enqueue (m_queue this) (CmdSignal (m_fence this)
                                      (m_currentFenceValue this')) (gpu (ticked e)))
                          (logged c (ticked e))).
Proof.
  unfold Signal. rewrite bind_eq.
  destruct (value =? UnspecifiedFenceValue) eqn:Hv; cbn [negb andb].
  - cbn. rewrite bind_eq, Queue_Signal_eq, bind_eq, ThrowIfFailed_eq.
    destruct (FAILED (status e)); reflexivity.
  - rewrite bind_eq. unfold _ASSERT at 1.
    destruct (crt_debug e && negb (m_currentFenceValue this <? value)) eqn:Ha;
      [reflexivity|].
    cbn. rewrite bind_eq, Queue_Signal_eq, bind_eq, ThrowIfFailed_eq.
    destruct (FAILED (status e)); reflexivity.
Qed.

Lemma wrap64_small (z : Z) : 0 <= z <= UINT64_MAX -> wrap64 z = z.
Proof. unfold wrap64, UINT64_MAX. intros H. apply Z.mod_small. lia. Qed.

Lemma Signal_unspecified_cases (this : Fence) (e : Env) :
  match Signal this (arg None) e with
  | Ok this' e' =>
      this' = set_currentFenceValue (wrap64 (m_currentFenceValue this + 1)) this /\
      calls e' = calls e ++ [CallQueueSignal (m_queue this) (m_fence this)
                                              (m_currentFenceValue this')]
  | Fail err _ => err = Threw (status e) /\ FAILED (status e) = true
  end.
Proof.
  rewrite Signal_eq. cbn -[wrap64].
  destruct (FAILED (status e)) eqn:Hs; [auto|]. split; [reflexivity|].
  cbn -[wrap64]. now autorewrite with env.
Qed.

(** ** The constructors *)

Lemma HRESULT_FROM_WIN32_FAILED (x : Z) : x <> 0 -> FAILED (HRESULT_FROM_WIN32 x) = true.
Proof.
  intros Hx. unfold FAILED, HRESULT_FROM_WIN32.
  destruct (x <=? 0) eqn:Hle; [lia|].
  assert (Ha : 0 <= Z.land x 65535) by (apply Z.land_nonneg; lia).
  set (y := Z.lor (Z.land x 65535) 2147942400).
  assert (Hy : 0 <= y) by (apply Z.lor_nonneg; lia).
  assert (Hlog : Z.log2 y = 31).
  { unfold y. rewrite Z.log2_lor by lia.
    pose proof (Z.log2_land x 65535 ltac:(lia) ltac:(lia)) as Hl.
    change (Z.log2 65535) with 15 in Hl. change (Z.log2 2147942400) with 31. lia. }
  assert (Hpos : 0 < y).
  { destruct (Z.eq_dec y 0) as [H0|H0]; [rewrite H0 in Hlog; discriminate|lia]. }
  assert (y < 2 ^ 32) by (apply Z.log2_lt_pow2; lia).
  lia.
Qed.

Lemma QueryInterface_eq (q : nat) (e : Env) :
  QueryInterface q e = Ok (status e) (logged (CallQueryInterface q) (ticked e)).
Proof. reflexivity. Qed.

Lemma GetDevice_eq (q : nat) (e : Env) :
  GetDevice q e = Ok (status e) (logged (CallGetDevice q) (ticked e)).
Proof. reflexivity. Qed.

Lemma CreateFence_eq (v : Z) (e : Env) :
  CreateFence v e =
  let e1 := logged (CallCreateFence v) (ticked e) in
  if FAILED (status e) then Ok (status e, O) e1
  else Ok (status e, S (fences_made e1))
          (with_gpu (new_fence (S (fences_made e1)) v (gpu e1))
                    (with_fences_made (S (fences_made e1)) e1)).
Proof.
  unfold CreateFence. unfold_monad. destruct (FAILED (status e)); reflexivity.
Qed.

Lemma CreateEvent_eq (manual initial : bool) (e : Env) :
  CreateEvent manual initial e =
  let e1 := logged (CallCreateEvent manual initial) (ticked e) in
  if status e =? 0
  then Ok (S (events_made e1))
          (with_gpu (write_event (S (events_made e1)) initial (gpu e1))
                    (with_events_made (S (events_made e1)) e1))
  else Ok O (with_last_error (status e) e1).
Proof.
  unfold CreateEvent. unfold_monad. destruct (status e =? 0); reflexivity.
Qed.

Lemma gpu_run_app (s1 s2 : list nat) (g : Gpu) :
  gpu_run (s1 ++ s2) g = gpu_run s2 (gpu_run s1 g).
Proof. apply fold_left_app. Qed.

(** The environment a successful construction leaves behind. *)
Lemma Fence_new_cases (pQueue : nat) (e : Env) :
  match Fence_new pQueue e with
  | Ok this e' =>
      this = {| m_fence := S (fences_made e); m_queue := pQueue;
                m_currentFenceValue := 0; m_fenceEvent := S (events_made e) |} /\
      fences_made e' = S (fences_made e) /\ events_made e' = S (events_made e) /\
      crt_debug e' = crt_debug e /\
      calls e' = calls e ++ [CallQueryInterface pQueue; CallGetDevice pQueue;
                             CallCreateFence 0; CallCreateEvent false false] /\
      exists s s', gpu e' = write_event (S (events_made e)) false
                              (gpu_run s' (new_fence (S (fences_made e)) 0
                                             (gpu_run s (gpu e))))
  | Fail err _ => exists hr, err = Threw hr
  end.
Proof.
  unfold Fence_new.
  rewrite bind_eq, QueryInterface_eq, bind_eq, ThrowIfFailed_eq.
  destruct (FAILED (status e)); [eauto|].
  rewrite bind_eq, GetDevice_eq, bind_eq, ThrowIfFailed_eq.
  destruct (FAILED (status _)); [eauto|].
  rewrite bind_eq, CreateFence_eq. cbv zeta.
  destruct (FAILED (status _)) eqn:H3.
  { rewrite bind_eq, ThrowIfFailed_eq, H3. eauto. }
  rewrite bind_eq, ThrowIfFailed_eq, H3.
  rewrite bind_eq, CreateEvent_eq. cbv zeta.
  destruct (status _ =? 0) eqn:Hev.
  - rewrite bind_eq. change (Nat.eqb (S ?n) O) with false. cbv iota.
    rewrite ret_eq. cbv beta iota. rewrite ret_eq.
    env_simpl. repeat split.
    + rewrite <- !app_assoc. reflexivity.
    + rewrite !ticked_gpu. env_simpl. rewrite !ticked_gpu. env_simpl.
      rewrite !ticked_gpu. env_simpl. rewrite <- !gpu_run_app. eauto.
  - rewrite bind_eq. change (Nat.eqb O O) with true. cbv iota.
    rewrite bind_eq. unfold GetLastError, gets. rewrite ThrowIfFailed_eq.
    env_simpl.
    rewrite HRESULT_FROM_WIN32_FAILED by (apply Z.eqb_neq; assumption). eauto.
Qed.

(** ** The counter under Signal *)

Lemma signal_times_spec (n : nat) : forall (this : Fence) (e : Env),
  0 <= m_currentFenceValue this ->
  m_currentFenceValue this + Z.of_nat n <= UINT64_MAX ->
  match signal_times n this e with
  | Ok (final, seen) _ =>
      seen = map (fun i => m_currentFenceValue this + Z.of_nat i) (seq 1 n) /\
      m_currentFenceValue final = m_currentFenceValue this + Z.of_nat n
  | Fail err _ => exists hr, err = Threw hr /\ FAILED hr = true
  end.
Proof.
  induction n as [|n IH]; intros this e Hlo Hhi.
  - cbn. split; [reflexivity|lia].
  - cbn [signal_times]. rewrite bind_eq.
    pose proof (Signal_unspecified_cases this e) as HS.
    destruct (Signal this (arg None) e) as [this' e'|err e'].
    + destruct HS as [-> _].
      rewrite wrap64_small by lia.
      specialize (IH (set_currentFenceValue (m_currentFenceValue this + 1) this) e').
      cbn [m_currentFenceValue set_currentFenceValue] in IH.
      specialize (IH ltac:(lia) ltac:(lia)).
      rewrite bind_eq.
      destruct (signal_times n _ e') as [[final seen] e''|err e'']; [|exact IH].
      destruct IH as [-> IH]. cbn. split; [|lia].
      f_equal. rewrite <- (seq_shift n 1), map_map. apply map_ext. intros i. lia.
    + destruct HS as [-> HS]. eauto.
Qed.

(** C2 (as amended). As long as the counter stays within 2^64 - 1, every
    call of [Signal()] without a value raises the counter by exactly one: [n]
    calls on a fence with counter [c] show [c+1, ..., c+n], unless a native
    call fails. On a fence just constructed three calls show 1, 2, 3. *)
Theorem Signal_unspecified_increments (n : nat) (this : Fence) (e : Env)
    (Hlo : 0 <= m_currentFenceValue this)
    (Hhi : m_currentFenceValue this + Z.of_nat n <= UINT64_MAX) :
  match signal_times n this e with
  | Ok (final, seen) _ =>
      seen = map (fun i => m_currentFenceValue this + Z.of_nat i) (seq 1 n) /\
      m_currentFenceValue final = m_currentFenceValue this + Z.of_nat n
  | Fail err _ => exists hr, err = Threw hr /\ FAILED hr = true
  end /\
  forall (pQueue : nat) (e0 : Env),
    match (fresh ← Fence_new pQueue; signal_times 3 fresh) e0 with
    | Ok (_, seen) _ => seen = [1; 2; 3]
    | Fail err _ => exists hr, err = Threw hr
    end.
Proof.
  split; [apply signal_times_spec; assumption|].
  intros pQueue e0. rewrite bind_eq.
  pose proof (Fence_new_cases pQueue e0) as HN.
  destruct (Fence_new pQueue e0) as [fresh e1|err e1]; [|exact HN].
  destruct HN as [-> _].
  match goal with |- context [signal_times 3 ?f e1] =>
    pose proof (signal_times_spec 3 f e1) as H3;
    destruct (signal_times 3 f e1) as [[final seen] e2|err e2]
  end.
  - apply H3; cbn; unfold UINT64_MAX; lia.
  - destruct H3 as [hr [-> _]]; cbn; unfold UINT64_MAX; try lia. eauto.
Qed.

Lemma Signal_unspecified_increments_witness :
  let this := {| m_fence := 1; m_queue := 0; m_currentFenceValue := 0; m_fenceEvent := 1 |} in
  let e := boot true [] in
  (0 <= m_currentFenceValue this /\
   m_currentFenceValue this + Z.of_nat 3 <= UINT64_MAX) /\
  (match signal_times 3 this e with
   | Ok (final, seen) _ =>
       seen = map (fun i => m_currentFenceValue this + Z.of_nat i) (seq 1 3) /\
       m_currentFenceValue final = m_currentFenceValue this + Z.of_nat 3
   | Fail err _ => exists hr, err = Threw hr /\ FAILED hr = true
   end /\
   forall (pQueue : nat) (e0 : Env),
     match (fresh ← Fence_new pQueue; signal_times 3 fresh) e0 with
     | Ok (_, seen) _ => seen = [1; 2; 3]
     | Fail err _ => exists hr, err = Threw hr
     end).
Proof.
  intros this e.
  assert (H1 : 0 <= m_currentFenceValue this) by (cbn; lia).
  assert (H2 : m_currentFenceValue this + Z.of_nat 3 <= UINT64_MAX)
    by (cbn; unfold UINT64_MAX; lia).
  split; [split; assumption|].
  exact (Signal_unspecified_increments 3 this e H1 H2).
Defined.

(** C2 as stated fails where the counter is at its largest value: the fence
    reaches 2^64 - 1 with two calls, and the next [Signal()] leaves it at 0
    instead of one more. *)
Lemma Signal_unspecified_wraps_counterexample :
  value_of ((fresh ← Fence_new 0;
             a ← Signal fresh (arg (Some (UINT64_MAX - 1)));
             b ← Signal a (arg None);
             c ← Signal b (arg None);
             mret [m_currentFenceValue a; m_currentFenceValue b; m_currentFenceValue c])
              (boot true []))
  = Some [UINT64_MAX - 1; UINT64_MAX; 0] /\
  0 <> UINT64_MAX + 1.
Proof. split; [vm_compute; reflexivity | discriminate]. Qed.

(** C3 (as amended). In a build where [_ASSERT] is active, [Signal(v)] with
    an explicit value other than 2^64 - 1 that does not exceed the counter
    stops at the assertion: nothing is submitted to the queue and no counter
    is written. *)
Theorem Signal_explicit_rejected (this : Fence) (v : Z) (e : Env)
    (Hdebug : crt_debug e = true)
    (Hv : v <> UnspecifiedFenceValue)
    (Hle : v <= m_currentFenceValue this) :
  Signal this (arg (Some v)) e = Fail AssertFailed e.
Proof.
  change (arg (Some v)) with v. rewrite Signal_eq.
  apply Z.eqb_neq in Hv. rewrite Hv, Hdebug.
  assert (Hlt : (m_currentFenceValue this <? v) = false) by (apply Z.ltb_ge; exact Hle).
  rewrite Hlt. reflexivity.
Qed.

Lemma Signal_explicit_rejected_witness :
  let this := {| m_fence := 1; m_queue := 0; m_currentFenceValue := 5; m_fenceEvent := 1 |} in
  let e := boot true [] in
  (crt_debug e = true /\ 3 <> UnspecifiedFenceValue /\ 3 <= m_currentFenceValue this) /\
  Signal this (arg (Some 3)) e = Fail AssertFailed e.
Proof.
  intros this e.
  assert (H1 : crt_debug e = true) by reflexivity.
  assert (H2 : 3 <> UnspecifiedFenceValue) by discriminate.
  assert (H3 : 3 <= m_currentFenceValue this) by (cbn; lia).
  split; [auto|]. exact (Signal_explicit_rejected this 3 e H1 H2 H3).
Defined.

(** C3 as stated fails twice over. Without [_DEBUG] the assertion is not
    compiled in, and a value below the counter is applied: after [Signal(5)],
    [Signal(3)] returns with the counter at 3. And the value 2^64 - 1 is never
    compared with the counter: at counter 2^64 - 1 it is accepted in a debug
    build as well, and the counter wraps to 0. *)
Lemma Signal_explicit_applied_counterexample :
  value_of ((fresh ← Fence_new 0;
             a ← Signal fresh (arg (Some 5));
             b ← Signal a (arg (Some 3));
             mret [m_currentFenceValue a; m_currentFenceValue b])
              (boot false []))
  = Some [5; 3] /\
  value_of ((fresh ← Fence_new 0;
             a ← Signal fresh (arg (Some (UINT64_MAX - 1)));
             b ← Signal a (arg None);
             c ← Signal b (arg (Some UINT64_MAX));
             mret [m_currentFenceValue a; m_currentFenceValue b; m_currentFenceValue c])
              (boot true []))
  = Some [UINT64_MAX - 1; UINT64_MAX; 0].
Proof. split; vm_compute; reflexivity. Qed.

(** ** The reserved value *)

Lemma CpuWait_sentinel (this : Fence) (e : Env) :
  CpuWait this UINT64_MAX e = CpuWait this (m_currentFenceValue this) e.
Proof.
  unfold CpuWait. change (UINT64_MAX =? UnspecifiedFenceValue) with true. cbv iota.
  destruct (m_currentFenceValue this =? UnspecifiedFenceValue); reflexivity.
Qed.

Lemma GpuWait_static_sentinel (pQueue : nat) (pFence : Fence) (e : Env) :
  GpuWait_static pQueue pFence UINT64_MAX e =
  GpuWait_static pQueue pFence (m_currentFenceValue pFence) e.
Proof.
  unfold GpuWait_static. change (UINT64_MAX =? UnspecifiedFenceValue) with true. cbv iota.
  destruct (m_currentFenceValue pFence =? UnspecifiedFenceValue); reflexivity.
Qed.

(** C9. A call that passes 2^64 - 1 is the call that passes nothing: [Signal]
    counts up by one (modulo 2^64) and never compares the value with the
    counter, so no assertion can fire; [GpuWait] and [CpuWait] take the
    counter in its place. *)
Theorem sentinel_collision (this : Fence) (pQueue : nat) (e : Env) :
  Signal this (arg (Some UINT64_MAX)) e = Signal this (arg None) e /\
  match Signal this (arg (Some UINT64_MAX)) e with
  | Ok this' _ => m_currentFenceValue this' = wrap64 (m_currentFenceValue this + 1)
  | Fail err _ => err <> AssertFailed
  end /\
  GpuWait_static pQueue this (arg (Some UINT64_MAX)) e =
    GpuWait_static pQueue this (arg None) e /\
  GpuWait_static pQueue this (arg (Some UINT64_MAX)) e =
    GpuWait_static pQueue this (m_currentFenceValue this) e /\
  GpuWait this (arg (Some UINT64_MAX)) e = GpuWait this (m_currentFenceValue this) e /\
  CpuWait this (arg (Some UINT64_MAX)) e = CpuWait this (arg None) e /\
  CpuWait this (arg (Some UINT64_MAX)) e = CpuWait this (m_currentFenceValue this) e.
Proof.
  pose proof (Signal_unspecified_cases this e) as HS.
  change (arg (Some UINT64_MAX)) with (arg None).
  change (arg None) with UINT64_MAX in *.
  repeat split.
  - destruct (Signal this UINT64_MAX e) as [this' e'|err e'].
    + destruct HS as [-> _]. reflexivity.
    + destruct HS as [-> _]. discriminate.
  - apply GpuWait_static_sentinel.
  - apply (GpuWait_static_sentinel (m_queue this)).
  - apply CpuWait_sentinel.
Qed.

(** ** The counter never runs backwards, short of the wrap-around *)

Lemma Signal_Ok_inv (this : Fence) (value : Z) (e : Env) (this' : Fence) (e' : Env) :
  Signal this value e = Ok this' e' ->
  this' = set_currentFenceValue
            (if value =? UnspecifiedFenceValue
             then wrap64 (m_currentFenceValue this + 1) else value) this /\
  FAILED (status e) = false /\
  e' = with_gpu (enqueue (m_queue this)
                   (CmdSignal (m_fence this) (m_currentFenceValue this'))
                   (gpu (ticked e)))
                (logged (CallQueueSignal (m_queue this) (m_fence this)
                           (m_currentFenceValue this')) (ticked e)) /\
  (value <> UnspecifiedFenceValue -> crt_debug e = true ->
   m_currentFenceValue this < value).
Proof.
  rewrite Signal_eq. cbv zeta.
  destruct (negb (value =? UnspecifiedFenceValue) && crt_debug e
            && negb (m_currentFenceValue this <? value)) eqn:Ha; [discriminate|].
  destruct (FAILED (status e)) eqn:Hs; [discriminate|].
  intros H. injection H as <- <-. repeat split.
  intros Hv Hd. apply Z.eqb_neq in Hv. rewrite Hv, Hd in Ha. cbn in Ha.
  apply negb_false_iff, Z.ltb_lt in Ha. exact Ha.
Qed.

Lemma FlushGpuQueue_Ok_inv (this : Fence) (e : Env) (this' : Fence) (e' : Env) :
  FlushGpuQueue this e = Ok this' e' ->
  exists e1, Signal this UnspecifiedFenceValue e = Ok this' e1 /\
             CpuWait this' (m_currentFenceValue this') e1 = Ok tt e'.
Proof.
  unfold FlushGpuQueue. intros H.
  apply bind_Ok_inv in H as (this1 & e1 & HS & H).
  apply bind_Ok_inv in H as ([] & e2 & HW & H).
  rewrite ret_eq in H. injection H as <- <-. eauto.
Qed.

Lemma Next_Ok_inv (this : LinearFence) (e : Env) (this' : LinearFence) (e' : Env) :
  Next this e = Ok this' e' ->
  exists history r v,
    vec_store (m_signalHistory this) (m_signalIndex this)
              (m_currentFenceValue (base this)) e = Ok history e /\
    urem (wrap32 (m_signalIndex this + 1)) (Z.of_nat (length history)) e = Ok r e /\
    vec_load history (wrap32 r) e = Ok v e /\
    CpuWait (base this) v e = Ok tt e' /\
    this' = {| base := base this; m_signalHistory := history;
               m_signalIndex := wrap32 r |}.
Proof.
  unfold Next. intros H.
  apply bind_Ok_inv in H as (history & e1 & H1 & H).
  assert (e1 = e) as ->.
  { unfold vec_store in H1. destruct (_ && _) in H1; [|discriminate].
    rewrite ret_eq in H1. congruence. }
  apply bind_Ok_inv in H as (r & e2 & H2 & H).
  assert (e2 = e) as ->.
  { unfold urem in H2. destruct (_ =? 0) in H2; [discriminate|].
    rewrite ret_eq in H2. congruence. }
  apply bind_Ok_inv in H as (v & e3 & H3 & H).
  assert (e3 = e) as ->.
  { unfold vec_load in H3. destruct (0 <=? _) in H3; [|discriminate].
    destruct (_ !! _) in H3; [|discriminate]. rewrite ret_eq in H3. congruence. }
  apply bind_Ok_inv in H as ([] & e4 & H4 & H).
  rewrite ret_eq in H. injection H as <- <-.
  exists history, r, v. auto.
Qed.

(** C7 (as amended). Each operation leaves the counter at least where it
    was, provided an explicit value passed to [Signal] exceeds the counter
    and the calls that count by one ([Signal()], [FlushGpuQueue]) find the
    counter below 2^64 - 1. *)
Theorem counter_never_decreases (op : Op) (this this' : LinearFence) (e e' : Env)
    (Hlo : 0 <= m_currentFenceValue (base this))
    (Hsafe : op_safe op (m_currentFenceValue (base this)))
    (Hrun : perform op this e = Ok this' e') :
  m_currentFenceValue (base this) <= m_currentFenceValue (base this').
Proof.
  destruct op as [value|value|value| | |q tag]; cbn [perform op_safe] in *.
  - apply bind_Ok_inv in Hrun as (b & e1 & HS & H).
    rewrite ret_eq in H. injection H as <- <-.
    apply Signal_Ok_inv in HS as (-> & _).
    cbn [base with_base m_currentFenceValue set_currentFenceValue].
    destruct (arg value =? UnspecifiedFenceValue).
    + rewrite wrap64_small by lia. lia.
    + lia.
  - apply bind_Ok_inv in Hrun as ([] & e1 & _ & H).
    rewrite ret_eq in H. injection H as <- <-. lia.
  - apply bind_Ok_inv in Hrun as ([] & e1 & _ & H).
    rewrite ret_eq in H. injection H as <- <-. lia.
  - apply bind_Ok_inv in Hrun as (b & e1 & HF & H).
    rewrite ret_eq in H. injection H as <- <-.
    apply FlushGpuQueue_Ok_inv in HF as (e2 & HS & _).
    apply Signal_Ok_inv in HS as (-> & _).
    cbn [base with_base m_currentFenceValue set_currentFenceValue].
    change (UnspecifiedFenceValue =? UnspecifiedFenceValue) with true. cbv iota.
    rewrite wrap64_small by lia. lia.
  - apply Next_Ok_inv in Hrun as (history & r & v & _ & _ & _ & _ & ->).
    cbn [base]. lia.
  - apply bind_Ok_inv in Hrun as ([] & e1 & _ & H).
    rewrite ret_eq in H. injection H as <- <-. lia.
Qed.

Lemma counter_never_decreases_witness :
  let this := {| base := {| m_fence := 1; m_queue := 0;
                            m_currentFenceValue := 4; m_fenceEvent := 1 |};
                 m_signalHistory := [0; 0]; m_signalIndex := 0 |} in
  let this' := with_base (set_currentFenceValue 9 (base this)) this in
  let e := boot true [] in
  let e' := env_of (perform (OpSignal (Some 9)) this e) in
  (0 <= m_currentFenceValue (base this) /\
   op_safe (OpSignal (Some 9)) (m_currentFenceValue (base this)) /\
   perform (OpSignal (Some 9)) this e = Ok this' e') /\
  m_currentFenceValue (base this) <= m_currentFenceValue (base this').
Proof.
  intros this this' e e'.
  assert (H1 : 0 <= m_currentFenceValue (base this)) by (vm_compute; discriminate).
  assert (H2 : op_safe (OpSignal (Some 9)) (m_currentFenceValue (base this)))
    by (vm_compute; reflexivity).
  assert (H3 : perform (OpSignal (Some 9)) this e = Ok this' e')
    by (vm_compute; reflexivity).
  split; [auto|].
  exact (counter_never_decreases (OpSignal (Some 9)) this this' e e' H1 H2 H3).
Defined.

(** C7 as stated fails at the top of the range: with the counter at
    2^64 - 1, [Signal()] and [FlushGpuQueue] both leave it at 0. *)
Lemma counter_wraps_counterexample :
  value_of ((fresh ← LinearFence_new 0 2;
             a ← perform (OpSignal (Some (UINT64_MAX - 1))) fresh;
             b ← perform (OpSignal None) a;
             c ← perform (OpSignal None) b;
             d ← perform OpFlushGpuQueue b;
             mret [m_currentFenceValue (base b); m_currentFenceValue (base c);
                   m_currentFenceValue (base d)])
              (boot true []))
  = Some [UINT64_MAX; 0; 0] /\
  0 < UINT64_MAX.
Proof. split; [vm_compute; reflexivity | reflexivity]. Qed.

(** ** CpuWait *)

Lemma CpuWait_eq (this : Fence) (fenceValue : Z) (e : Env) :
  CpuWait this fenceValue e =
  let v := if fenceValue =? UnspecifiedFenceValue
           then m_currentFenceValue this else fenceValue in
  if fence_value (gpu (queried this e)) (m_fence this) <? v
  then if FAILED (status (queried this e))
       then Fail (Threw (status (queried this e))) (registering this v e)
       else if event_set (gpu (sleeping this v e)) (m_fenceEvent this)
            then Ok tt (woken this v e)
            else Fail Blocked (sleeping this v e)
  else Ok tt (queried this e).
Proof.
  unfold CpuWait. cbv zeta.
  set (v := if fenceValue =? UnspecifiedFenceValue
            then m_currentFenceValue this else fenceValue).
  rewrite bind_eq, Fence_GetCompletedValue_eq.
  fold (queried this e). change (gpu (ticked e)) with (gpu (queried this e)).
  destruct (fence_value (gpu (queried this e)) (m_fence this) <? v); [|reflexivity].
  rewrite bind_eq, Fence_SetEventOnCompletion_eq, bind_eq, ThrowIfFailed_eq.
  fold (registering this v e).
  destruct (FAILED (status (queried this e))); [reflexivity|].
  rewrite bind_eq, WaitForSingleObjectEx_INFINITE_eq. cbv zeta.
  fold (sleeping this v e).
  destruct (event_set (gpu (sleeping this v e)) (m_fenceEvent this)); reflexivity.
Qed.

Lemma calls_queried (this : Fence) (e : Env) :
  calls (queried this e) = calls e ++ [CallGetCompletedValue (m_fence this)].
Proof. unfold queried. now env_simpl. Qed.

Lemma calls_registering (this : Fence) (v : Z) (e : Env) :
  calls (registering this v e) =
  calls e ++ [CallGetCompletedValue (m_fence this);
              CallSetEventOnCompletion (m_fence this) v (m_fenceEvent this)].
Proof.
  unfold registering. env_simpl. rewrite calls_queried, <- app_assoc. reflexivity.
Qed.

Lemma calls_sleeping (this : Fence) (v : Z) (e : Env) :
  calls (sleeping this v e) =
  calls e ++ [CallGetCompletedValue (m_fence this);
              CallSetEventOnCompletion (m_fence this) v (m_fenceEvent this);
              CallWaitForSingleObjectEx (m_fenceEvent this) INFINITE false].
Proof.
  unfold sleeping. env_simpl. rewrite calls_registering, <- app_assoc. reflexivity.
Qed.

(** C5 (as amended). For every value [v] other than 2^64 - 1: when the
    completed value that [GetCompletedValue] reports is at least [v],
    [CpuWait(v)] returns at once, having made no other call and registered
    nothing; otherwise it calls [SetEventOnCompletion] for [v] with the event
    of the fence and then [WaitForSingleObjectEx] on that event with
    [INFINITE], and returns only if the event has been set. *)
Theorem CpuWait_explicit (this : Fence) (v : Z) (e : Env)
    (Hv : v <> UnspecifiedFenceValue) :
  (v <= fence_value (gpu (queried this e)) (m_fence this) ->
   CpuWait this v e = Ok tt (queried this e) /\
   calls (queried this e) = calls e ++ [CallGetCompletedValue (m_fence this)] /\
   gpu (queried this e) = gpu (ticked e)) /\
  (fence_value (gpu (queried this e)) (m_fence this) < v ->
   FAILED (status (queried this e)) = false ->
   CpuWait this v e =
     (if event_set (gpu (sleeping this v e)) (m_fenceEvent this)
      then Ok tt (woken this v e) else Fail Blocked (sleeping this v e)) /\
   calls (env_of (CpuWait this v e)) =
     calls e ++ [CallGetCompletedValue (m_fence this);
                 CallSetEventOnCompletion (m_fence this) v (m_fenceEvent this);
                 CallWaitForSingleObjectEx (m_fenceEvent this) INFINITE false]) /\
  (fence_value (gpu (queried this e)) (m_fence this) < v ->
   FAILED (status (queried this e)) = true ->
   CpuWait this v e = Fail (Threw (status (queried this e))) (registering this v e)).
Proof.
  apply Z.eqb_neq in Hv.
  split; [|split].
  - intros Hge.
    assert (Hlt : (fence_value (gpu (queried this e)) (m_fence this) <? v) = false)
      by (apply Z.ltb_ge; assumption).
    split; [|split].
    + rewrite CpuWait_eq, Hv. cbv zeta. rewrite Hlt. reflexivity.
    + apply calls_queried.
    + reflexivity.
  - intros Hlt Hok. apply Z.ltb_lt in Hlt.
    rewrite CpuWait_eq, Hv. cbv zeta. rewrite Hlt, Hok. split; [reflexivity|].
    destruct (event_set (gpu (sleeping this v e)) (m_fenceEvent this));
      cbn [env_of]; [unfold woken; env_simpl|]; apply calls_sleeping.
  - intros Hlt Hbad. apply Z.ltb_lt in Hlt.
    rewrite CpuWait_eq, Hv. cbv zeta. rewrite Hlt, Hbad. reflexivity.
Qed.

Lemma CpuWait_explicit_witness :
  let this := {| m_fence := 1; m_queue := 0; m_currentFenceValue := 5; m_fenceEvent := 1 |} in
  let e := boot true [] in
  3 <> UnspecifiedFenceValue /\
  ((3 <= fence_value (gpu (queried this e)) (m_fence this) ->
    CpuWait this 3 e = Ok tt (queried this e) /\
    calls (queried this e) = calls e ++ [CallGetCompletedValue (m_fence this)] /\
    gpu (queried this e) = gpu (ticked e)) /\
   (fence_value (gpu (queried this e)) (m_fence this) < 3 ->
    FAILED (status (queried this e)) = false ->
    CpuWait this 3 e =
      (if event_set (gpu (sleeping this 3 e)) (m_fenceEvent this)
       then Ok tt (woken this 3 e) else Fail Blocked (sleeping this 3 e)) /\
    calls (env_of (CpuWait this 3 e)) =
      calls e ++ [CallGetCompletedValue (m_fence this);
                  CallSetEventOnCompletion (m_fence this) 3 (m_fenceEvent this);
                  CallWaitForSingleObjectEx (m_fenceEvent this) INFINITE false]) /\
   (fence_value (gpu (queried this e)) (m_fence this) < 3 ->
    FAILED (status (queried this e)) = true ->
    CpuWait this 3 e = Fail (Threw (status (queried this e))) (registering this 3 e))).
Proof.
  intros this e.
  assert (H : 3 <> UnspecifiedFenceValue) by discriminate.
  split; [exact H|]. exact (CpuWait_explicit this 3 e H).
Defined.

(** C5 as stated fails for the value 2^64 - 1: on a fence just constructed
    the completed value is 0, below the value asked for, and yet the call
    returns at once; no event is registered. *)
Lemma CpuWait_sentinel_counterexample :
  value_of ((fresh ← Fence_new 0;
             CpuWait fresh (arg (Some UINT64_MAX));;
             gets (fun e => (fence_value (gpu e) (m_fence fresh), calls e,
                             registrations (gpu e))))
              (boot true []))
  = Some (0, [CallQueryInterface 0; CallGetDevice 0; CallCreateFence 0;
              CallCreateEvent false false; CallGetCompletedValue 1], []) /\
  0 < UINT64_MAX.
Proof. split; [vm_compute; reflexivity | reflexivity]. Qed.

(** ** Next *)

Lemma wrap32_small (z : Z) : 0 <= z <= UINT_MAX -> wrap32 z = z.
Proof. unfold wrap32, UINT_MAX. intros H. apply Z.mod_small. lia. Qed.

Lemma Next_eq (this : LinearFence) (e : Env) :
  1 <= Z.of_nat (length (m_signalHistory this)) <= UINT_MAX ->
  0 <= m_signalIndex this < Z.of_nat (length (m_signalHistory this)) ->
  exists v,
    <[Z.to_nat (m_signalIndex this) := m_currentFenceValue (base this)]>
      (m_signalHistory this)
      !! Z.to_nat ((m_signalIndex this + 1) `mod` Z.of_nat (length (m_signalHistory this)))
    = Some v /\
    Next this e =
    match CpuWait (base this) v e with
    | Ok _ e' =>
        Ok {| base := base this;
              m_signalHistory :=
                <[Z.to_nat (m_signalIndex this) := m_currentFenceValue (base this)]>
                  (m_signalHistory this);
              m_signalIndex :=
                (m_signalIndex this + 1) `mod` Z.of_nat (length (m_signalHistory this)) |}
           e'
    | Fail err e' => Fail err e'
    end.
Proof.
  intros Hn Hidx.
  set (n := Z.of_nat (length (m_signalHistory this))) in *.
  set (history := <[Z.to_nat (m_signalIndex this) := m_currentFenceValue (base this)]>
                    (m_signalHistory this)).
  assert (Hlen : Z.of_nat (length history) = n)
    by (unfold history; rewrite length_insert; reflexivity).
  pose proof (Z.mod_pos_bound (m_signalIndex this + 1) n ltac:(lia)) as Hmod.
  destruct (history !! Z.to_nat ((m_signalIndex this + 1) `mod` n)) as [v|] eqn:Hv.
  2: { apply lookup_ge_None in Hv. lia. }
  exists v. split; [reflexivity|].
  unfold Next. rewrite bind_eq. unfold vec_store.
  assert (Hin : (0 <=? m_signalIndex this) && (m_signalIndex this <? n) = true).
  { apply andb_true_iff. split; [apply Z.leb_le|apply Z.ltb_lt]; lia. }
  fold n. rewrite Hin, ret_eq. fold history.
  rewrite bind_eq. unfold urem. rewrite Hlen.
  assert (Hnz : (n =? 0) = false) by (apply Z.eqb_neq; lia).
  rewrite Hnz, ret_eq.
  rewrite (wrap32_small (m_signalIndex this + 1)) by lia.
  rewrite (wrap32_small ((m_signalIndex this + 1) `mod` n)) by lia.
  rewrite bind_eq. unfold vec_load.
  assert (Hnn : (0 <=? (m_signalIndex this + 1) `mod` n) = true) by (apply Z.leb_le; lia).
  rewrite Hnn, Hv, ret_eq, bind_eq.
  destruct (CpuWait (base this) v e); reflexivity.
Qed.

(** ** A runtime with nothing pending *)

Lemma gpu_exec_quiet (q : nat) (g : Gpu) : quiet g -> gpu_exec q g = g.
Proof. intros H. unfold gpu_exec. rewrite (H q). reflexivity. Qed.

Lemma gpu_run_quiet (s : list nat) (g : Gpu) : quiet g -> gpu_run s g = g.
Proof.
  intros H. induction s as [|q s IH]; [reflexivity|].
  cbn [gpu_run fold_left]. rewrite gpu_exec_quiet by assumption. exact IH.
Qed.

Lemma ticked_quiet (e : Env) : quiet (gpu e) -> gpu (ticked e) = gpu e.
Proof. intros H. rewrite ticked_gpu. apply gpu_run_quiet, H. Qed.

Lemma LinearFence_new_Ok_inv (pQueue : nat) (count : Z) (e : Env)
    (this : LinearFence) (e' : Env) :
  LinearFence_new pQueue count e = Ok this e' ->
  exists b, Fence_new pQueue e = Ok b e' /\
            this = {| base := b; m_signalHistory := replicate (Z.to_nat count) 0;
                      m_signalIndex := 0 |}.
Proof.
  unfold LinearFence_new. intros H.
  apply bind_Ok_inv in H as (b & e1 & Hb & H).
  rewrite ret_eq in H. injection H as <- <-. eauto.
Qed.

(** With no signal ever submitted, [Next] finds every slot at 0 and the
    fence at 0: it asks for the completed value and returns. *)
Lemma Next_unsignalled (this : LinearFence) (e : Env) (n : nat) :
  quiet (gpu e) ->
  m_signalHistory this = replicate n 0 ->
  1 <= Z.of_nat n <= UINT_MAX ->
  0 <= m_signalIndex this < Z.of_nat n ->
  m_currentFenceValue (base this) = 0 ->
  fence_value (gpu e) (m_fence (base this)) = 0 ->
  exists this',
    Next this e = Ok this' (queried (base this) e) /\
    base this' = base this /\
    m_signalHistory this' = replicate n 0 /\
    0 <= m_signalIndex this' < Z.of_nat n.
Proof.
  intros Hq Hh Hn Hidx Hc Hf.
  assert (Hlen : length (m_signalHistory this) = n) by (rewrite Hh; apply length_replicate).
  destruct (Next_eq this e) as (v & Hv & HN); [rewrite Hlen; lia..|].
  rewrite Hlen in *. rewrite Hc in *.
  assert (Hins : <[Z.to_nat (m_signalIndex this) := 0]> (m_signalHistory this)
                 = replicate n 0).
  { rewrite Hh. apply list_insert_id. apply lookup_replicate_2. lia. }
  rewrite Hins in *.
  apply lookup_replicate in Hv as [-> _].
  rewrite CpuWait_eq in HN. cbv zeta in HN.
  change (0 =? UnspecifiedFenceValue) with false in HN. cbv iota in HN.
  assert (Hg : gpu (queried (base this) e) = gpu e)
    by (unfold queried; env_simpl; apply ticked_quiet, Hq).
  rewrite Hg, Hf in HN. change (0 <? 0) with false in HN. cbv iota in HN.
  eexists. split; [exact HN|]. cbn [base m_signalHistory m_signalIndex].
  repeat split; try apply Z.mod_pos_bound; lia.
Qed.

Lemma script_unsignalled (k : nat) : forall (this : LinearFence) (e : Env) (n : nat),
  quiet (gpu e) ->
  m_signalHistory this = replicate n 0 ->
  1 <= Z.of_nat n <= UINT_MAX ->
  0 <= m_signalIndex this < Z.of_nat n ->
  m_currentFenceValue (base this) = 0 ->
  fence_value (gpu e) (m_fence (base this)) = 0 ->
  exists final journal e',
    script (replicate k OpNext) this e = Ok (final, journal) e' /\
    calls e' = calls e ++ replicate k (CallGetCompletedValue (m_fence (base this))) /\
    gpu e' = gpu e.
Proof.
  induction k as [|k IH]; intros this e n Hq Hh Hn Hidx Hc Hf.
  - exists this, [], e. cbn. rewrite app_nil_r. auto.
  - destruct (Next_unsignalled this e n) as (this' & HN & Hb & Hh' & Hidx'); try assumption.
    assert (Hg : gpu (queried (base this) e) = gpu e)
      by (unfold queried; env_simpl; apply ticked_quiet, Hq).
    destruct (IH this' (queried (base this) e) n) as (final & journal & e' & Hs & Hcalls & Hg');
      try assumption; rewrite ?Hb, ?Hg; try assumption.
    exists final, ((OpNext, m_currentFenceValue (base this)) :: journal), e'.
    split; [|split].
    + cbn [replicate script perform]. rewrite bind_eq, HN, bind_eq, Hs. reflexivity.
    + rewrite Hcalls, Hb, calls_queried, <- app_assoc. reflexivity.
    + rewrite Hg', Hg. reflexivity.
Qed.

(** ** The ring of LinearFence *)

Lemma mod_differ (n i k : nat) : (i < k < i + n)%nat -> (i mod n)%nat <> (k mod n)%nat.
Proof.
  intros H Heq.
  assert (Hn : n <> O) by lia.
  pose proof (Nat.div_mod_eq i n) as Hi. pose proof (Nat.div_mod_eq k n) as Hk.
  assert (Hd : (k - i = n * (k / n - i / n))%nat) by nia.
  destruct (k / n - i / n)%nat as [|d] eqn:Hq; nia.
Qed.

Lemma next_index (n k : nat) :
  n <> O ->
  (Z.of_nat (k mod n) + 1) `mod` Z.of_nat n = Z.of_nat ((k + 1) mod n).
Proof.
  intros Hn.
  rewrite !Nat2Z.inj_mod, Nat2Z.inj_add.
  rewrite Z.add_mod_idemp_l by lia. reflexivity.
Qed.

Lemma Ring_new (count : Z) (b : Fence) :
  Ring (Z.to_nat count) []
       {| base := b; m_signalHistory := replicate (Z.to_nat count) 0; m_signalIndex := 0 |}.
Proof.
  unfold Ring. cbn [m_signalHistory m_signalIndex length].
  repeat split.
  - apply length_replicate.
  - rewrite Nat.Div0.mod_0_l. reflexivity.
  - intros i v Hi. discriminate.
  - intros s Hs. apply lookup_replicate_2. lia.
Qed.

(** The ring after one more call: the counter goes into the slot of this
    call, and the slot the next call will use holds the value stored [n]
    calls before that next call, or [0] if it has not been written. *)
Lemma Ring_advance (n : nat) (seen : list Z) (this : LinearFence) :
  n <> O ->
  Ring n seen this ->
  Ring n (seen ++ [m_currentFenceValue (base this)])
       {| base := base this;
          m_signalHistory :=
            <[(length seen mod n)%nat := m_currentFenceValue (base this)]>
              (m_signalHistory this);
          m_signalIndex := Z.of_nat ((length seen + 1) mod n) |} /\
  forall v,
    <[(length seen mod n)%nat := m_currentFenceValue (base this)]> (m_signalHistory this)
      !! ((length seen + 1) mod n)%nat = Some v ->
    if (n <=? length seen + 1)%nat
    then (seen ++ [m_currentFenceValue (base this)]) !! (length seen + 1 - n)%nat = Some v
    else v = 0.
Proof.
  intros Hn0 (Hlen & Hidx & Hslots & Hzero).
  set (k := length seen) in *. set (c := m_currentFenceValue (base this)) in *.
  assert (Hk : (k mod n < n)%nat) by (apply Nat.mod_upper_bound; assumption).
  assert (Hslots' : forall i w, (seen ++ [c]) !! i = Some w -> (k + 1 <= i + n)%nat ->
                      <[(k mod n)%nat := c]> (m_signalHistory this) !! (i mod n)%nat = Some w).
  { intros i w Hi Hrange.
    destruct (decide (i = k)) as [->|Hne].
    - rewrite lookup_app_r in Hi by (fold k; lia).
      fold k in Hi. rewrite Nat.sub_diag in Hi. injection Hi as <-.
      apply list_lookup_insert_eq. lia.
    - assert (Hik : (i < k)%nat).
      { apply lookup_lt_Some in Hi. rewrite length_app in Hi. cbn in Hi. fold k in Hi. lia. }
      rewrite lookup_app_l in Hi by (fold k; lia).
      rewrite list_lookup_insert_ne by (apply not_eq_sym, mod_differ; lia).
      apply Hslots; [assumption|lia]. }
  split.
  - unfold Ring. cbn [m_signalHistory m_signalIndex].
    rewrite length_app, length_insert. cbn [length]. fold k.
    repeat split; try assumption.
    intros s Hs. rewrite list_lookup_insert_ne.
    + apply Hzero. lia.
    + rewrite Nat.mod_small by lia. lia.
  - intros v Hv.
    destruct (n <=? k + 1)%nat eqn:Hcmp.
    + apply Nat.leb_le in Hcmp.
      destruct ((seen ++ [c]) !! (k + 1 - n)%nat) as [w|] eqn:Hw.
      * specialize (Hslots' _ _ Hw ltac:(lia)).
        replace ((k + 1 - n) mod n)%nat with ((k + 1) mod n)%nat in Hslots'.
        -- congruence.
        -- replace (k + 1)%nat with ((k + 1 - n) + 1 * n)%nat at 1 by lia.
           apply Nat.Div0.mod_add.
      * apply lookup_ge_None in Hw. rewrite length_app in Hw. cbn in Hw. fold k in Hw. lia.
    + apply Nat.leb_gt in Hcmp.
      rewrite list_lookup_insert_ne in Hv
        by (rewrite !Nat.mod_small by lia; lia).
      rewrite Hzero in Hv by (rewrite Nat.mod_small by lia; lia). congruence.
Qed.

(** [Next] in the terms of the ring. *)
Lemma Ring_Next_eq (n : nat) (seen : list Z) (this : LinearFence) (e : Env) :
  1 <= Z.of_nat n <= UINT_MAX ->
  Ring n seen this ->
  exists v,
    <[(length seen mod n)%nat := m_currentFenceValue (base this)]> (m_signalHistory this)
      !! ((length seen + 1) mod n)%nat = Some v /\
    Next this e =
    match CpuWait (base this) v e with
    | Ok _ e' =>
        Ok {| base := base this;
              m_signalHistory :=
                <[(length seen mod n)%nat := m_currentFenceValue (base this)]>
                  (m_signalHistory this);
              m_signalIndex := Z.of_nat ((length seen + 1) mod n) |} e'
    | Fail err e' => Fail err e'
    end.
Proof.
  intros Hn Hring. pose proof Hring as (Hlen & Hidx & _ & _).
  assert (Hn0 : n <> O) by lia.
  assert (Hk : (length seen mod n < n)%nat) by (apply Nat.mod_upper_bound; assumption).
  destruct (Next_eq this e) as (v & Hv & HN); [rewrite Hlen; lia..|].
  rewrite Hlen, Hidx, Nat2Z.id in *.
  rewrite next_index in * by assumption. rewrite Nat2Z.id in Hv.
  exists v. split; assumption.
Qed.

Lemma Ring_Next (n : nat) (seen : list Z) (this this' : LinearFence) (e e' : Env) :
  1 <= Z.of_nat n <= UINT_MAX ->
  Ring n seen this ->
  Next this e = Ok this' e' ->
  Ring n (seen ++ [m_currentFenceValue (base this)]) this' /\
  base this' = base this /\
  exists v,
    CpuWait (base this) v e = Ok tt e' /\
    (if (n <=? length seen + 1)%nat
     then (seen ++ [m_currentFenceValue (base this)]) !! (length seen + 1 - n)%nat = Some v
     else v = 0).
Proof.
  intros Hn Hring HN.
  destruct (Ring_Next_eq n seen this e Hn Hring) as (v & Hv & HN').
  destruct (Ring_advance n seen this ltac:(lia) Hring) as (Hring' & Hslot).
  rewrite HN in HN'.
  destruct (CpuWait (base this) v e) as [[] e1|err e1] eqn:HW; [|discriminate].
  injection HN' as -> ->. split; [exact Hring'|]. split; [reflexivity|].
  exists v. split; [exact HW|]. apply Hslot, Hv.
Qed.

Lemma fresh_LinearFence_quiet (pQueue : nat) (count : Z) (debug : bool)
    (t : list (list nat * Z)) (this : LinearFence) (e : Env) :
  LinearFence_new pQueue count (boot debug t) = Ok this e ->
  this = {| base := {| m_fence := 1; m_queue := pQueue;
                       m_currentFenceValue := 0; m_fenceEvent := 1 |};
            m_signalHistory := replicate (Z.to_nat count) 0; m_signalIndex := 0 |} /\
  quiet (gpu e) /\
  fence_value (gpu e) 1 = 0 /\
  calls e = [CallQueryInterface pQueue; CallGetDevice pQueue;
             CallCreateFence 0; CallCreateEvent false false].
Proof.
  intros H. apply LinearFence_new_Ok_inv in H as (b & Hb & ->).
  pose proof (Fence_new_cases pQueue (boot debug t)) as HN. rewrite Hb in HN.
  destruct HN as (-> & _ & _ & _ & Hcalls & s & s' & Hg).
  cbn [fences_made events_made boot gpu calls app] in *.
  rewrite (gpu_run_quiet s idle_gpu) in Hg by (intros q; reflexivity).
  rewrite gpu_run_quiet in Hg by (intros q; reflexivity).
  repeat split; try assumption.
  - rewrite Hg. intros q. reflexivity.
  - rewrite Hg. reflexivity.
Qed.

(** ** No access outside the ring *)

Lemma Signal_Fail_inv (this : Fence) (value : Z) (e : Env) (err : Error) (e' : Env) :
  Signal this value e = Fail err e' -> err = AssertFailed \/ exists hr, err = Threw hr.
Proof.
  rewrite Signal_eq. cbv zeta.
  destruct (_ && _ && _); [intros H; injection H as <- _; auto|].
  destruct (FAILED (status e)); [|discriminate].
  intros H; injection H as <- _; eauto.
Qed.

Lemma CpuWait_Fail_inv (this : Fence) (value : Z) (e : Env) (err : Error) (e' : Env) :
  CpuWait this value e = Fail err e' -> err = Blocked \/ exists hr, err = Threw hr.
Proof.
  rewrite CpuWait_eq. cbv zeta.
  destruct (_ <? _); [|discriminate].
  destruct (FAILED _); [intros H; injection H as <- _; eauto|].
  destruct (event_set _ _); [discriminate|].
  intros H; injection H as <- _; auto.
Qed.

Lemma GpuWait_static_eq (pQueue : nat) (pFence : Fence) (value : Z) (e : Env) :
  GpuWait_static pQueue pFence value e =
  let v := if value =? UnspecifiedFenceValue
           then m_currentFenceValue pFence else value in
  let c := CallQueueWait pQueue (m_fence pFence) v in
  if FAILED (status e) then Fail (Threw (status e)) (logged c (ticked e))
  else Ok tt (with_gpu (enqueue pQueue (CmdWait (m_fence pFence) v) (gpu (ticked e)))
                       (logged c (ticked e))).
Proof.
  unfold GpuWait_static. cbv zeta.
  rewrite bind_eq, Queue_Wait_eq, ThrowIfFailed_eq.
  destruct (FAILED (status e)); reflexivity.
Qed.

Lemma GpuWait_static_Fail_inv (pQueue : nat) (pFence : Fence) (value : Z)
    (e : Env) (err : Error) (e' : Env) :
  GpuWait_static pQueue pFence value e = Fail err e' -> exists hr, err = Threw hr.
Proof.
  rewrite GpuWait_static_eq. cbv zeta.
  destruct (FAILED (status e)); [|discriminate].
  intros H; injection H as <- _; eauto.
Qed.

(** The errors that come out of the runtime and the assertion, as opposed to
    undefined behaviour of the code itself. *)
Lemma perform_Fail_inv (n : nat) (seen : list Z) (op : Op) (this : LinearFence)
    (e : Env) (err : Error) (e' : Env) :
  1 <= Z.of_nat n <= UINT_MAX ->
  Ring n seen this ->
  perform op this e = Fail err e' ->
  err <> OutOfBounds /\ err <> DivByZero.
Proof.
  intros Hn Hring.
  assert (Hok : forall x, x = AssertFailed \/ x = Blocked \/ (exists hr, x = Threw hr) ->
                          x <> OutOfBounds /\ x <> DivByZero).
  { intros x [->|[->|[hr ->]]]; split; discriminate. }
  destruct op as [value|value|value| | |q tag]; cbn [perform]; rewrite ?bind_eq.
  - destruct (Signal _ _ e) eqn:HS; [rewrite ret_eq; discriminate|].
    intros H; injection H as <- _. apply Hok.
    apply Signal_Fail_inv in HS as [->|H]; auto.
  - unfold GpuWait. destruct (GpuWait_static _ _ _ e) eqn:HS; [rewrite ret_eq; discriminate|].
    intros H; injection H as <- _. apply Hok.
    apply GpuWait_static_Fail_inv in HS; auto.
  - destruct (CpuWait _ _ e) eqn:HS; [rewrite ret_eq; discriminate|].
    intros H; injection H as <- _. apply Hok.
    apply CpuWait_Fail_inv in HS as [->|H]; auto.
  - unfold FlushGpuQueue. rewrite bind_eq.
    destruct (Signal _ _ e) as [b e1|err1 e1] eqn:HS.
    + rewrite bind_eq. destruct (CpuWait _ _ e1) eqn:HW; [rewrite !ret_eq; discriminate|].
      intros H; injection H as <- _. apply Hok.
      apply CpuWait_Fail_inv in HW as [->|H]; auto.
    + intros H; injection H as <- _. apply Hok.
      apply Signal_Fail_inv in HS as [->|H]; auto.
  - destruct (Ring_Next_eq n seen this e Hn Hring) as (v & _ & ->).
    destruct (CpuWait _ _ e) eqn:HW; [discriminate|].
    intros H; injection H as <- _. apply Hok.
    apply CpuWait_Fail_inv in HW as [->|H]; auto.
  - rewrite Queue_Submit_eq, ret_eq. discriminate.
Qed.

Lemma perform_Ring (n : nat) (seen : list Z) (op : Op) (this this' : LinearFence)
    (e e' : Env) :
  1 <= Z.of_nat n <= UINT_MAX ->
  Ring n seen this ->
  perform op this e = Ok this' e' ->
  Ring n (seen ++ match op with
                  | OpNext => [m_currentFenceValue (base this)]
                  | _ => []
                  end) this'.
Proof.
  intros Hn Hring.
  destruct op as [value|value|value| | |q tag]; cbn [perform]; rewrite ?app_nil_r; intros H.
  - apply bind_Ok_inv in H as (b & e1 & _ & H). rewrite ret_eq in H.
    injection H as <- _. exact Hring.
  - apply bind_Ok_inv in H as (b & e1 & _ & H). rewrite ret_eq in H.
    injection H as <- _. exact Hring.
  - apply bind_Ok_inv in H as (b & e1 & _ & H). rewrite ret_eq in H.
    injection H as <- _. exact Hring.
  - apply bind_Ok_inv in H as (b & e1 & _ & H). rewrite ret_eq in H.
    injection H as <- _. exact Hring.
  - apply (Ring_Next n seen this this' e e' Hn Hring H).
  - apply bind_Ok_inv in H as (b & e1 & _ & H). rewrite ret_eq in H.
    injection H as <- _. exact Hring.
Qed.

Lemma script_Ring (n : nat) (ops : list Op) :
  forall (seen : list Z) (this : LinearFence) (e : Env),
  1 <= Z.of_nat n <= UINT_MAX ->
  Ring n seen this ->
  match script ops this e with
  | Ok (final, journal) _ => Ring n (seen ++ recorded journal) final
  | Fail err _ => err <> OutOfBounds /\ err <> DivByZero
  end.
Proof.
  induction ops as [|op ops IH]; intros seen this e Hn Hring.
  - cbn. rewrite app_nil_r. exact Hring.
  - cbn [script]. rewrite bind_eq.
    destruct (perform op this e) as [this' e'|err e'] eqn:Hop.
    + pose proof (perform_Ring n seen op this this' e e' Hn Hring Hop) as Hring'.
      specialize (IH _ this' e' Hn Hring'). rewrite bind_eq.
      destruct (script ops this' e') as [[final journal] e''|err e'']; [|exact IH].
      rewrite ret_eq. cbn [recorded omap fst snd].
      destruct op; cbn [recorded omap] in *; fold (recorded journal);
        rewrite ?app_nil_r, <- ?app_assoc in IH; exact IH.
    + apply (perform_Fail_inv n seen op this e err e' Hn Hring Hop).
Qed.

Lemma Next_empty (this : LinearFence) (e : Env) :
  m_signalHistory this = [] -> Next this e = Fail OutOfBounds e.
Proof.
  intros Hh. unfold Next. rewrite bind_eq. unfold vec_store. rewrite Hh.
  change (Z.of_nat (length [])) with 0.
  assert (Hout : (0 <=? m_signalIndex this) && (m_signalIndex this <? 0) = false).
  { apply andb_false_iff.
    destruct (Z_lt_le_dec (m_signalIndex this) 0);
      [left; apply Z.leb_gt|right; apply Z.ltb_ge]; assumption. }
  rewrite Hout. reflexivity.
Qed.

Lemma script_empty (ops : list Op) :
  forall (this final : LinearFence) (journal : list (Op * Z)) (e e' : Env),
  m_signalHistory this = [] ->
  script ops this e = Ok (final, journal) e' ->
  m_signalHistory final = [].
Proof.
  induction ops as [|op ops IH]; intros this final journal e e' Hh Hrun; cbn [script] in Hrun.
  - rewrite ret_eq in Hrun. injection Hrun as <- _ _. exact Hh.
  - apply bind_Ok_inv in Hrun as (this1 & e1 & Hop & Hrun).
    apply bind_Ok_inv in Hrun as ([final' journal'] & e2 & Hrest & Hrun).
    rewrite ret_eq in Hrun. injection Hrun as <- _ _.
    apply (IH this1 final' journal' e1 e2); [|exact Hrest].
    destruct op as [value|value|value| | |q tag]; cbn [perform] in Hop.
    + apply bind_Ok_inv in Hop as (b & e3 & _ & H). rewrite ret_eq in H.
      injection H as <- _. exact Hh.
    + apply bind_Ok_inv in Hop as (b & e3 & _ & H). rewrite ret_eq in H.
      injection H as <- _. exact Hh.
    + apply bind_Ok_inv in Hop as (b & e3 & _ & H). rewrite ret_eq in H.
      injection H as <- _. exact Hh.
    + apply bind_Ok_inv in Hop as (b & e3 & _ & H). rewrite ret_eq in H.
      injection H as <- _. exact Hh.
    + rewrite Next_empty in Hop by assumption. discriminate.
    + apply bind_Ok_inv in Hop as (b & e3 & _ & H). rewrite ret_eq in H.
      injection H as <- _. exact Hh.
Qed.

(** C10. A LinearFence constructed with capacity [count >= 1] keeps, through
    any run of calls, as many slots as it was given and a cursor below that
    number, so that the store and the load of the next [Next] are inside the
    vector, and no call ends in an access outside it or a remainder by zero.
    With [count = 0] the first [Next] stores outside the (empty) vector, and
    its remainder is taken by zero. *)
Theorem ring_in_bounds (pQueue : nat) (count : Z) (e0 : Env)
    (fresh : LinearFence) (e1 : Env)
    (Hcount : 0 <= count <= UINT_MAX)
    (Hnew : LinearFence_new pQueue count e0 = Ok fresh e1) :
  (1 <= count ->
   forall ops : list Op,
     match script ops fresh e1 with
     | Ok (this, _) e =>
         Z.of_nat (length (m_signalHistory this)) = count /\
         0 <= m_signalIndex this < count /\
         exists history v,
           vec_store (m_signalHistory this) (m_signalIndex this)
                     (m_currentFenceValue (base this)) e = Ok history e /\
           urem (wrap32 (m_signalIndex this + 1)) (Z.of_nat (length history)) e
             = Ok ((m_signalIndex this + 1) `mod` count) e /\
           vec_load history (wrap32 ((m_signalIndex this + 1) `mod` count)) e = Ok v e
     | Fail err _ => err <> OutOfBounds /\ err <> DivByZero
     end) /\
  (count = 0 ->
   Next fresh e1 = Fail OutOfBounds e1 /\
   vec_store (m_signalHistory fresh) (m_signalIndex fresh)
             (m_currentFenceValue (base fresh)) e1 = Fail OutOfBounds e1 /\
   urem (wrap32 (m_signalIndex fresh + 1))
        (Z.of_nat (length (m_signalHistory fresh))) e1 = Fail DivByZero e1).
Proof.
  apply LinearFence_new_Ok_inv in Hnew as (b & _ & ->).
  split.
  - intros Hpos ops.
    assert (Hn : 1 <= Z.of_nat (Z.to_nat count) <= UINT_MAX) by lia.
    pose proof (script_Ring (Z.to_nat count) ops [] _ e1 Hn (Ring_new count b)) as HS.
    destruct (script ops _ e1) as [[this journal] e|err e]; [|exact HS].
    destruct HS as (Hlen & Hidx & _ & _).
    set (k := length ([] ++ recorded journal)) in *.
    assert (Hk : (k mod Z.to_nat count < Z.to_nat count)%nat)
      by (apply Nat.mod_upper_bound; lia).
    assert (Hi : 0 <= m_signalIndex this < count) by lia.
    split; [lia|]. split; [exact Hi|].
    pose proof (Z.mod_pos_bound (m_signalIndex this + 1) count ltac:(lia)) as Hmod.
    set (history := <[Z.to_nat (m_signalIndex this) := m_currentFenceValue (base this)]>
                      (m_signalHistory this)).
    assert (Hlen' : Z.of_nat (length history) = count)
      by (unfold history; rewrite length_insert; lia).
    destruct (history !! Z.to_nat ((m_signalIndex this + 1) `mod` count)) as [v|] eqn:Hv.
    2: { apply lookup_ge_None in Hv. lia. }
    exists history, v. split; [|split].
    + unfold vec_store.
      assert (Hin : (0 <=? m_signalIndex this)
                    && (m_signalIndex this <? Z.of_nat (length (m_signalHistory this)))
                    = true).
      { apply andb_true_iff. split; [apply Z.leb_le|apply Z.ltb_lt]; lia. }
      rewrite Hin. reflexivity.
    + unfold urem. rewrite Hlen'.
      assert (Hnz : (count =? 0) = false) by (apply Z.eqb_neq; lia).
      rewrite Hnz, wrap32_small by lia. reflexivity.
    + unfold vec_load. rewrite wrap32_small by lia.
      assert (Hnn : (0 <=? (m_signalIndex this + 1) `mod` count) = true)
        by (apply Z.leb_le; lia).
      rewrite Hnn, Hv. reflexivity.
  - intros ->. repeat split.
Qed.

Lemma ring_in_bounds_witness :
  let fresh := {| base := {| m_fence := 1; m_queue := 0;
                             m_currentFenceValue := 0; m_fenceEvent := 1 |};
                  m_signalHistory := [0; 0; 0]; m_signalIndex := 0 |} in
  let e1 := env_of (LinearFence_new 0 3 (boot true [])) in
  (0 <= 3 <= UINT_MAX /\ LinearFence_new 0 3 (boot true []) = Ok fresh e1) /\
  match script [OpNext; OpSignal None; OpNext] fresh e1 with
  | Ok (this, _) e =>
      Z.of_nat (length (m_signalHistory this)) = 3 /\ 0 <= m_signalIndex this < 3
  | Fail err _ => err <> OutOfBounds /\ err <> DivByZero
  end.
Proof.
  intros fresh e1.
  assert (H1 : 0 <= 3 <= UINT_MAX) by (unfold UINT_MAX; lia).
  assert (H2 : LinearFence_new 0 3 (boot true []) = Ok fresh e1)
    by (vm_compute; reflexivity).
  split; [split; assumption|].
  destruct (ring_in_bounds 0 3 (boot true []) fresh e1 H1 H2) as [Hin _].
  specialize (Hin ltac:(lia) [OpNext; OpSignal None; OpNext]).
  destruct (script [OpNext; OpSignal None; OpNext] fresh e1) as [[this journal] e|err e].
  - destruct Hin as (Hlen & Hidx & _). split; assumption.
  - exact Hin.
Defined.

(** ** GpuWait and the order of execution *)

Lemma gpu_run_steps (s : list nat) (g : Gpu) : rtc gpu_step g (gpu_run s g).
Proof.
  revert g. induction s as [|q s IH]; intros g; [apply rtc_refl|].
  cbn [gpu_run fold_left]. eapply rtc_l; [apply step_exec|apply IH].
Qed.

Lemma ticked_steps (e : Env) : rtc gpu_step (gpu e) (gpu (ticked e)).
Proof. rewrite ticked_gpu. apply gpu_run_steps. Qed.

(** Every call of the fence classes, and so every run of calls, moves the
    runtime by steps of [gpu_step]. *)
Lemma Signal_steps (this : Fence) (value : Z) (e : Env) :
  rtc gpu_step (gpu e) (gpu (env_of (Signal this value e))).
Proof.
  rewrite Signal_eq. cbv zeta.
  destruct (_ && _ && _); [apply rtc_refl|].
  destruct (FAILED (status e)); cbn [env_of]; env_simpl.
  - apply ticked_steps.
  - eapply rtc_r; [apply ticked_steps|apply step_enqueue].
Qed.

Lemma GpuWait_static_steps (pQueue : nat) (pFence : Fence) (value : Z) (e : Env) :
  rtc gpu_step (gpu e) (gpu (env_of (GpuWait_static pQueue pFence value e))).
Proof.
  rewrite GpuWait_static_eq. cbv zeta.
  destruct (FAILED (status e)); cbn [env_of]; env_simpl.
  - apply ticked_steps.
  - eapply rtc_r; [apply ticked_steps|apply step_enqueue].
Qed.

Lemma CpuWait_steps (this : Fence) (value : Z) (e : Env) :
  rtc gpu_step (gpu e) (gpu (env_of (CpuWait this value e))).
Proof.
  rewrite CpuWait_eq. cbv zeta.
  set (v := if value =? UnspecifiedFenceValue then m_currentFenceValue this else value).
  assert (H1 : rtc gpu_step (gpu e) (gpu (queried this e)))
    by (unfold queried; env_simpl; apply ticked_steps).
  assert (H2 : rtc gpu_step (gpu e) (gpu (registering this v e))).
  { unfold registering. env_simpl. eapply rtc_trans; [exact H1|apply ticked_steps]. }
  assert (H3 : rtc gpu_step (gpu e) (gpu (sleeping this v e))).
  { unfold sleeping. env_simpl. eapply rtc_trans; [|apply ticked_steps]. env_simpl.
    eapply rtc_r; [|apply step_register].
    unfold registering in H2. autorewrite with env in H2. exact H2. }
  destruct (_ <? _); [|exact H1].
  destruct (FAILED _); [exact H2|].
  destruct (event_set _ _); cbn [env_of]; [|exact H3].
  unfold woken. env_simpl. eapply rtc_r; [exact H3|apply step_event].
Qed.

Lemma bind_moves {A B : Type} (m : M A) (k : A -> M B) (e : Env) :
  rtc gpu_step (gpu e) (gpu (env_of (m e))) ->
  (forall a e', m e = Ok a e' -> rtc gpu_step (gpu e') (gpu (env_of (k a e')))) ->
  rtc gpu_step (gpu e) (gpu (env_of ((m ≫= k) e))).
Proof.
  intros Hm Hk. rewrite bind_eq. destruct (m e) as [a e'|err e']; [|exact Hm].
  eapply rtc_trans; [exact Hm|]. apply Hk. reflexivity.
Qed.

Lemma perform_moves (op : Op) (this : LinearFence) (e : Env) :
  rtc gpu_step (gpu e) (gpu (env_of (perform op this e))).
Proof.
  destruct op as [value|value|value| | |q tag]; cbn [perform].
  - apply bind_moves; [apply Signal_steps|]. intros; apply rtc_refl.
  - apply bind_moves; [apply GpuWait_static_steps|]. intros; apply rtc_refl.
  - apply bind_moves; [apply CpuWait_steps|]. intros; apply rtc_refl.
  - apply bind_moves; [|intros; apply rtc_refl].
    unfold FlushGpuQueue. apply bind_moves; [apply Signal_steps|].
    intros a e' _. apply bind_moves; [apply CpuWait_steps|]. intros; apply rtc_refl.
  - unfold Next. apply bind_moves.
    { unfold vec_store. destruct (_ && _); apply rtc_refl. }
    intros history e1 H1.
    assert (e1 = e) as ->.
    { unfold vec_store in H1. destruct (_ && _) in H1; [|discriminate].
      rewrite ret_eq in H1. congruence. }
    clear H1. apply bind_moves.
    { unfold urem. destruct (_ =? 0); apply rtc_refl. }
    intros r e1 H1. unfold urem in H1. destruct (_ =? 0) in H1; [discriminate|].
    rewrite ret_eq in H1. injection H1 as _ <-.
    apply bind_moves.
    { unfold vec_load. destruct (0 <=? _); [|apply rtc_refl].
      destruct (_ !! _); apply rtc_refl. }
    intros v e1 H1. unfold vec_load in H1. destruct (0 <=? _) in H1; [|discriminate].
    destruct (_ !! _) in H1; [|discriminate]. rewrite ret_eq in H1. injection H1 as _ <-.
    apply bind_moves; [apply CpuWait_steps|]. intros; apply rtc_refl.
  - apply bind_moves; [|intros; apply rtc_refl].
    rewrite Queue_Submit_eq. cbn [env_of]. env_simpl.
    eapply rtc_r; [apply ticked_steps|apply step_enqueue].
Qed.

Lemma script_moves (ops : list Op) : forall (this : LinearFence) (e : Env),
  rtc gpu_step (gpu e) (gpu (env_of (script ops this e))).
Proof.
  induction ops as [|op ops IH]; intros this e; cbn [script]; [apply rtc_refl|].
  apply bind_moves; [apply perform_moves|]. intros this' e' _.
  apply bind_moves; [apply IH|]. intros [final journal] e'' _. apply rtc_refl.
Qed.

Lemma queue_step_other (q : nat) (g g' : Gpu) (pos : nat) (c : Cmd) :
  gpu_step g g' ->
  (retired g q <= pos)%nat ->
  queue g q !! (pos - retired g q)%nat = Some c ->
  ((retired g' q <= pos)%nat /\ queue g' q !! (pos - retired g' q)%nat = Some c) \/
  ((retired g q = pos)%nat /\ queue g q !! O = Some c /\ g' = gpu_exec q g /\
   retired g' q = S pos).
Proof.
  intros Hstep Hle Hat.
  destruct Hstep as [q' g|q' c' g|f v h g|h b g|f v g]; try (left; split; assumption).
  - destruct (decide (q' = q)) as [->|Hne].
    + unfold gpu_exec. destruct (queue g q) as [|c0 rest] eqn:Hq;
        [rewrite lookup_nil in Hat; discriminate|].
      assert (Hret : forall g0, queue g0 q = c0 :: rest -> retired g0 q = retired g q ->
                 ((retired (retire q rest g0) q <= pos)%nat /\
                  queue (retire q rest g0) q !! (pos - retired (retire q rest g0) q)%nat
                  = Some c) \/
                 ((retired g q = pos)%nat /\ (c0 :: rest) !! O = Some c /\
                  retired (retire q rest g0) q = S pos)).
      { intros g0 Hq0 Hr0. cbn [retire retired queue]. rewrite !fn_lookup_insert, Hr0.
        destruct (decide (retired g q = pos)) as [Heq|Hneq].
        - right. rewrite Heq, Nat.sub_diag in Hat. rewrite Heq. auto.
        - left. split; [lia|].
          replace (pos - retired g q)%nat with (S (pos - S (retired g q)))%nat in Hat by lia.
          exact Hat. }
      destruct c0 as [f v|f v|tag].
      * destruct (Hret (signal_fence f v g) Hq eq_refl) as [H|(H1 & H2 & H3)]; [left; exact H|].
        right. repeat split; assumption.
      * destruct (fence_value g f <? v); [left; rewrite Hq; auto|].
        destruct (Hret g Hq eq_refl) as [H|(H1 & H2 & H3)]; [left; exact H|].
        right. repeat split; assumption.
      * destruct (Hret g Hq eq_refl) as [H|(H1 & H2 & H3)]; [left; exact H|].
        right. repeat split; assumption.
    + left. unfold gpu_exec. destruct (queue g q') as [|c0 rest]; [auto|].
      destruct c0 as [f v|f v|tag]; try destruct (fence_value g f <? v);
        cbn [retire signal_fence retired queue];
        rewrite ?fn_lookup_insert_ne by assumption; auto.
  - left. cbn [enqueue retired queue]. split; [assumption|].
    destruct (decide (q' = q)) as [->|Hne].
    + rewrite fn_lookup_insert. apply lookup_app_l_Some. exact Hat.
    + rewrite fn_lookup_insert_ne by assumption. exact Hat.
Qed.

(** A wait at place [p0] of queue [q] either is still pending, or the fence
    had reached the value at some moment when the wait had not retired. *)
Lemma wait_blocks (q p0 f : nat) (v : Z) (g0 : Gpu) :
  (retired g0 q <= p0)%nat ->
  queue g0 q !! (p0 - retired g0 q)%nat = Some (CmdWait f v) ->
  forall g, rtc gpu_step g0 g ->
    ((retired g q <= p0)%nat /\
     queue g q !! (p0 - retired g q)%nat = Some (CmdWait f v)) \/
    exists g_mid, rtc gpu_step g0 g_mid /\ rtc gpu_step g_mid g /\
                  v <= fence_value g_mid f /\ (retired g_mid q <= p0)%nat.
Proof.
  intros Hle Hat.
  apply (rtc_ind_r (fun g =>
    ((retired g q <= p0)%nat /\
     queue g q !! (p0 - retired g q)%nat = Some (CmdWait f v)) \/
    exists g_mid, rtc gpu_step g0 g_mid /\ rtc gpu_step g_mid g /\
                  v <= fence_value g_mid f /\ (retired g_mid q <= p0)%nat) g0);
    [left; auto|].
  intros g g' Hreach Hstep IH.
  destruct IH as [[Hle' Hat']|(g_mid & H1 & H2 & H3 & H4)].
  - destruct (queue_step_other q g g' p0 _ Hstep Hle' Hat')
      as [Hstill|(Hpos & Hhead & -> & Hret)]; [left; exact Hstill|].
    right. exists g. split; [exact Hreach|]. split; [apply rtc_once, step_exec|].
    split; [|lia].
    unfold gpu_exec in Hret. destruct (queue g q) as [|c rest]; [discriminate|].
    cbn in Hhead. injection Hhead as ->.
    destruct (fence_value g f <? v) eqn:Hlt; [lia|].
    apply Z.ltb_ge in Hlt. exact Hlt.
  - right. exists g_mid. split; [exact H1|]. split; [|auto].
    eapply rtc_r; eassumption.
Qed.

(** C8. The static [GpuWait] calls [Wait] on [pQueue] for the native fence of
    [pFence], at the value given or at the counter of [pFence] when the value
    is the reserved one; the wait becomes the newest command of the queue;
    and whatever the runtime does afterwards, a command at a later place of
    that queue retires only after a moment at which the fence held at least
    that value while the command had not retired. The method [GpuWait] is the
    static one on the queue of the fence. *)
Theorem GpuWait_static_orders (pQueue : nat) (pFence : Fence) (value : Z) (e e' : Env)
    (Hrun : GpuWait_static pQueue pFence value e = Ok tt e') :
  let v := if value =? UnspecifiedFenceValue
           then m_currentFenceValue pFence else value in
  calls e' = calls e ++ [CallQueueWait pQueue (m_fence pFence) v] /\
  queue (gpu e') pQueue = queue (gpu (ticked e)) pQueue ++ [CmdWait (m_fence pFence) v] /\
  (forall (g : Gpu) (pos : nat),
     rtc gpu_step (gpu e') g ->
     (last_position pQueue (gpu e') < pos)%nat ->
     retired_at pQueue pos g ->
     exists g_mid,
       rtc gpu_step (gpu e') g_mid /\ rtc gpu_step g_mid g /\
       v <= fence_value g_mid (m_fence pFence) /\
       ~ retired_at pQueue pos g_mid) /\
  forall (this : Fence) (value' : Z) (e0 : Env),
    GpuWait this value' e0 = GpuWait_static (m_queue this) this value' e0.
Proof.
  intros v. rewrite GpuWait_static_eq in Hrun. cbv zeta in Hrun. fold v in Hrun.
  destruct (FAILED (status e)); [discriminate|]. injection Hrun as <-.
  env_simpl. cbn [enqueue queue]. rewrite fn_lookup_insert.
  split; [reflexivity|]. split; [reflexivity|]. split; [|reflexivity].
  intros g pos Hreach Hlater Hdone.
  set (g0 := enqueue pQueue (CmdWait (m_fence pFence) v) (gpu (ticked e))) in *.
  set (p0 := last_position pQueue g0) in *.
  assert (Hq : queue g0 pQueue = queue (gpu (ticked e)) pQueue ++ [CmdWait (m_fence pFence) v])
    by (unfold g0; cbn [enqueue queue]; apply fn_lookup_insert).
  assert (Hp0 : p0 = (retired g0 pQueue + length (queue (gpu (ticked e)) pQueue))%nat).
  { unfold p0, last_position. rewrite Hq, length_app. cbn [length]. lia. }
  destruct (wait_blocks pQueue p0 (m_fence pFence) v g0) with (g := g)
    as [[Hle _]|(g_mid & H1 & H2 & H3 & H4)].
  - lia.
  - rewrite Hq. replace (p0 - retired g0 pQueue)%nat
      with (length (queue (gpu (ticked e)) pQueue)) by lia.
    apply list_lookup_middle. reflexivity.
  - exact Hreach.
  - unfold retired_at in Hdone. lia.
  - exists g_mid. unfold retired_at. repeat split; try assumption. lia.
Qed.

Lemma GpuWait_static_orders_witness :
  let pFence := {| m_fence := 1; m_queue := 0; m_currentFenceValue := 5; m_fenceEvent := 1 |} in
  let e := boot true [] in
  let e' := env_of (GpuWait_static 3 pFence 4 e) in
  GpuWait_static 3 pFence 4 e = Ok tt e' /\
  calls e' = calls e ++ [CallQueueWait 3 1 4] /\
  queue (gpu e') 3 = queue (gpu (ticked e)) 3 ++ [CmdWait 1 4].
Proof.
  intros pFence e e'.
  assert (H : GpuWait_static 3 pFence 4 e = Ok tt e') by (vm_compute; reflexivity).
  split; [exact H|].
  destruct (GpuWait_static_orders 3 pFence 4 e e' H) as (H1 & H2 & _).
  split; [exact H1|exact H2].
Defined.

(** ** The fence object and its native fence *)

Lemma signals_on_cons (f : nat) (c : Cmd) (l : list Cmd) :
  signals_on f (c :: l) =
  match c with
  | CmdSignal f' v => if Nat.eqb f' f then v :: signals_on f l else signals_on f l
  | _ => signals_on f l
  end.
Proof.
  unfold signals_on. cbn [omap list_omap].
  destruct c as [f' v|f' v|tag]; try reflexivity.
  destruct (Nat.eqb f' f); reflexivity.
Qed.

Lemma signals_on_snoc (f : nat) (l : list Cmd) (c : Cmd) :
  signals_on f (l ++ [c]) = signals_on f l ++ signals_on f [c].
Proof. unfold signals_on. apply omap_app. Qed.

Lemma ascending_le (l : list Z) : forall lo hi, ascending lo l hi -> lo <= hi.
Proof.
  induction l as [|v l IH]; intros lo hi H; [exact H|].
  destruct H as [H1 H2]. apply IH in H2. lia.
Qed.

Lemma ascending_snoc (l : list Z) : forall lo c c',
  ascending lo l c -> c <= c' -> ascending lo (l ++ [c']) c'.
Proof.
  induction l as [|v l IH]; intros lo c c' H Hc; cbn [app ascending] in *.
  - split; lia.
  - destruct H as [H1 H2]. split; [exact H1|]. eapply IH; eassumption.
Qed.

Lemma ascending_raise (l : list Z) : forall lo hi hi',
  ascending lo l hi -> hi <= hi' -> ascending lo l hi'.
Proof.
  induction l as [|v l IH]; intros lo hi hi' H Hc; cbn [ascending] in *.
  - lia.
  - destruct H as [H1 H2]. split; [exact H1|]. eapply IH; eassumption.
Qed.

Section Discipline.

Variable this : Fence.

(** A GPU step keeps the ownership, and the completed value of the fence
    does not fall. *)
Lemma gpu_exec_Owns (q : nat) (g : Gpu) :
  Owns this g ->
  Owns this (gpu_exec q g) /\
  fence_value g (m_fence this) <= fence_value (gpu_exec q g) (m_fence this).
Proof.
  intros [Helse Hasc]. unfold gpu_exec.
  destruct (queue g q) as [|c rest] eqn:Hq; [split; [split; assumption|lia]|].
  assert (Hpop : forall g0, queue g0 = queue g -> fence_value g0 = fence_value g ->
            signals_on (m_fence this) (c :: rest) = signals_on (m_fence this) rest ->
            Owns this (retire q rest g0) /\
            fence_value g (m_fence this) <= fence_value (retire q rest g0) (m_fence this)).
  { intros g0 Hq0 Hf0 Hsig. unfold Owns. cbn [retire queue fence_value].
    rewrite Hq0, Hf0. split; [|lia]. split.
    - intros q' Hq'. destruct (decide (q = q')) as [->|Hne].
      + rewrite fn_lookup_insert, <- Hsig, <- Hq. apply Helse, Hq'.
      + rewrite fn_lookup_insert_ne by assumption. apply Helse, Hq'.
    - destruct (decide (q = m_queue this)) as [->|Hne].
      + rewrite fn_lookup_insert, <- Hsig, <- Hq. exact Hasc.
      + rewrite fn_lookup_insert_ne by assumption. exact Hasc. }
  destruct c as [f v|f v|tag].
  - destruct (Nat.eqb f (m_fence this)) eqn:Hf.
    + apply Nat.eqb_eq in Hf. subst f.
      assert (Hsig : signals_on (m_fence this) (queue g q)
                     = v :: signals_on (m_fence this) rest).
      { rewrite Hq, signals_on_cons, Nat.eqb_refl. reflexivity. }
      assert (q = m_queue this) as ->.
      { destruct (decide (q = m_queue this)) as [|Hne]; [assumption|].
        rewrite (Helse q Hne) in Hsig. discriminate. }
      rewrite Hsig in Hasc. destruct Hasc as [Hlo Hasc].
      unfold Owns. cbn [retire signal_fence queue fence_value].
      rewrite !fn_lookup_insert. split; [|exact Hlo]. split; [|exact Hasc].
      intros q' Hq'. rewrite fn_lookup_insert_ne by (apply not_eq_sym, Hq').
      apply Helse, Hq'.
    + assert (Hne : f <> m_fence this) by (apply Nat.eqb_neq, Hf).
      assert (Hsig : signals_on (m_fence this) (CmdSignal f v :: rest)
                     = signals_on (m_fence this) rest)
        by (rewrite signals_on_cons, Hf; reflexivity).
      unfold Owns. cbn [retire signal_fence queue fence_value].
      rewrite fn_lookup_insert_ne by assumption. split; [|lia]. split.
      * intros q' Hq'. destruct (decide (q = q')) as [->|Hne'].
        -- rewrite fn_lookup_insert, <- Hsig, <- Hq. apply Helse, Hq'.
        -- rewrite fn_lookup_insert_ne by assumption. apply Helse, Hq'.
      * destruct (decide (q = m_queue this)) as [->|Hne'].
        -- rewrite fn_lookup_insert, <- Hsig, <- Hq. exact Hasc.
        -- rewrite fn_lookup_insert_ne by assumption. exact Hasc.
  - destruct (fence_value g f <? v); [split; [split; assumption|lia]|].
    apply Hpop; reflexivity.
  - apply Hpop; reflexivity.
Qed.

Lemma gpu_run_Owns (s : list nat) : forall g,
  Owns this g ->
  Owns this (gpu_run s g) /\
  fence_value g (m_fence this) <= fence_value (gpu_run s g) (m_fence this).
Proof.
  induction s as [|q s IH]; intros g H; [split; [exact H|cbn; lia]|].
  cbn [gpu_run fold_left].
  destruct (gpu_exec_Owns q g H) as [H1 H2].
  destruct (IH _ H1) as [H3 H4]. split; [exact H3|].
  unfold gpu_run in H4. lia.
Qed.

(** ** The event of the fence object *)

Lemma signal_fence_Idle (f : nat) (v : Z) (g : Gpu) :
  Idle this g -> Idle this (signal_fence f v g).
Proof.
  intros [Hev Hregs]. unfold Idle. cbn [signal_fence event_set registrations]. split.
  - rewrite Hev. cbn [orb]. apply not_true_iff_false. intros Hex.
    apply existsb_exists in Hex as (r & Hin & Hr).
    apply andb_true_iff in Hr as [_ Hr]. apply Nat.eqb_eq in Hr.
    exact (Hregs r Hin Hr).
  - intros r Hin. apply filter_In in Hin as [Hin _]. apply Hregs, Hin.
Qed.

Lemma gpu_exec_Idle (q : nat) (g : Gpu) :
  Idle this g -> Idle this (gpu_exec q g).
Proof.
  intros H. unfold gpu_exec.
  destruct (queue g q) as [|[f v|f v|tag] rest]; try exact H.
  - apply (signal_fence_Idle f v g H).
  - destruct (fence_value g f <? v); exact H.
Qed.

Lemma gpu_run_Idle (s : list nat) : forall g,
  Idle this g -> Idle this (gpu_run s g).
Proof.
  induction s as [|q s IH]; intros g H; [exact H|].
  cbn [gpu_run fold_left]. apply IH, gpu_exec_Idle, H.
Qed.

Lemma signal_fence_Waiting (w : Z) (f : nat) (v : Z) (g : Gpu) :
  Waiting this w g ->
  (f = m_fence this -> fence_value g (m_fence this) <= v) ->
  Waiting this w (signal_fence f v g).
Proof.
  intros [Hregs Hset] Hmono. unfold Waiting.
  cbn [signal_fence event_set registrations fence_value]. split.
  - intros r Hin. apply filter_In in Hin as [Hin _]. apply Hregs, Hin.
  - intros Hev. apply orb_true_iff in Hev as [Hev|Hev].
    + destruct (Hset Hev) as [Hreach Hnone]. split.
      * destruct (decide (f = m_fence this)) as [Heq|Hne].
        -- rewrite Heq, fn_lookup_insert. specialize (Hmono Heq). lia.
        -- rewrite fn_lookup_insert_ne by assumption. exact Hreach.
      * intros r Hin. apply filter_In in Hin as [Hin _]. apply Hnone, Hin.
    + apply existsb_exists in Hev as (r & Hin & Hr).
      apply andb_true_iff in Hr as [Hdue Hr]. apply Nat.eqb_eq in Hr.
      destruct (Hregs r Hin Hr) as [Hrf Hrv].
      unfold reg_due in Hdue. apply andb_true_iff in Hdue as [Hdf Hdv].
      apply Nat.eqb_eq in Hdf. apply Z.leb_le in Hdv.
      assert (Hf : f = m_fence this) by congruence. split.
      * rewrite Hf, fn_lookup_insert. lia.
      * intros r' Hin' Hr'. apply filter_In in Hin' as [Hin' Hnot].
        destruct (Hregs r' Hin' Hr') as [Hrf' Hrv'].
        unfold reg_due in Hnot. rewrite Hrf', Hf, Nat.eqb_refl in Hnot.
        cbn [andb] in Hnot. apply negb_true_iff, Z.leb_gt in Hnot. lia.
Qed.

Lemma gpu_exec_Waiting (w : Z) (q : nat) (g : Gpu) :
  Owns this g -> Waiting this w g -> Waiting this w (gpu_exec q g).
Proof.
  intros Hown H.
  pose proof (gpu_exec_Owns q g Hown) as [_ Hmono].
  unfold gpu_exec in *.
  destruct (queue g q) as [|[f v|f v|tag] rest]; try exact H.
  - apply (signal_fence_Waiting w f v g H).
    intros ->. cbn [retire signal_fence fence_value] in Hmono.
    rewrite fn_lookup_insert in Hmono. exact Hmono.
  - destruct (fence_value g f <? v); exact H.
Qed.

Lemma gpu_run_Waiting (w : Z) (s : list nat) : forall g,
  Owns this g -> Waiting this w g -> Waiting this w (gpu_run s g).
Proof.
  induction s as [|q s IH]; intros g Hown H; [exact H|].
  cbn [gpu_run fold_left].
  apply IH; [apply gpu_exec_Owns, Hown|apply gpu_exec_Waiting; assumption].
Qed.

Lemma register_event_Waiting (w : Z) (g : Gpu) :
  Idle this g ->
  Waiting this w (register_event (m_fence this) w (m_fenceEvent this) g).
Proof.
  intros [Hev Hregs]. unfold Waiting.
  cbn [register_event event_set registrations fence_value].
  destruct (w <=? fence_value g (m_fence this)) eqn:Hle.
  - apply Z.leb_le in Hle. split.
    + intros r Hin Hr. destruct (Hregs r Hin Hr).
    + intros _. split; [exact Hle|exact Hregs].
  - split.
    + intros r Hin Hr. apply in_app_or in Hin as [Hin|[<-|[]]].
      * destruct (Hregs r Hin Hr).
      * split; reflexivity.
    + rewrite Hev. discriminate.
Qed.

Lemma write_event_Idle (w : Z) (g : Gpu) :
  Waiting this w g ->
  event_set g (m_fenceEvent this) = true ->
  Idle this (write_event (m_fenceEvent this) false g) /\
  w <= fence_value (write_event (m_fenceEvent this) false g) (m_fence this).
Proof.
  intros [_ Hset] Hev. destruct (Hset Hev) as [Hreach Hnone].
  unfold Idle. cbn [write_event event_set registrations fence_value].
  rewrite fn_lookup_insert. auto.
Qed.

(** Owning survives changes that touch neither the queues nor the fences. *)
Lemma Owns_ext (g g' : Gpu) :
  queue g' = queue g -> fence_value g' = fence_value g -> Owns this g -> Owns this g'.
Proof. unfold Owns. intros -> ->. auto. Qed.

(** ** What a return from CpuWait guarantees *)

Lemma gpu_queried (e : Env) :
  gpu (queried this e) = gpu_run (burst e) (gpu e).
Proof. unfold queried. env_simpl. apply ticked_gpu. Qed.

Lemma gpu_sleeping (v : Z) (e : Env) :
  exists s1 s2,
    gpu (sleeping this v e) =
    gpu_run s2 (register_event (m_fence this) v (m_fenceEvent this)
                               (gpu_run s1 (gpu e))).
Proof.
  unfold sleeping. env_simpl. rewrite ticked_gpu. env_simpl.
  rewrite (ticked_gpu (queried this e)), gpu_queried, <- gpu_run_app. eauto.
Qed.

(** Under the ownership discipline, [CpuWait] returns with the native fence
    at or above the value waited for, and the discipline still in force. *)
Lemma CpuWait_Ok_spec (value : Z) (e e' : Env) :
  Owns this (gpu e) ->
  Idle this (gpu e) ->
  CpuWait this value e = Ok tt e' ->
  Owns this (gpu e') /\ Idle this (gpu e') /\
  (if value =? UnspecifiedFenceValue then m_currentFenceValue this else value)
    <= fence_value (gpu e') (m_fence this) /\
  fence_value (gpu e) (m_fence this) <= fence_value (gpu e') (m_fence this).
Proof.
  intros Hown Hidle. rewrite CpuWait_eq. cbv zeta.
  set (v := if value =? UnspecifiedFenceValue then m_currentFenceValue this else value).
  destruct (_ <? _) eqn:Hlt.
  - destruct (FAILED _); [discriminate|].
    destruct (event_set _ _) eqn:Hev; [|discriminate].
    intros H. injection H as <-.
    destruct (gpu_sleeping v e) as (s1 & s2 & Hg).
    destruct (gpu_run_Owns s1 _ Hown) as [Hown1 Hm1].
    pose proof (gpu_run_Idle s1 _ Hidle) as Hidle1.
    pose proof (register_event_Waiting v _ Hidle1) as Hw.
    set (g2 := register_event (m_fence this) v (m_fenceEvent this) (gpu_run s1 (gpu e))) in *.
    assert (Hown2 : Owns this g2) by (apply (Owns_ext (gpu_run s1 (gpu e))); auto).
    destruct (gpu_run_Owns s2 _ Hown2) as [Hown3 Hm3].
    pose proof (gpu_run_Waiting v s2 _ Hown2 Hw) as Hw3.
    rewrite <- Hg in Hown3, Hm3, Hw3.
    destruct (write_event_Idle v _ Hw3 Hev) as [Hidle4 Hreach].
    unfold woken. env_simpl.
    split; [|split; [exact Hidle4|split; [exact Hreach|]]].
    + apply (Owns_ext (gpu (sleeping this v e))); auto.
    + cbn [write_event fence_value].
      change (fence_value g2 (m_fence this))
        with (fence_value (gpu_run s1 (gpu e)) (m_fence this)) in Hm3. lia.
  - intros H. injection H as <-. rewrite gpu_queried.
    apply Z.ltb_ge in Hlt. rewrite gpu_queried in Hlt.
    destruct (gpu_run_Owns (burst e) _ Hown) as [Hown1 Hm1].
    split; [exact Hown1|]. split; [apply gpu_run_Idle, Hidle|]. split; assumption.
Qed.

(** ** The wait ends when the fence gets there *)

Lemma gpu_exec_Armed (w : Z) (q : nat) (g : Gpu) :
  Armed this w g -> Armed this w (gpu_exec q g).
Proof.
  intros H. unfold gpu_exec.
  destruct (queue g q) as [|[f v|f v|tag] rest]; try exact H.
  2: { destruct (fence_value g f <? v); exact H. }
  unfold Armed. cbn [retire signal_fence event_set registrations fence_value].
  intros Hev. apply orb_false_iff in Hev as [Hev Hnone].
  destruct (H Hev) as [Hlt Hin].
  assert (Hdue : reg_due f v {| reg_fence := m_fence this; reg_value := w;
                               reg_event := m_fenceEvent this |} = false).
  { destruct (reg_due f v _) eqn:Hd; [|reflexivity].
    assert (Hex : existsb (fun r => reg_due f v r && Nat.eqb (reg_event r) (m_fenceEvent this))
                    (registrations g) = true).
    { apply existsb_exists. eexists. split; [exact Hin|].
      rewrite Hd. cbn [reg_event andb]. apply Nat.eqb_refl. }
    congruence. }
  split.
  - unfold reg_due in Hdue. cbn [reg_fence reg_value] in Hdue.
    destruct (decide (f = m_fence this)) as [->|Hne].
    + rewrite fn_lookup_insert. rewrite Nat.eqb_refl in Hdue. cbn [andb] in Hdue.
      apply Z.leb_gt in Hdue. exact Hdue.
    + rewrite fn_lookup_insert_ne by assumption. exact Hlt.
  - apply filter_In. split; [exact Hin|]. rewrite Hdue. reflexivity.
Qed.

Lemma gpu_run_Armed (w : Z) (s : list nat) : forall g,
  Armed this w g -> Armed this w (gpu_run s g).
Proof.
  induction s as [|q s IH]; intros g H; [exact H|].
  cbn [gpu_run fold_left]. apply IH, gpu_exec_Armed, H.
Qed.

Lemma register_event_Armed (w : Z) (g : Gpu) :
  event_set g (m_fenceEvent this) = false ->
  Armed this w (register_event (m_fence this) w (m_fenceEvent this) g).
Proof.
  intros Hev. unfold Armed. cbn [register_event event_set registrations fence_value].
  destruct (w <=? fence_value g (m_fence this)) eqn:Hle.
  - rewrite fn_lookup_insert. discriminate.
  - intros _. apply Z.leb_gt in Hle. split; [exact Hle|].
    apply in_or_app. right. left. reflexivity.
Qed.

(** Once [CpuWait] has found the completed value below [v] and registered
    the event, it returns exactly if the fence holds at least [v] when the
    thread wakes; otherwise the thread sleeps on. *)
Lemma CpuWait_blocks_until (v : Z) (e : Env) :
  Owns this (gpu e) ->
  Idle this (gpu e) ->
  v <> UnspecifiedFenceValue ->
  fence_value (gpu (queried this e)) (m_fence this) < v ->
  FAILED (status (queried this e)) = false ->
  (v <= fence_value (gpu (sleeping this v e)) (m_fence this) ->
   CpuWait this v e = Ok tt (woken this v e)) /\
  (fence_value (gpu (sleeping this v e)) (m_fence this) < v ->
   CpuWait this v e = Fail Blocked (sleeping this v e)).
Proof.
  intros Hown Hidle Hv Hlt Hok.
  rewrite CpuWait_eq. cbv zeta.
  apply Z.eqb_neq in Hv. rewrite Hv. apply Z.ltb_lt in Hlt. rewrite Hlt, Hok.
  destruct (gpu_sleeping v e) as (s1 & s2 & Hg).
  destruct (gpu_run_Owns s1 _ Hown) as [Hown1 _].
  pose proof (gpu_run_Idle s1 _ Hidle) as Hidle1.
  pose proof (register_event_Waiting v _ Hidle1) as Hw.
  pose proof (register_event_Armed v _ (proj1 Hidle1)) as Ha.
  set (g2 := register_event (m_fence this) v (m_fenceEvent this) (gpu_run s1 (gpu e))) in *.
  assert (Hown2 : Owns this g2) by (apply (Owns_ext (gpu_run s1 (gpu e))); auto).
  pose proof (gpu_run_Waiting v s2 _ Hown2 Hw) as Hw3.
  pose proof (gpu_run_Armed v s2 _ Ha) as Ha3.
  rewrite <- Hg in Hw3, Ha3.
  destruct (event_set (gpu (sleeping this v e)) (m_fenceEvent this)) eqn:Hev.
  - split; [reflexivity|]. destruct Hw3 as [_ Hset]. destruct (Hset Hev). lia.
  - split; [|reflexivity]. destruct (Ha3 Hev). lia.
Qed.

End Discipline.

(** ** The discipline through the calls *)

Lemma Signal_Ok_spec (this : Fence) (value : Z) (e : Env) (this' : Fence) (e' : Env) :
  Owns this (gpu e) ->
  Idle this (gpu e) ->
  Signal this value e = Ok this' e' ->
  m_currentFenceValue this <= m_currentFenceValue this' ->
  m_fence this' = m_fence this /\ m_queue this' = m_queue this /\
  m_fenceEvent this' = m_fenceEvent this /\
  Owns this' (gpu e') /\ Idle this' (gpu e') /\
  fence_value (gpu e) (m_fence this) <= fence_value (gpu e') (m_fence this).
Proof.
  intros Hown Hidle HS Hmono.
  apply Signal_Ok_inv in HS as (Hthis & _ & -> & _).
  set (c' := m_currentFenceValue this') in *.
  assert (Hsame : m_fence this' = m_fence this /\ m_queue this' = m_queue this /\
                  m_fenceEvent this' = m_fenceEvent this) by (rewrite Hthis; auto).
  destruct Hsame as (Hf & Hq & Hh).
  env_simpl. rewrite ticked_gpu.
  destruct (gpu_run_Owns this (burst e) _ Hown) as [[Helse Hasc] Hm].
  pose proof (gpu_run_Idle this (burst e) _ Hidle) as Hidle1.
  set (g1 := gpu_run (burst e) (gpu e)) in *.
  repeat split; try assumption.
  - rewrite Hf, Hq. intros q Hne. cbn [enqueue queue].
    rewrite fn_lookup_insert_ne by (apply not_eq_sym, Hne). apply Helse, Hne.
  - rewrite Hf, Hq. cbn [enqueue queue fence_value]. rewrite fn_lookup_insert.
    rewrite signals_on_snoc, signals_on_cons, Nat.eqb_refl.
    eapply ascending_snoc; eassumption.
  - unfold Idle. rewrite Hh. apply Hidle1.
  - unfold Idle. rewrite Hh. apply Hidle1.
Qed.

Lemma GpuWait_Ok_spec (this : Fence) (value : Z) (e e' : Env) :
  Owns this (gpu e) ->
  Idle this (gpu e) ->
  GpuWait this value e = Ok tt e' ->
  Owns this (gpu e') /\ Idle this (gpu e') /\
  fence_value (gpu e) (m_fence this) <= fence_value (gpu e') (m_fence this).
Proof.
  intros Hown Hidle. unfold GpuWait. rewrite GpuWait_static_eq. cbv zeta.
  destruct (FAILED (status e)); [discriminate|]. intros H. injection H as <-.
  env_simpl. rewrite ticked_gpu.
  destruct (gpu_run_Owns this (burst e) _ Hown) as [[Helse Hasc] Hm].
  pose proof (gpu_run_Idle this (burst e) _ Hidle) as Hidle1.
  set (g1 := gpu_run (burst e) (gpu e)) in *.
  repeat split; try assumption; try apply Hidle1.
  - intros q Hne. cbn [enqueue queue].
    rewrite fn_lookup_insert_ne by (apply not_eq_sym, Hne). apply Helse, Hne.
  - cbn [enqueue queue fence_value]. rewrite fn_lookup_insert.
    rewrite signals_on_snoc, signals_on_cons. cbn [signals_on omap list_omap].
    rewrite app_nil_r. exact Hasc.
Qed.

Lemma Queue_Submit_spec (this : Fence) (q tag : nat) (e : Env) :
  Owns this (gpu e) ->
  Idle this (gpu e) ->
  Owns this (gpu (env_of (Queue_Submit q tag e))) /\
  Idle this (gpu (env_of (Queue_Submit q tag e))) /\
  fence_value (gpu e) (m_fence this)
    <= fence_value (gpu (env_of (Queue_Submit q tag e))) (m_fence this).
Proof.
  intros Hown Hidle. rewrite Queue_Submit_eq. cbn [env_of]. env_simpl.
  rewrite ticked_gpu.
  destruct (gpu_run_Owns this (burst e) _ Hown) as [[Helse Hasc] Hm].
  pose proof (gpu_run_Idle this (burst e) _ Hidle) as Hidle1.
  set (g1 := gpu_run (burst e) (gpu e)) in *.
  assert (Hsig : forall q', signals_on (m_fence this) (queue (enqueue q (CmdWork tag) g1) q')
                            = signals_on (m_fence this) (queue g1 q')).
  { intros q'. cbn [enqueue queue]. destruct (decide (q = q')) as [->|Hne].
    - rewrite fn_lookup_insert, signals_on_snoc. apply app_nil_r.
    - rewrite fn_lookup_insert_ne by assumption. reflexivity. }
  split; [|split; [exact Hidle1|exact Hm]]. split.
  - intros q' Hne. rewrite Hsig. apply Helse, Hne.
  - rewrite Hsig. exact Hasc.
Qed.

Lemma ascending_top (this : Fence) (g : Gpu) :
  Owns this g -> fence_value g (m_fence this) <= m_currentFenceValue this.
Proof. intros [_ Hasc]. eapply ascending_le, Hasc. Qed.

Lemma FlushGpuQueue_Ok_spec (this : Fence) (e : Env) (this' : Fence) (e' : Env) :
  Owns this (gpu e) ->
  Idle this (gpu e) ->
  FlushGpuQueue this e = Ok this' e' ->
  m_currentFenceValue this <= m_currentFenceValue this' ->
  m_fence this' = m_fence this /\ m_queue this' = m_queue this /\
  m_fenceEvent this' = m_fenceEvent this /\
  Owns this' (gpu e') /\ Idle this' (gpu e') /\
  fence_value (gpu e) (m_fence this) <= fence_value (gpu e') (m_fence this) /\
  fence_value (gpu e') (m_fence this) = m_currentFenceValue this'.
Proof.
  intros Hown Hidle HF Hmono.
  apply FlushGpuQueue_Ok_inv in HF as (e1 & HS & HW).
  destruct (Signal_Ok_spec this _ e this' e1 Hown Hidle HS Hmono)
    as (Hf & Hq & Hh & Hown1 & Hidle1 & Hm1).
  destruct (CpuWait_Ok_spec this' _ e1 e' Hown1 Hidle1 HW)
    as (Hown2 & Hidle2 & Hreach & Hm2).
  pose proof (ascending_top this' _ Hown2) as Htop. rewrite Hf in *.
  split; [reflexivity|]. split; [exact Hq|]. split; [exact Hh|].
  split; [exact Hown2|]. split; [exact Hidle2|]. split; [lia|].
  destruct (m_currentFenceValue this' =? UnspecifiedFenceValue); lia.
Qed.

(** C4 (as amended). [FlushGpuQueue] is [Signal()] followed by [CpuWait] on
    the value just signaled. When the fence object owns its native fence (the
    signals pending for it are those of its own queue, in ascending order up
    to the counter), its event is at rest and the counter is below 2^64 - 1,
    then after [FlushGpuQueue] has returned a query of the completed value
    yields at least the value signaled by the call, whatever the GPU does in
    between. *)
Theorem FlushGpuQueue_round_trip (this this' : Fence) (e e' : Env)
    (Hown : Owns this (gpu e))
    (Hidle : Idle this (gpu e))
    (Hlo : 0 <= m_currentFenceValue this)
    (Hhi : m_currentFenceValue this < UINT64_MAX)
    (Hrun : FlushGpuQueue this e = Ok this' e') :
  FlushGpuQueue this e =
    (signaled ← Signal this (arg None);
     CpuWait signaled (m_currentFenceValue signaled);;
     mret signaled) e /\
  (exists e1, Signal this (arg None) e = Ok this' e1 /\
              CpuWait this' (m_currentFenceValue this') e1 = Ok tt e') /\
  m_currentFenceValue this' = m_currentFenceValue this + 1 /\
  (forall (r : Z) (e'' : Env),
     Fence_GetCompletedValue (m_fence this') e' = Ok r e'' ->
     m_currentFenceValue this' <= r) /\
  Owns this' (gpu e') /\ Idle this' (gpu e').
Proof.
  split; [reflexivity|].
  pose proof (FlushGpuQueue_Ok_inv this e this' e' Hrun) as (e1 & HS & HW).
  split; [exists e1; split; assumption|].
  pose proof (Signal_Ok_inv this _ e this' e1 HS) as (Hthis & _).
  change (UnspecifiedFenceValue =? UnspecifiedFenceValue) with true in Hthis.
  cbv iota in Hthis. rewrite wrap64_small in Hthis by lia.
  assert (Hc : m_currentFenceValue this' = m_currentFenceValue this + 1)
    by (rewrite Hthis; reflexivity).
  split; [exact Hc|].
  destruct (FlushGpuQueue_Ok_spec this e this' e' Hown Hidle Hrun ltac:(lia))
    as (Hf & _ & _ & Hown' & Hidle' & _ & Hval).
  split; [|split; assumption].
  intros r e'' Hquery. rewrite Fence_GetCompletedValue_eq in Hquery.
  injection Hquery as <- _. rewrite ticked_gpu.
  destruct (gpu_run_Owns this' (burst e') _ Hown') as [_ Hm].
  rewrite Hf in *. lia.
Qed.

Lemma FlushGpuQueue_round_trip_witness :
  let this := {| m_fence := 1; m_queue := 0; m_currentFenceValue := 0; m_fenceEvent := 1 |} in
  let e := env_of (Fence_new 0 (boot true (replicate 6 ([O], 0)))) in
  let this' := set_currentFenceValue 1 this in
  let e' := env_of (FlushGpuQueue this e) in
  (Owns this (gpu e) /\ Idle this (gpu e) /\
   0 <= m_currentFenceValue this /\ m_currentFenceValue this < UINT64_MAX /\
   FlushGpuQueue this e = Ok this' e') /\
  m_currentFenceValue this' = m_currentFenceValue this + 1 /\
  forall (r : Z) (e'' : Env),
    Fence_GetCompletedValue (m_fence this') e' = Ok r e'' ->
    m_currentFenceValue this' <= r.
Proof.
  intros this e this' e'.
  assert (H1 : Owns this (gpu e)).
  { split; [intros q _; vm_compute; reflexivity|vm_compute; discriminate]. }
  assert (H2 : Idle this (gpu e)).
  { split; [vm_compute; reflexivity|intros r Hin; vm_compute in Hin; destruct Hin]. }
  assert (H3 : 0 <= m_currentFenceValue this) by (vm_compute; discriminate).
  assert (H4 : m_currentFenceValue this < UINT64_MAX) by (vm_compute; reflexivity).
  assert (H5 : FlushGpuQueue this e = Ok this' e') by (vm_compute; reflexivity).
  split; [auto 6|].
  destruct (FlushGpuQueue_round_trip this this' e e' H1 H2 H3 H4 H5)
    as (_ & _ & Hc & Hq & _).
  split; [exact Hc|exact Hq].
Defined.

(** C4 as stated fails once the counter has wrapped around. The GPU has
    completed 2^64 - 2 when [FlushGpuQueue] signals 1 and finds the completed
    value above it; the signals of 2^64 - 1 and of 0 are still pending, and
    when they have run the completed value is 0, below the value signaled. *)
Lemma FlushGpuQueue_stale_counterexample :
  value_of ((fresh ← Fence_new 0;
             a ← Signal fresh (arg (Some (UINT64_MAX - 1)));
             b ← Signal a (arg None);
             c ← Signal b (arg None);
             d ← FlushGpuQueue c;
             r ← Fence_GetCompletedValue (m_fence d);
             mret (m_currentFenceValue c, m_currentFenceValue d, r))
              (boot true [([], 0); ([], 0); ([], 0); ([], 0); ([], 0); ([O], 0);
                          ([], 0); ([], 0); ([], 0); ([O; O], 0)]))
  = Some (0, 1, 0) /\
  0 < 1.
Proof. split; [vm_compute; reflexivity | reflexivity]. Qed.

(** ** A fence just constructed *)

Lemma gpu_exec_Untouched (f h q : nat) (g : Gpu) :
  Untouched f h g ->
  Untouched f h (gpu_exec q g) /\ fence_value (gpu_exec q g) f = fence_value g f.
Proof.
  intros [Hsig Hregs]. unfold gpu_exec.
  destruct (queue g q) as [|c rest] eqn:Hq; [split; [split; assumption|reflexivity]|].
  pose proof (Hsig q) as Hhead. rewrite Hq, signals_on_cons in Hhead.
  assert (Hpop : forall g0, queue g0 = queue g ->
            (forall r, In r (registrations g0) -> reg_event r <> h) ->
            signals_on f rest = [] ->
            Untouched f h (retire q rest g0)).
  { intros g0 Hq0 Hr0 Hrest. split; [|exact Hr0].
    intros q'. cbn [retire queue]. rewrite Hq0.
    destruct (decide (q = q')) as [->|Hne].
    - rewrite fn_lookup_insert. exact Hrest.
    - rewrite fn_lookup_insert_ne by assumption. apply Hsig. }
  destruct c as [f' v|f' v|tag].
  - destruct (Nat.eqb f' f) eqn:Hf; [discriminate|].
    apply Nat.eqb_neq in Hf. split.
    + apply Hpop; [reflexivity| |exact Hhead].
      intros r Hin. cbn [signal_fence registrations] in Hin.
      apply filter_In in Hin as [Hin _]. apply Hregs, Hin.
    + cbn [retire signal_fence fence_value]. apply fn_lookup_insert_ne, Hf.
  - destruct (fence_value g f' <? v); [split; [split; assumption|reflexivity]|].
    split; [apply Hpop; auto|reflexivity].
  - split; [apply Hpop; auto|reflexivity].
Qed.

Lemma gpu_run_Untouched (f h : nat) (s : list nat) : forall g,
  Untouched f h g ->
  Untouched f h (gpu_run s g) /\ fence_value (gpu_run s g) f = fence_value g f.
Proof.
  induction s as [|q s IH]; intros g H; [split; [exact H|reflexivity]|].
  cbn [gpu_run fold_left].
  destruct (gpu_exec_Untouched f h q g H) as [H1 H2].
  destruct (IH _ H1) as [H3 H4]. split; [exact H3|].
  unfold gpu_run in H4. congruence.
Qed.

Lemma Fence_new_Ok_spec (pQueue : nat) (e : Env) (this : Fence) (e' : Env) :
  Untouched (S (fences_made e)) (S (events_made e)) (gpu e) ->
  Fence_new pQueue e = Ok this e' ->
  m_currentFenceValue this = 0 /\ Owns this (gpu e') /\ Idle this (gpu e').
Proof.
  intros Hclean Hnew.
  pose proof (Fence_new_cases pQueue e) as HN. rewrite Hnew in HN.
  destruct HN as (-> & _ & _ & _ & _ & s & s' & ->).
  set (f := S (fences_made e)) in *. set (h := S (events_made e)) in *.
  destruct (gpu_run_Untouched f h s _ Hclean) as [[Hs1 Hr1] _].
  assert (H2 : Untouched f h (new_fence f 0 (gpu_run s (gpu e)))) by (split; assumption).
  destruct (gpu_run_Untouched f h s' _ H2) as [[Hs3 Hr3] Hv3].
  cbn [new_fence fence_value] in Hv3. rewrite fn_lookup_insert in Hv3.
  split; [reflexivity|]. split.
  - split; cbn [m_fence m_queue m_currentFenceValue write_event queue fence_value].
    + intros q _. apply Hs3.
    + rewrite Hs3, Hv3. cbn. lia.
  - split; cbn [m_fenceEvent write_event event_set registrations].
    + apply fn_lookup_insert.
    + exact Hr3.
Qed.

(** ** The pace of a LinearFence *)

Lemma perform_Paced (n : nat) (seen : list Z) (op : Op) (this this' : LinearFence)
    (e e' : Env) :
  1 <= Z.of_nat n <= UINT_MAX ->
  Paced n seen this e ->
  perform op this e = Ok this' e' ->
  m_currentFenceValue (base this) <= m_currentFenceValue (base this') ->
  Paced n (seen ++ match op with
                   | OpNext => [m_currentFenceValue (base this)]
                   | _ => []
                   end) this' e'.
Proof.
  intros Hn (Hring & Hown & Hidle & Hbound & Hdone) Hop Hmono.
  pose proof (perform_Ring n seen op this this' e e' Hn Hring Hop) as Hring'.
  destruct op as [value|value|value| | |q tag]; cbn [perform] in Hop; rewrite ?app_nil_r in *.
  - apply bind_Ok_inv in Hop as (b & e1 & HS & H). rewrite ret_eq in H.
    injection H as <- <-. cbn [base with_base] in *.
    destruct (Signal_Ok_spec _ _ e b e1 Hown Hidle HS Hmono)
      as (Hf & _ & _ & Hown' & Hidle' & Hm).
    refine (conj Hring' (conj Hown' (conj Hidle' (conj _ _)))).
    + intros i v Hi. specialize (Hbound i v Hi). cbn [base with_base] in *. lia.
    + intros i v Hi Hr. specialize (Hdone i v Hi Hr). cbn [base with_base] in *.
      rewrite Hf. lia.
  - apply bind_Ok_inv in Hop as ([] & e1 & HS & H). rewrite ret_eq in H.
    injection H as <- <-.
    destruct (GpuWait_Ok_spec _ _ e e1 Hown Hidle HS) as (Hown' & Hidle' & Hm).
    refine (conj Hring' (conj Hown' (conj Hidle' (conj Hbound _)))).
    intros i v Hi Hr. specialize (Hdone i v Hi Hr). lia.
  - apply bind_Ok_inv in Hop as ([] & e1 & HS & H). rewrite ret_eq in H.
    injection H as <- <-.
    destruct (CpuWait_Ok_spec _ _ e e1 Hown Hidle HS) as (Hown' & Hidle' & _ & Hm).
    refine (conj Hring' (conj Hown' (conj Hidle' (conj Hbound _)))).
    intros i v Hi Hr. specialize (Hdone i v Hi Hr). lia.
  - apply bind_Ok_inv in Hop as (b & e1 & HS & H). rewrite ret_eq in H.
    injection H as <- <-. cbn [base with_base] in *.
    destruct (FlushGpuQueue_Ok_spec _ e b e1 Hown Hidle HS Hmono)
      as (Hf & _ & _ & Hown' & Hidle' & Hm & _).
    refine (conj Hring' (conj Hown' (conj Hidle' (conj _ _)))).
    + intros i v Hi. specialize (Hbound i v Hi). cbn [base with_base] in *. lia.
    + intros i v Hi Hr. specialize (Hdone i v Hi Hr). cbn [base with_base] in *.
      rewrite Hf. lia.
  - destruct (Ring_Next n seen this this' e e' Hn Hring Hop) as (_ & Hb & v & HW & Hv).
    destruct (CpuWait_Ok_spec _ _ e e' Hown Hidle HW) as (Hown' & Hidle' & Hreach & Hm).
    set (c := m_currentFenceValue (base this)) in *.
    assert (Hbound' : forall i w, (seen ++ [c]) !! i = Some w -> w <= c).
    { intros i w Hi. apply lookup_app_Some in Hi as [Hi|[_ Hi]].
      - apply (Hbound i w Hi).
      - apply list_lookup_singleton_Some in Hi as [_ <-]. lia. }
    unfold Paced. rewrite Hb.
    refine (conj Hring' (conj Hown' (conj Hidle' (conj Hbound' _)))).
    intros i w Hi Hr. rewrite length_app in Hr. cbn [length] in Hr.
    destruct (decide (i + n <= length seen)%nat) as [Hold|Hnew].
    + assert (Hlt : (i < length seen)%nat) by lia.
      rewrite lookup_app_l in Hi by assumption.
      specialize (Hdone i w Hi Hold). lia.
    + assert (Hle : (n <=? length seen + 1)%nat = true) by (apply Nat.leb_le; lia).
      rewrite Hle in Hv.
      replace (length seen + 1 - n)%nat with i in Hv by lia.
      assert (w = v) as -> by congruence.
      specialize (Hbound' i v Hi).
      destruct (v =? UnspecifiedFenceValue); lia.
  - apply bind_Ok_inv in Hop as ([] & e1 & HS & H). rewrite ret_eq in H.
    injection H as <- <-. rewrite Queue_Submit_eq in HS. injection HS as <-.
    destruct (Queue_Submit_spec (base this) q tag e Hown Hidle) as (Hown' & Hidle' & Hm).
    rewrite Queue_Submit_eq in Hown', Hidle', Hm. cbn [env_of] in *.
    refine (conj Hring' (conj Hown' (conj Hidle' (conj Hbound _)))).
    intros i v Hi Hr. specialize (Hdone i v Hi Hr). lia.
Qed.

Lemma script_counters (ops : list Op) (this final : LinearFence)
    (journal : list (Op * Z)) (e e' : Env) (c : Z) :
  script ops this e = Ok (final, journal) e' ->
  ascending c (map snd journal) (m_currentFenceValue (base final)) ->
  c <= m_currentFenceValue (base this) /\
  ascending (m_currentFenceValue (base this)) (map snd journal)
            (m_currentFenceValue (base final)).
Proof.
  destruct ops as [|op ops]; cbn [script]; intros Hrun Hasc.
  - rewrite ret_eq in Hrun. injection Hrun as <- <- <-. cbn in *. lia.
  - apply bind_Ok_inv in Hrun as (this1 & e1 & _ & Hrun).
    apply bind_Ok_inv in Hrun as ([final' journal'] & e2 & _ & Hrun).
    rewrite ret_eq in Hrun. injection Hrun as <- <- <-.
    cbn [map snd ascending] in *. destruct Hasc as [H1 H2].
    split; [exact H1|]. split; [lia|exact H2].
Qed.

Lemma script_Paced (n : nat) (ops : list Op) :
  forall (seen : list Z) (this final : LinearFence) (journal : list (Op * Z))
         (e e' : Env),
  1 <= Z.of_nat n <= UINT_MAX ->
  Paced n seen this e ->
  script ops this e = Ok (final, journal) e' ->
  ascending (m_currentFenceValue (base this)) (map snd journal)
            (m_currentFenceValue (base final)) ->
  Paced n (seen ++ recorded journal) final e'.
Proof.
  induction ops as [|op ops IH]; intros seen this final journal e e' Hn Hp Hrun Hasc.
  - cbn [script] in Hrun. rewrite ret_eq in Hrun. injection Hrun as <- <- <-.
    cbn. rewrite app_nil_r. exact Hp.
  - cbn [script] in Hrun.
    apply bind_Ok_inv in Hrun as (this1 & e1 & Hop & Hrun).
    apply bind_Ok_inv in Hrun as ([final' journal'] & e2 & Hrest & Hrun).
    rewrite ret_eq in Hrun. injection Hrun as <- <- <-.
    cbn [map snd ascending] in Hasc. destruct Hasc as [_ Hasc].
    destruct (script_counters ops this1 final' journal' e1 e2 _ Hrest Hasc)
      as [Hstep Hasc'].
    pose proof (perform_Paced n seen op this this1 e e1 Hn Hp Hop Hstep) as Hp1.
    specialize (IH _ this1 final' journal' e1 e2 Hn Hp1 Hrest Hasc').
    unfold recorded in *. cbn [omap list_omap fst snd].
    destruct op; cbn [app] in *; rewrite ?app_nil_r, <- ?app_assoc in IH; exact IH.
Qed.

Lemma LinearFence_new_Paced (pQueue : nat) (n : nat) (e0 : Env)
    (fresh : LinearFence) (e1 : Env) :
  Untouched (S (fences_made e0)) (S (events_made e0)) (gpu e0) ->
  LinearFence_new pQueue (Z.of_nat n) e0 = Ok fresh e1 ->
  m_currentFenceValue (base fresh) = 0 /\ Paced n [] fresh e1.
Proof.
  intros Hclean Hnew.
  apply LinearFence_new_Ok_inv in Hnew as (b & Hb & ->).
  destruct (Fence_new_Ok_spec pQueue e0 b e1 Hclean Hb) as (Hc & Hown & Hidle).
  split; [exact Hc|].
  pose proof (Ring_new (Z.of_nat n) b) as Hring. rewrite Nat2Z.id in *.
  refine (conj Hring (conj Hown (conj Hidle (conj _ _)))); intros i v Hi; discriminate.
Qed.

(** C1 (as amended). Take a LinearFence of capacity [n >= 1], constructed
    where nothing refers to its fence yet, and a run of calls on it during
    which the counter never decreased. When the run has returned, with [k]
    calls of [Next] in it, the completed value of the native fence is at least
    the counter recorded at call [j], for every [j] up to [k - n + 1]: so at
    the return of the k-th call, the value of call [k - n] has been reached.
    [Signal] and [GpuWait] never wait. *)
Theorem Next_throttles (pQueue n : nat) (e0 : Env) (fresh : LinearFence) (e1 : Env)
    (ops : list Op) (final : LinearFence) (journal : list (Op * Z)) (e2 : Env)
    (Hn : 1 <= Z.of_nat n <= UINT_MAX)
    (Hclean : Untouched (S (fences_made e0)) (S (events_made e0)) (gpu e0))
    (Hnew : LinearFence_new pQueue (Z.of_nat n) e0 = Ok fresh e1)
    (Hrun : script ops fresh e1 = Ok (final, journal) e2)
    (Hmono : ascending 0 (map snd journal) (m_currentFenceValue (base final))) :
  (forall (j : nat) (v : Z),
     (1 <= j)%nat ->
     (j + n <= length (recorded journal) + 1)%nat ->
     recorded journal !! (j - 1)%nat = Some v ->
     v <= fence_value (gpu e2) (m_fence (base final))) /\
  (forall (this : Fence) (value : Z) (e : Env),
     error_of (Signal this value e) <> Some Blocked /\
     error_of (GpuWait this value e) <> Some Blocked).
Proof.
  split.
  - destruct (LinearFence_new_Paced pQueue n e0 fresh e1 Hclean Hnew) as [Hc Hp].
    rewrite <- Hc in Hmono.
    pose proof (script_Paced n ops [] fresh final journal e1 e2 Hn Hp Hrun Hmono)
      as (_ & _ & _ & _ & Hdone).
    cbn [app] in Hdone. intros j v Hj Hjn Hv.
    apply (Hdone (j - 1)%nat v Hv). lia.
  - intros this value e. split.
    + destruct (Signal this value e) as [a e'|err e'] eqn:HS; [discriminate|].
      apply Signal_Fail_inv in HS as [->|[hr ->]]; discriminate.
    + unfold GpuWait.
      destruct (GpuWait_static _ this value e) as [a e'|err e'] eqn:HS; [discriminate|].
      apply GpuWait_static_Fail_inv in HS as [hr ->]. discriminate.
Qed.

Lemma Next_throttles_witness :
  let fresh := {| base := {| m_fence := 1; m_queue := 0;
                             m_currentFenceValue := 0; m_fenceEvent := 1 |};
                  m_signalHistory := [0; 0]; m_signalIndex := 0 |} in
  let e0 := boot true (replicate 12 ([O], 0)) in
  let e1 := env_of (LinearFence_new 0 (Z.of_nat 2) e0) in
  let ops := [OpSignal None; OpNext; OpSignal None; OpNext; OpSignal None; OpNext] in
  let final := {| base := {| m_fence := 1; m_queue := 0;
                             m_currentFenceValue := 3; m_fenceEvent := 1 |};
                  m_signalHistory := [3; 2]; m_signalIndex := 1 |} in
  let journal := [(OpSignal None, 0); (OpNext, 1); (OpSignal None, 1); (OpNext, 2);
                  (OpSignal None, 2); (OpNext, 3)] in
  let e2 := env_of (script ops fresh e1) in
  (1 <= Z.of_nat 2 <= UINT_MAX /\
   Untouched (S (fences_made e0)) (S (events_made e0)) (gpu e0) /\
   LinearFence_new 0 (Z.of_nat 2) e0 = Ok fresh e1 /\
   script ops fresh e1 = Ok (final, journal) e2 /\
   ascending 0 (map snd journal) (m_currentFenceValue (base final))) /\
  forall (j : nat) (v : Z),
    (1 <= j)%nat ->
    (j + 2 <= length (recorded journal) + 1)%nat ->
    recorded journal !! (j - 1)%nat = Some v ->
    v <= fence_value (gpu e2) (m_fence (base final)).
Proof.
  intros fresh e0 e1 ops final journal e2.
  assert (H1 : 1 <= Z.of_nat 2 <= UINT_MAX) by (unfold UINT_MAX; lia).
  assert (H2 : Untouched (S (fences_made e0)) (S (events_made e0)) (gpu e0)).
  { split; [intros q; reflexivity|intros r Hin; destruct Hin]. }
  assert (H3 : LinearFence_new 0 (Z.of_nat 2) e0 = Ok fresh e1) by (vm_compute; reflexivity).
  assert (H4 : script ops fresh e1 = Ok (final, journal) e2) by (vm_compute; reflexivity).
  assert (H5 : ascending 0 (map snd journal) (m_currentFenceValue (base final)))
    by (cbn; lia).
  split; [auto 6|].
  exact (proj1 (Next_throttles 0 2 e0 fresh e1 ops final journal e2 H1 H2 H3 H4 H5)).
Defined.

(** C1 as stated fails across the wrap-around of the counter. With capacity
    2 the first [Next] records 2^64 - 1; the counter then wraps to 0 and two
    more calls of [Next] return, the third of them while the GPU has not run
    a single command and the completed value is still 0. *)
Lemma Next_wrapped_counterexample :
  value_of ((fresh ← LinearFence_new 0 2;
             '(final, journal) ← script [OpSignal (Some (UINT64_MAX - 1));
                                         OpSignal None; OpNext;
                                         OpSignal None; OpNext; OpNext] fresh;
             r ← Fence_GetCompletedValue (m_fence (base final));
             done ← gets (fun e => retired (gpu e) 0);
             mret (recorded journal, r, done))
              (boot true []))
  = Some ([UINT64_MAX; 0; 0], 0, O) /\
  0 < UINT64_MAX.
Proof. split; [vm_compute; reflexivity | reflexivity]. Qed.

(** The throttle at work, with capacity 2 and a signal before each call: with
    a GPU that stands still the second [Next] sleeps for good on the value of
    the first; when the GPU runs the first signal during the sleep, the call
    returns, having waited once. *)
Example Next_waits_for_the_GPU :
  let run := fun t =>
    (lf ← LinearFence_new 0 2;
     script [OpSignal None; OpNext; OpSignal None; OpNext] lf) (boot true t) in
  error_of (run []) = Some Blocked /\
  error_of (run (replicate 9 ([], 0) ++ [([O], 0)])) = None /\
  calls (env_of (run (replicate 9 ([], 0) ++ [([O], 0)]))) =
    [CallQueryInterface 0; CallGetDevice 0; CallCreateFence 0;
     CallCreateEvent false false;
     CallQueueSignal 0 1 1; CallGetCompletedValue 1;
     CallQueueSignal 0 1 2; CallGetCompletedValue 1;
     CallSetEventOnCompletion 1 1 1;
     CallWaitForSingleObjectEx 1 INFINITE false].
Proof. vm_compute. repeat split; reflexivity. Qed.

(** * Further properties of the code *)

(** ** The constructor, call by call *)

Lemma tape_ticked (e : Env) : tape (ticked e) = tl (tape e).
Proof.
  unfold ticked. destruct (tape e) as [|[b hr] t] eqn:H; [rewrite H|]; reflexivity.
Qed.

#[local] Hint Rewrite tape_ticked : env.

Lemma status_tape (e e' : Env) : tape e = tape e' -> status e = status e'.
Proof. unfold status. intros ->. reflexivity. Qed.

Lemma Fence_new_eq (pQueue : nat) (e : Env) :
  Fence_new pQueue e =
  let e1 := logged (CallQueryInterface pQueue) (ticked e) in
  let e2 := logged (CallGetDevice pQueue) (ticked e1) in
  let e3 := logged (CallCreateFence 0) (ticked e2) in
  let f := S (fences_made e3) in
  let e3' := with_gpu (new_fence f 0 (gpu e3)) (with_fences_made f e3) in
  let e4 := logged (CallCreateEvent false false) (ticked e3') in
  let h := S (events_made e4) in
  if FAILED (status e) then Fail (Threw (status e)) e1
  else if FAILED (status e1) then Fail (Threw (status e1)) e2
  else if FAILED (status e2) then Fail (Threw (status e2)) e3
  else if status e3' =? 0
       then Ok {| m_fence := f; m_queue := pQueue;
                  m_currentFenceValue := 0; m_fenceEvent := h |}
               (with_gpu (write_event h false (gpu e4)) (with_events_made h e4))
       else Fail (Threw (HRESULT_FROM_WIN32 (status e3')))
                 (with_last_error (status e3') e4).
Proof.
  unfold Fence_new. cbv zeta.
  rewrite bind_eq, QueryInterface_eq, bind_eq, ThrowIfFailed_eq.
  destruct (FAILED (status e)); [reflexivity|].
  rewrite bind_eq, GetDevice_eq, bind_eq, ThrowIfFailed_eq.
  destruct (FAILED (status _)); [reflexivity|].
  rewrite bind_eq, CreateFence_eq. cbv zeta.
  destruct (FAILED (status _)) eqn:H3.
  { rewrite bind_eq, ThrowIfFailed_eq, H3. reflexivity. }
  rewrite bind_eq, ThrowIfFailed_eq, H3.
  rewrite bind_eq, CreateEvent_eq. cbv zeta.
  destruct (status _ =? 0) eqn:Hev.
  - rewrite bind_eq. change (Nat.eqb (S ?n) O) with false. cbv iota.
    rewrite ret_eq. cbv beta iota. rewrite ret_eq. reflexivity.
  - rewrite bind_eq. change (Nat.eqb O O) with true. cbv iota.
    rewrite bind_eq. unfold GetLastError, gets. rewrite ThrowIfFailed_eq.
    env_simpl.
    rewrite HRESULT_FROM_WIN32_FAILED by (apply Z.eqb_neq; assumption). reflexivity.
Qed.

(** X1. The constructor makes its four native calls in order and stops at
    the first one that fails, throwing the status of that call, or for
    [CreateEvent] the HRESULT made of the thread's last error, which is a
    failure code whatever the error was. A construction that throws has
    created no event handle; one that returns holds a fence and an event that
    are not null, the counter 0 and the queue given. *)
Theorem Fence_new_stops_at_first_failure (pQueue : nat) (e : Env) :
  let s1 := status e in
  let s2 := status (ticked e) in
  let s3 := status (ticked (ticked e)) in
  let s4 := status (ticked (ticked (ticked e))) in
  let o := Fence_new pQueue e in
  let made := [CallQueryInterface pQueue; CallGetDevice pQueue;
               CallCreateFence 0; CallCreateEvent false false] in
  error_of o =
    (if FAILED s1 then Some (Threw s1)
     else if FAILED s2 then Some (Threw s2)
     else if FAILED s3 then Some (Threw s3)
     else if s4 =? 0 then None
     else Some (Threw (HRESULT_FROM_WIN32 s4))) /\
  calls (env_of o) =
    calls e ++ take (if FAILED s1 then 1 else if FAILED s2 then 2
                     else if FAILED s3 then 3 else 4)%nat made /\
  events_made (env_of o) =
    match error_of o with
    | Some _ => events_made e
    | None => S (events_made e)
    end /\
  (forall hr, error_of o = Some (Threw hr) -> FAILED hr = true) /\
  (forall this, value_of o = Some this ->
     m_fence this = S (fences_made e) /\ m_fenceEvent this = S (events_made e) /\
     m_currentFenceValue this = 0 /\ m_queue this = pQueue).
Proof.
  cbv zeta. rewrite Fence_new_eq. cbv zeta.
  set (e1 := logged (CallQueryInterface pQueue) (ticked e)).
  set (e2 := logged (CallGetDevice pQueue) (ticked e1)).
  set (e3 := logged (CallCreateFence 0) (ticked e2)).
  set (e3' := with_gpu (new_fence (S (fences_made e3)) 0 (gpu e3))
                       (with_fences_made (S (fences_made e3)) e3)).
  set (e4 := logged (CallCreateEvent false false) (ticked e3')).
  assert (Hs1 : status e1 = status (ticked e)) by (apply status_tape; reflexivity).
  assert (Hs2 : status e2 = status (ticked (ticked e))).
  { apply status_tape. unfold e2, e1. now env_simpl. }
  assert (Hs3 : status e3' = status (ticked (ticked (ticked e)))).
  { apply status_tape. unfold e3', e3, e2, e1. now env_simpl. }
  assert (Hc1 : calls e1 = calls e ++ [CallQueryInterface pQueue])
    by (unfold e1; now env_simpl).
  assert (Hc2 : calls e2 = calls e ++ [CallQueryInterface pQueue; CallGetDevice pQueue])
    by (unfold e2; env_simpl; rewrite Hc1, <- app_assoc; reflexivity).
  assert (Hc3 : calls e3 = calls e ++ [CallQueryInterface pQueue; CallGetDevice pQueue;
                                       CallCreateFence 0])
    by (unfold e3; env_simpl; rewrite Hc2, <- app_assoc; reflexivity).
  assert (Hc4 : calls e4 = calls e ++ [CallQueryInterface pQueue; CallGetDevice pQueue;
                                       CallCreateFence 0; CallCreateEvent false false])
    by (unfold e4, e3'; env_simpl; rewrite Hc3, <- app_assoc; reflexivity).
  assert (Hm1 : events_made e1 = events_made e) by (unfold e1; now env_simpl).
  assert (Hm2 : events_made e2 = events_made e) by (unfold e2; now env_simpl).
  assert (Hm3 : events_made e3 = events_made e) by (unfold e3; now env_simpl).
  assert (Hm4 : events_made e4 = events_made e) by (unfold e4, e3'; now env_simpl).
  assert (Hf3 : fences_made e3 = fences_made e) by (unfold e3, e2, e1; now env_simpl).
  rewrite <- Hs1, <- Hs2, <- Hs3.
  destruct (FAILED (status e)) eqn:H1.
  { cbn [error_of env_of]. repeat split; try assumption; try discriminate.
    intros hr H. injection H as <-. exact H1. }
  destruct (FAILED (status e1)) eqn:H2.
  { cbn [error_of env_of]. repeat split; try assumption; try discriminate.
    intros hr H. injection H as <-. exact H2. }
  destruct (FAILED (status e2)) eqn:H3.
  { cbn [error_of env_of]. repeat split; try assumption; try discriminate.
    intros hr H. injection H as <-. exact H3. }
  destruct (status e3' =? 0) eqn:H4.
  - cbn [error_of env_of value_of]. env_simpl. rewrite Hc4, Hm4, Hf3.
    split; [reflexivity|]. split; [reflexivity|]. split; [reflexivity|].
    split; [discriminate|].
    intros this H. injection H as <-. repeat split.
  - cbn [error_of env_of value_of]. env_simpl. repeat split; try assumption; try discriminate.
    intros hr H. injection H as <-.
    apply HRESULT_FROM_WIN32_FAILED, Z.eqb_neq, H4.
Qed.

(** ** The destructor *)

Lemma CloseHandle_eq (h : nat) (closed : list nat) (e : Env) :
  CloseHandle h closed e =
  Ok (is_open closed h (ticked e),
      if is_open closed h (ticked e) then h :: closed else closed) (ticked e).
Proof. reflexivity. Qed.

Lemma Fence_delete_eq (this : Fence) (closed : list nat) (e : Env) :
  Fence_delete this closed e =
  if Nat.eqb (m_fenceEvent this) O then Ok (this, closed) e
  else Ok (set_fenceEvent O this,
           if is_open closed (m_fenceEvent this) (ticked e)
           then m_fenceEvent this :: closed else closed) (ticked e).
Proof.
  unfold Fence_delete. destruct (Nat.eqb (m_fenceEvent this) O); [reflexivity|].
  cbn [negb]. rewrite bind_eq, CloseHandle_eq. reflexivity.
Qed.

Lemma is_open_spec (closed : list nat) (h : nat) (e : Env) :
  is_open closed h e = true <->
  h <> O /\ (h <= events_made e)%nat /\ ~ In h closed.
Proof.
  unfold is_open. rewrite !andb_true_iff, !negb_true_iff, Nat.eqb_neq, Nat.leb_le.
  split.
  - intros [[H1 H2] H3]. split; [exact H1|]. split; [exact H2|].
    intros Hin. apply not_true_iff_false in H3. apply H3.
    apply existsb_exists. exists h. split; [exact Hin|apply Nat.eqb_refl].
  - intros (H1 & H2 & H3). split; [split; assumption|].
    apply not_true_iff_false. intros Hex.
    apply existsb_exists in Hex as (x & Hin & Hx). apply Nat.eqb_eq in Hx.
    subst x. exact (H3 Hin).
Qed.

Lemma CpuWait_events_made (this : Fence) (value : Z) (e e' : Env) :
  CpuWait this value e = Ok tt e' -> events_made e' = events_made e.
Proof.
  rewrite CpuWait_eq. cbv zeta.
  destruct (_ <? _).
  - destruct (FAILED _); [discriminate|].
    destruct (event_set _ _); [|discriminate].
    intros H. injection H as <-.
    unfold woken, sleeping, registering, queried. now env_simpl.
  - intros H. injection H as <-. unfold queried. now env_simpl.
Qed.

(** No call on a fence object changes its event field or creates an
    event. *)
Lemma perform_events_made (op : Op) (lf lf' : LinearFence) (e e' : Env) :
  perform op lf e = Ok lf' e' ->
  m_fenceEvent (base lf') = m_fenceEvent (base lf) /\ events_made e' = events_made e.
Proof.
  intros Hop. destruct op as [value|value|value| | |q tag]; cbn [perform] in Hop.
  - apply bind_Ok_inv in Hop as (b & e1 & HS & H). rewrite ret_eq in H.
    injection H as <- <-. cbn [base with_base].
    apply Signal_Ok_inv in HS as (-> & _ & -> & _).
    split; [reflexivity|]. now env_simpl.
  - apply bind_Ok_inv in Hop as ([] & e1 & HS & H). rewrite ret_eq in H.
    injection H as <- <-. split; [reflexivity|].
    unfold GpuWait in HS. rewrite GpuWait_static_eq in HS. cbv zeta in HS.
    destruct (FAILED (status e)); [discriminate|]. injection HS as <-. now env_simpl.
  - apply bind_Ok_inv in Hop as ([] & e1 & HS & H). rewrite ret_eq in H.
    injection H as <- <-. split; [reflexivity|].
    apply (CpuWait_events_made _ _ _ _ HS).
  - apply bind_Ok_inv in Hop as (b & e1 & HF & H). rewrite ret_eq in H.
    injection H as <- <-. cbn [base with_base].
    apply FlushGpuQueue_Ok_inv in HF as (e2 & HS & HW).
    apply CpuWait_events_made in HW. rewrite HW.
    apply Signal_Ok_inv in HS as (-> & _ & -> & _).
    split; [reflexivity|]. now env_simpl.
  - apply Next_Ok_inv in Hop as (history & r & v & _ & _ & _ & HW & ->).
    cbn [base]. split; [reflexivity|]. apply (CpuWait_events_made _ _ _ _ HW).
  - apply bind_Ok_inv in Hop as ([] & e1 & HS & H). rewrite ret_eq in H.
    injection H as <- <-. split; [reflexivity|].
    rewrite Queue_Submit_eq in HS. injection HS as <-. now env_simpl.
Qed.

(** X2. The destructor of a Fence, whatever its counter, whose event field
    holds an open handle closes that handle and sets the field to null; the
    other fields stand. The handle is closed from then on and the other
    handles are as they were. A destructor that finds the field null, on any
    fence object, calls nothing. The event field of a constructed Fence holds
    a handle the runtime has handed out, and no call on the object changes the
    field or creates an event: the handle is open at the destructor unless
    someone else closed it. *)
Theorem Fence_delete_closes_its_event (this : Fence) (closed : list nat) (e : Env)
    (Hh : m_fenceEvent this <> O)
    (Hmade : (m_fenceEvent this <= events_made e)%nat)
    (Hopen : ~ In (m_fenceEvent this) closed) :
  is_open closed (m_fenceEvent this) e = true /\
  Fence_delete this closed e =
    Ok ({| m_fence := m_fence this; m_queue := m_queue this;
           m_currentFenceValue := m_currentFenceValue this; m_fenceEvent := O |},
        m_fenceEvent this :: closed) (ticked e) /\
  is_open (m_fenceEvent this :: closed) (m_fenceEvent this) (ticked e) = false /\
  (forall h, h <> m_fenceEvent this ->
     is_open (m_fenceEvent this :: closed) h (ticked e) = is_open closed h e) /\
  (forall (that : Fence) (closed' : list nat) (e' : Env),
     m_fenceEvent that = O -> Fence_delete that closed' e' = Ok (that, closed') e') /\
  (forall (pQueue : nat) (e0 : Env) (fresh : Fence) (e1 : Env),
     Fence_new pQueue e0 = Ok fresh e1 ->
     m_fenceEvent fresh <> O /\ (m_fenceEvent fresh <= events_made e1)%nat) /\
  (forall (op : Op) (lf lf' : LinearFence) (e1 e2 : Env),
     perform op lf e1 = Ok lf' e2 ->
     m_fenceEvent (base lf') = m_fenceEvent (base lf) /\ events_made e2 = events_made e1).
Proof.
  assert (Ho : forall e', events_made e' = events_made e ->
                          is_open closed (m_fenceEvent this) e' = true).
  { intros e' He'. apply is_open_spec. rewrite He'. auto. }
  split; [apply Ho; reflexivity|]. split; [|split; [|split; [|split; [|split]]]].
  - rewrite Fence_delete_eq, Ho by apply ticked_events_made.
    apply Nat.eqb_neq in Hh. rewrite Hh. reflexivity.
  - apply not_true_iff_false. intros H. apply is_open_spec in H as (_ & _ & H).
    apply H. left. reflexivity.
  - intros h Hne. unfold is_open. rewrite ticked_events_made.
    cbn [existsb]. apply Nat.eqb_neq in Hne. rewrite Hne. reflexivity.
  - intros that closed' e' Hnull. rewrite Fence_delete_eq, Hnull. reflexivity.
  - intros pQueue e0 fresh e1 Hnew.
    pose proof (Fence_new_cases pQueue e0) as HN. rewrite Hnew in HN.
    destruct HN as (-> & _ & -> & _). cbn [m_fenceEvent]. split; [discriminate|lia].
  - apply perform_events_made.
Qed.

Lemma Fence_delete_closes_its_event_witness :
  let this := {| m_fence := 1; m_queue := 0; m_currentFenceValue := 2; m_fenceEvent := 1 |} in
  let e := env_of ((fresh ← Fence_new 0; a ← Signal fresh (arg None); Signal a (arg None))
                     (boot true [])) in
  (m_fenceEvent this <> O /\ (m_fenceEvent this <= events_made e)%nat /\
   ~ In (m_fenceEvent this) []) /\
  Fence_delete this [] e =
    Ok ({| m_fence := 1; m_queue := 0; m_currentFenceValue := 2; m_fenceEvent := O |},
        [m_fenceEvent this]) (ticked e) /\
  is_open [m_fenceEvent this] (m_fenceEvent this) (ticked e) = false.
Proof.
  intros this e.
  assert (H1 : m_fenceEvent this <> O) by discriminate.
  assert (H2 : (m_fenceEvent this <= events_made e)%nat) by (vm_compute; lia).
  assert (H3 : ~ In (m_fenceEvent this) []) by (intros []).
  split; [auto|].
  destruct (Fence_delete_closes_its_event this [] e H1 H2 H3) as (_ & Hd & Hc & _).
  split; [exact Hd|exact Hc].
Defined.

(** ** CpuWait blocks until the value is reached *)

Lemma CpuWait_reached (this : Fence) (v : Z) (e : Env) :
  v <> UnspecifiedFenceValue ->
  v <= fence_value (gpu (queried this e)) (m_fence this) ->
  CpuWait this v e = Ok tt (queried this e).
Proof.
  intros Hv Hge. rewrite CpuWait_eq. cbv zeta.
  apply Z.eqb_neq in Hv. rewrite Hv.
  apply Z.ltb_ge in Hge. rewrite Hge. reflexivity.
Qed.

(** X3. For a fence object that owns its native fence and whose event is at
    rest, and a value other than 2^64 - 1: [CpuWait] returns exactly if the
    fence holds the value when it is queried, or else when the thread wakes
    from its sleep on the event; otherwise the thread sleeps on. When the call
    has returned the fence holds the value and the event is at rest again,
    reset and with no registration left, ready for the next wait. *)
Theorem CpuWait_returns_iff_reached (this : Fence) (v : Z) (e : Env)
    (Hown : Owns this (gpu e))
    (Hidle : Idle this (gpu e))
    (Hv : v <> UnspecifiedFenceValue)
    (Hok : FAILED (status (queried this e)) = false) :
  ((exists e', CpuWait this v e = Ok tt e') <->
   v <= fence_value (gpu (queried this e)) (m_fence this) \/
   v <= fence_value (gpu (sleeping this v e)) (m_fence this)) /\
  (error_of (CpuWait this v e) = Some Blocked <->
   fence_value (gpu (queried this e)) (m_fence this) < v /\
   fence_value (gpu (sleeping this v e)) (m_fence this) < v) /\
  (forall e', CpuWait this v e = Ok tt e' ->
     v <= fence_value (gpu e') (m_fence this) /\
     Idle this (gpu e') /\ Owns this (gpu e')).
Proof.
  assert (Hspec : forall e', CpuWait this v e = Ok tt e' ->
            v <= fence_value (gpu e') (m_fence this) /\
            Idle this (gpu e') /\ Owns this (gpu e')).
  { intros e' HW.
    destruct (CpuWait_Ok_spec this v e e' Hown Hidle HW) as (H1 & H2 & H3 & _).
    apply Z.eqb_neq in Hv. rewrite Hv in H3. auto. }
  split; [|split; [|exact Hspec]].
  - destruct (Z_lt_le_dec (fence_value (gpu (queried this e)) (m_fence this)) v)
      as [Hlt|Hge].
    + destruct (CpuWait_blocks_until this v e Hown Hidle Hv Hlt Hok) as [Hyes Hno].
      split.
      * intros [e' HW]. right.
        destruct (Z_lt_le_dec (fence_value (gpu (sleeping this v e)) (m_fence this)) v)
          as [Hlt'|Hge']; [|exact Hge'].
        rewrite (Hno Hlt') in HW. discriminate.
      * intros [H|H]; [lia|]. eexists. apply Hyes, H.
    + split; [intros _; left; exact Hge|]. intros _.
      eexists. apply CpuWait_reached; assumption.
  - destruct (Z_lt_le_dec (fence_value (gpu (queried this e)) (m_fence this)) v)
      as [Hlt|Hge].
    + destruct (CpuWait_blocks_until this v e Hown Hidle Hv Hlt Hok) as [Hyes Hno].
      split.
      * intros HB. split; [exact Hlt|].
        destruct (Z_lt_le_dec (fence_value (gpu (sleeping this v e)) (m_fence this)) v)
          as [Hlt'|Hge']; [exact Hlt'|].
        rewrite (Hyes Hge') in HB. discriminate.
      * intros [_ Hlt']. rewrite (Hno Hlt'). reflexivity.
    + split; [|lia]. intros HB.
      rewrite CpuWait_reached in HB by assumption. discriminate.
Qed.

Lemma CpuWait_returns_iff_reached_witness :
  let this := {| m_fence := 1; m_queue := 0; m_currentFenceValue := 1; m_fenceEvent := 1 |} in
  let e := env_of ((fresh ← Fence_new 0; Signal fresh (arg None))
                     (boot true (replicate 7 ([], 0) ++ [([O], 0)]))) in
  (Owns this (gpu e) /\ Idle this (gpu e) /\ 1 <> UnspecifiedFenceValue /\
   FAILED (status (queried this e)) = false) /\
  ((exists e', CpuWait this 1 e = Ok tt e') <->
   1 <= fence_value (gpu (queried this e)) (m_fence this) \/
   1 <= fence_value (gpu (sleeping this 1 e)) (m_fence this)) /\
  1 <= fence_value (gpu (sleeping this 1 e)) (m_fence this).
Proof.
  intros this e.
  assert (H1 : Owns this (gpu e)).
  { split; [|vm_compute; split; discriminate].
    intros q Hq. destruct q as [|q]; [exfalso; apply Hq; reflexivity|].
    vm_compute. reflexivity. }
  assert (H2 : Idle this (gpu e)).
  { split; [vm_compute; reflexivity|intros r Hin; vm_compute in Hin; destruct Hin]. }
  assert (H3 : 1 <> UnspecifiedFenceValue) by discriminate.
  assert (H4 : FAILED (status (queried this e)) = false) by (vm_compute; reflexivity).
  split; [auto|].
  split; [exact (proj1 (CpuWait_returns_iff_reached this 1 e H1 H2 H3 H4))|].
  vm_compute. discriminate.
Defined.

(** ** The completed value along a run *)

Lemma perform_discipline (op : Op) (this this' : LinearFence) (e e' : Env) :
  Owns (base this) (gpu e) ->
  Idle (base this) (gpu e) ->
  perform op this e = Ok this' e' ->
  m_currentFenceValue (base this) <= m_currentFenceValue (base this') ->
  m_fence (base this') = m_fence (base this) /\
  m_queue (base this') = m_queue (base this) /\
  Owns (base this') (gpu e') /\ Idle (base this') (gpu e') /\
  fence_value (gpu e) (m_fence (base this))
    <= fence_value (gpu e') (m_fence (base this)).
Proof.
  intros Hown Hidle Hop Hmono.
  destruct op as [value|value|value| | |q tag]; cbn [perform] in Hop.
  - apply bind_Ok_inv in Hop as (b & e1 & HS & H). rewrite ret_eq in H.
    injection H as <- <-. cbn [base with_base] in *.
    destruct (Signal_Ok_spec _ _ e b e1 Hown Hidle HS Hmono)
      as (Hf & Hq & _ & Hown' & Hidle' & Hm). auto.
  - apply bind_Ok_inv in Hop as ([] & e1 & HS & H). rewrite ret_eq in H.
    injection H as <- <-.
    destruct (GpuWait_Ok_spec _ _ e e1 Hown Hidle HS) as (Hown' & Hidle' & Hm). auto.
  - apply bind_Ok_inv in Hop as ([] & e1 & HS & H). rewrite ret_eq in H.
    injection H as <- <-.
    destruct (CpuWait_Ok_spec _ _ e e1 Hown Hidle HS) as (Hown' & Hidle' & _ & Hm). auto.
  - apply bind_Ok_inv in Hop as (b & e1 & HS & H). rewrite ret_eq in H.
    injection H as <- <-. cbn [base with_base] in *.
    destruct (FlushGpuQueue_Ok_spec _ e b e1 Hown Hidle HS Hmono)
      as (Hf & Hq & _ & Hown' & Hidle' & Hm & _). auto.
  - apply Next_Ok_inv in Hop as (history & r & v & _ & _ & _ & HW & ->).
    cbn [base].
    destruct (CpuWait_Ok_spec _ _ e e' Hown Hidle HW) as (Hown' & Hidle' & _ & Hm). auto.
  - apply bind_Ok_inv in Hop as ([] & e1 & HS & H). rewrite ret_eq in H.
    injection H as <- <-. rewrite Queue_Submit_eq in HS. injection HS as <-.
    destruct (Queue_Submit_spec (base this) q tag e Hown Hidle) as (Hown' & Hidle' & Hm).
    rewrite Queue_Submit_eq in Hown', Hidle', Hm. cbn [env_of] in *. auto.
Qed.

Lemma script_discipline (ops : list Op) :
  forall (this final : LinearFence) (journal : list (Op * Z)) (e e' : Env),
  Owns (base this) (gpu e) ->
  Idle (base this) (gpu e) ->
  script ops this e = Ok (final, journal) e' ->
  ascending (m_currentFenceValue (base this)) (map snd journal)
            (m_currentFenceValue (base final)) ->
  m_fence (base final) = m_fence (base this) /\
  m_queue (base final) = m_queue (base this) /\
  Owns (base final) (gpu e') /\ Idle (base final) (gpu e') /\
  fence_value (gpu e) (m_fence (base this))
    <= fence_value (gpu e') (m_fence (base this)).
Proof.
  induction ops as [|op ops IH]; intros this final journal e e' Hown Hidle Hrun Hasc.
  - cbn [script] in Hrun. rewrite ret_eq in Hrun. injection Hrun as <- <- <-.
    split; [reflexivity|]. split; [reflexivity|]. split; [exact Hown|].
    split; [exact Hidle|]. lia.
  - cbn [script] in Hrun.
    apply bind_Ok_inv in Hrun as (this1 & e1 & Hop & Hrun).
    apply bind_Ok_inv in Hrun as ([final' journal'] & e2 & Hrest & Hrun).
    rewrite ret_eq in Hrun. injection Hrun as <- <- <-.
    cbn [map snd ascending] in Hasc. destruct Hasc as [_ Hasc].
    destruct (script_counters ops this1 final' journal' e1 e2 _ Hrest Hasc)
      as [Hstep Hasc'].
    destruct (perform_discipline op this this1 e e1 Hown Hidle Hop Hstep)
      as (Hf & Hq & Hown1 & Hidle1 & Hm1).
    destruct (IH this1 final' journal' e1 e2 Hown1 Hidle1 Hrest Hasc')
      as (Hf' & Hq' & Hown2 & Hidle2 & Hm2).
    rewrite Hf in Hf', Hm2. rewrite Hq in Hq'.
    split; [exact Hf'|]. split; [exact Hq'|]. split; [exact Hown2|].
    split; [exact Hidle2|]. lia.
Qed.

Lemma Fence_new_value (pQueue : nat) (e : Env) (this : Fence) (e' : Env) :
  Untouched (S (fences_made e)) (S (events_made e)) (gpu e) ->
  Fence_new pQueue e = Ok this e' ->
  fence_value (gpu e') (m_fence this) = 0.
Proof.
  intros Hclean Hnew.
  pose proof (Fence_new_cases pQueue e) as HN. rewrite Hnew in HN.
  destruct HN as (-> & _ & _ & _ & _ & s & s' & ->).
  set (f := S (fences_made e)) in *. set (h := S (events_made e)) in *.
  destruct (gpu_run_Untouched f h s _ Hclean) as [[Hs1 Hr1] _].
  assert (H2 : Untouched f h (new_fence f 0 (gpu_run s (gpu e)))) by (split; assumption).
  destruct (gpu_run_Untouched f h s' _ H2) as [_ Hv3].
  cbn [new_fence fence_value] in Hv3. rewrite fn_lookup_insert in Hv3.
  cbn [m_fence write_event fence_value]. exact Hv3.
Qed.

(** X4. Take a LinearFence constructed where nothing refers to its fence
    yet, and a run of calls during which the counter never decreased. When
    the run has returned, the completed value of the native fence lies
    between 0 and the counter, and so does every value the fence takes
    afterwards, whatever the GPU executes: the completed value keeps rising
    and never passes the last value signaled. *)
Theorem completed_value_within_counter (pQueue : nat) (count : Z) (e0 : Env)
    (fresh : LinearFence) (e1 : Env) (ops : list Op) (final : LinearFence)
    (journal : list (Op * Z)) (e2 : Env)
    (Hclean : Untouched (S (fences_made e0)) (S (events_made e0)) (gpu e0))
    (Hnew : LinearFence_new pQueue count e0 = Ok fresh e1)
    (Hrun : script ops fresh e1 = Ok (final, journal) e2)
    (Hmono : ascending 0 (map snd journal) (m_currentFenceValue (base final))) :
  0 <= fence_value (gpu e2) (m_fence (base final))
    <= m_currentFenceValue (base final) /\
  forall sched : list nat,
    fence_value (gpu e2) (m_fence (base final))
      <= fence_value (gpu_run sched (gpu e2)) (m_fence (base final))
      <= m_currentFenceValue (base final).
Proof.
  apply LinearFence_new_Ok_inv in Hnew as (b & Hb & ->).
  destruct (Fence_new_Ok_spec pQueue e0 b e1 Hclean Hb) as (Hc & Hown & Hidle).
  pose proof (Fence_new_value pQueue e0 b e1 Hclean Hb) as Hv.
  rewrite <- Hc in Hmono.
  set (fresh := {| base := b; m_signalHistory := replicate (Z.to_nat count) 0;
                   m_signalIndex := 0 |}) in *.
  destruct (script_discipline ops fresh final journal e1 e2 Hown Hidle Hrun Hmono)
    as (Hf & _ & Hown2 & _ & Hm).
  cbn [base fresh] in Hf, Hm. rewrite Hv in Hm. rewrite Hf.
  pose proof (ascending_top _ _ Hown2) as Htop. rewrite Hf in Htop.
  split; [lia|]. intros sched.
  destruct (gpu_run_Owns (base final) sched _ Hown2) as [Hown3 Hm3].
  pose proof (ascending_top _ _ Hown3) as Htop3. rewrite Hf in Hm3, Htop3. lia.
Qed.

Lemma completed_value_within_counter_witness :
  let fresh := {| base := {| m_fence := 1; m_queue := 0;
                             m_currentFenceValue := 0; m_fenceEvent := 1 |};
                  m_signalHistory := [0; 0]; m_signalIndex := 0 |} in
  let e0 := boot true [] in
  let e1 := env_of (LinearFence_new 0 2 e0) in
  let ops := [OpSignal None; OpSubmit 0 7; OpSignal (Some 5)] in
  let final := with_base (set_currentFenceValue 5 (base fresh)) fresh in
  let journal := [(OpSignal None, 0); (OpSubmit 0 7, 1); (OpSignal (Some 5), 1)] in
  let e2 := env_of (script ops fresh e1) in
  (Untouched (S (fences_made e0)) (S (events_made e0)) (gpu e0) /\
   LinearFence_new 0 2 e0 = Ok fresh e1 /\
   script ops fresh e1 = Ok (final, journal) e2 /\
   ascending 0 (map snd journal) (m_currentFenceValue (base final))) /\
  forall sched : list nat,
    fence_value (gpu e2) (m_fence (base final))
      <= fence_value (gpu_run sched (gpu e2)) (m_fence (base final))
      <= m_currentFenceValue (base final).
Proof.
  intros fresh e0 e1 ops final journal e2.
  assert (H1 : Untouched (S (fences_made e0)) (S (events_made e0)) (gpu e0)).
  { split; [intros q; reflexivity|intros r Hin; destruct Hin]. }
  assert (H2 : LinearFence_new 0 2 e0 = Ok fresh e1) by (vm_compute; reflexivity).
  assert (H3 : script ops fresh e1 = Ok (final, journal) e2) by (vm_compute; reflexivity).
  assert (H4 : ascending 0 (map snd journal) (m_currentFenceValue (base final)))
    by (cbn; lia).
  split; [auto|].
  exact (proj2 (completed_value_within_counter 0 2 e0 fresh e1 ops final journal e2
                  H1 H2 H3 H4)).
Defined.

(** ** The first calls of Next *)

(** X5. On a LinearFence of capacity [n], constructed where nothing refers
    to its fence yet and used with a counter that never decreased, a call of
    [Next] that follows fewer than [n - 1] earlier ones finds a slot that was
    never written: it asks for the completed value once and returns, without
    registering the event or sleeping, whatever the GPU has or has not
    executed. The CPU can run [n - 1] calls ahead of the GPU. *)
Theorem Next_free_run (pQueue n : nat) (e0 : Env) (fresh : LinearFence) (e1 : Env)
    (ops : list Op) (final : LinearFence) (journal : list (Op * Z)) (e2 : Env)
    (Hn : 1 <= Z.of_nat n <= UINT_MAX)
    (Hclean : Untouched (S (fences_made e0)) (S (events_made e0)) (gpu e0))
    (Hnew : LinearFence_new pQueue (Z.of_nat n) e0 = Ok fresh e1)
    (Hrun : script ops fresh e1 = Ok (final, journal) e2)
    (Hmono : ascending 0 (map snd journal) (m_currentFenceValue (base final)))
    (Hfew : (length (recorded journal) + 1 < n)%nat) :
  exists this',
    Next final e2 = Ok this' (queried (base final) e2) /\
    calls (queried (base final) e2)
      = calls e2 ++ [CallGetCompletedValue (m_fence (base final))] /\
    base this' = base final.
Proof.
  destruct (LinearFence_new_Paced pQueue n e0 fresh e1 Hclean Hnew) as [Hc Hp].
  apply LinearFence_new_Ok_inv in Hnew as (b & Hb & Hfresh).
  pose proof (Fence_new_value pQueue e0 b e1 Hclean Hb) as Hv.
  rewrite <- Hc in Hmono.
  pose proof (script_Paced n ops [] fresh final journal e1 e2 Hn Hp Hrun Hmono)
    as (Hring & Hown2 & _).
  destruct Hp as (_ & Hown & Hidle & _).
  destruct (script_discipline ops fresh final journal e1 e2 Hown Hidle Hrun Hmono)
    as (Hf & _ & _ & _ & Hm).
  cbn [app] in Hring.
  assert (Hfv : fence_value (gpu e1) (m_fence (base fresh)) = 0)
    by (rewrite Hfresh; exact Hv).
  rewrite Hfv, <- Hf in Hm.
  destruct (Ring_Next_eq n _ final e2 Hn Hring) as (v & Hlook & HN).
  destruct (Ring_advance n _ final ltac:(lia) Hring) as (_ & Hslot).
  specialize (Hslot v Hlook).
  assert (Hcmp : (n <=? length (recorded journal) + 1)%nat = false)
    by (apply Nat.leb_gt; lia).
  rewrite Hcmp in Hslot. subst v.
  assert (Hq : 0 <= fence_value (gpu (queried (base final) e2)) (m_fence (base final))).
  { rewrite gpu_queried.
    destruct (gpu_run_Owns (base final) (burst e2) _ Hown2) as [_ Hm2]. lia. }
  rewrite (CpuWait_reached (base final) 0 e2 ltac:(discriminate) Hq) in HN.
  eexists. split; [exact HN|]. split; [apply calls_queried|reflexivity].
Qed.

Lemma Next_free_run_witness :
  let fresh := {| base := {| m_fence := 1; m_queue := 0;
                             m_currentFenceValue := 0; m_fenceEvent := 1 |};
                  m_signalHistory := [0; 0; 0]; m_signalIndex := 0 |} in
  let e0 := boot true [] in
  let e1 := env_of (LinearFence_new 0 (Z.of_nat 3) e0) in
  let ops := [OpSignal None; OpNext; OpSignal None] in
  let final := {| base := {| m_fence := 1; m_queue := 0;
                             m_currentFenceValue := 2; m_fenceEvent := 1 |};
                  m_signalHistory := [1; 0; 0]; m_signalIndex := 1 |} in
  let journal := [(OpSignal None, 0); (OpNext, 1); (OpSignal None, 1)] in
  let e2 := env_of (script ops fresh e1) in
  (1 <= Z.of_nat 3 <= UINT_MAX /\
   Untouched (S (fences_made e0)) (S (events_made e0)) (gpu e0) /\
   LinearFence_new 0 (Z.of_nat 3) e0 = Ok fresh e1 /\
   script ops fresh e1 = Ok (final, journal) e2 /\
   ascending 0 (map snd journal) (m_currentFenceValue (base final)) /\
   (length (recorded journal) + 1 < 3)%nat) /\
  exists this',
    Next final e2 = Ok this' (queried (base final) e2) /\
    calls (queried (base final) e2)
      = calls e2 ++ [CallGetCompletedValue (m_fence (base final))] /\
    base this' = base final.
Proof.
  intros fresh e0 e1 ops final journal e2.
  assert (H1 : 1 <= Z.of_nat 3 <= UINT_MAX) by (unfold UINT_MAX; lia).
  assert (H2 : Untouched (S (fences_made e0)) (S (events_made e0)) (gpu e0)).
  { split; [intros q; reflexivity|intros r Hin; destruct Hin]. }
  assert (H3 : LinearFence_new 0 (Z.of_nat 3) e0 = Ok fresh e1) by (vm_compute; reflexivity).
  assert (H4 : script ops fresh e1 = Ok (final, journal) e2) by (vm_compute; reflexivity).
  assert (H5 : ascending 0 (map snd journal) (m_currentFenceValue (base final)))
    by (cbn; lia).
  assert (H6 : (length (recorded journal) + 1 < 3)%nat) by (cbn; lia).
  split; [auto 7|].
  exact (Next_free_run 0 3 e0 fresh e1 ops final journal e2 H1 H2 H3 H4 H5 H6).
Defined.

(** ** One GPU step, seen from outside *)

(** A GPU step on [q] either changes nothing (empty queue, or a wait that
    stalls), or retires the oldest command [c] of [q]: the other queues stand,
    and the fences stand except the one [c] signals. *)
Lemma gpu_exec_cases (q : nat) (g : Gpu) :
  gpu_exec q g = g \/
  exists c rest,
    queue g q = c :: rest /\
    queue (gpu_exec q g) q = rest /\
    retired (gpu_exec q g) q = S (retired g q) /\
    (forall q', q' <> q ->
       queue (gpu_exec q g) q' = queue g q' /\
       retired (gpu_exec q g) q' = retired g q') /\
    (forall f, fence_value (gpu_exec q g) f =
               match c with
               | CmdSignal f' w => if Nat.eqb f' f then w else fence_value g f
               | _ => fence_value g f
               end) /\
    match c with
    | CmdWait f v => v <= fence_value g f
    | _ => True
    end.
Proof.
  unfold gpu_exec. destruct (queue g q) as [|c rest] eqn:Hq; [left; reflexivity|].
  assert (Hretire : forall g0, queue g0 = queue g -> retired g0 = retired g ->
            queue (retire q rest g0) q = rest /\
            retired (retire q rest g0) q = S (retired g q) /\
            (forall q', q' <> q ->
               queue (retire q rest g0) q' = queue g q' /\
               retired (retire q rest g0) q' = retired g q')).
  { intros g0 Hq0 Hr0. cbn [retire queue retired]. rewrite Hq0, Hr0.
    rewrite !fn_lookup_insert. split; [reflexivity|]. split; [reflexivity|].
    intros q' Hne. rewrite !fn_lookup_insert_ne by (apply not_eq_sym, Hne). auto. }
  destruct c as [f' w|f' v|tag].
  - right. exists (CmdSignal f' w), rest.
    destruct (Hretire (signal_fence f' w g) eq_refl eq_refl) as (H1 & H2 & H3).
    split; [reflexivity|]. split; [exact H1|]. split; [exact H2|]. split; [exact H3|].
    split; [|exact I].
    intros f. cbn [retire signal_fence fence_value].
    destruct (Nat.eqb f' f) eqn:Hf.
    + apply Nat.eqb_eq in Hf. subst f'. apply fn_lookup_insert.
    + apply Nat.eqb_neq in Hf. apply fn_lookup_insert_ne, Hf.
  - destruct (fence_value g f' <? v) eqn:Hlt; [left; reflexivity|].
    right. exists (CmdWait f' v), rest.
    destruct (Hretire g eq_refl eq_refl) as (H1 & H2 & H3).
    split; [reflexivity|]. split; [exact H1|]. split; [exact H2|]. split; [exact H3|].
    split; [reflexivity|]. apply Z.ltb_ge, Hlt.
  - right. exists (CmdWork tag), rest.
    destruct (Hretire g eq_refl eq_refl) as (H1 & H2 & H3).
    split; [reflexivity|]. split; [exact H1|]. split; [exact H2|]. split; [exact H3|].
    split; [reflexivity|exact I].
Qed.

Lemma signals_on_head_nil (f : nat) (c : Cmd) (l : list Cmd) :
  signals_on f (c :: l) = [] ->
  signals_on f l = [] /\
  match c with
  | CmdSignal f' w => Nat.eqb f' f = false
  | _ => True
  end.
Proof.
  rewrite signals_on_cons. destruct c as [f' w|f' v|tag]; auto.
  destruct (Nat.eqb f' f); [discriminate|auto].
Qed.

(** A GPU step keeps the signals of [f] on the queue [mq], and a step on
    another queue leaves the fence [f] alone. *)
Lemma gpu_exec_Sole (f mq q : nat) (g : Gpu) :
  Sole f mq g ->
  Sole f mq (gpu_exec q g) /\
  (q <> mq -> fence_value (gpu_exec q g) f = fence_value g f).
Proof.
  intros Hsole.
  destruct (gpu_exec_cases q g) as [->|(c & rest & Hq & Hq' & _ & Hother & Hfv & _)];
    [auto|].
  split.
  - intros q' Hne. destruct (decide (q' = q)) as [->|Hqq].
    + rewrite Hq'. specialize (Hsole q Hne). rewrite Hq in Hsole.
      apply signals_on_head_nil in Hsole. apply Hsole.
    + destruct (Hother q' Hqq) as [-> _]. apply Hsole, Hne.
  - intros Hne. rewrite Hfv. specialize (Hsole q Hne). rewrite Hq in Hsole.
    apply signals_on_head_nil in Hsole as [_ Hc].
    destruct c as [f' w|f' v|tag]; try reflexivity. rewrite Hc. reflexivity.
Qed.

Lemma submitted_gpu_exec (q' q : nat) (g : Gpu) :
  submitted q (gpu_exec q' g) = submitted q g.
Proof.
  unfold submitted.
  destruct (gpu_exec_cases q' g) as [->|(c & rest & Hq & Hq' & Hr & Hother & _)];
    [reflexivity|].
  destruct (decide (q = q')) as [->|Hne].
  - rewrite Hq', Hr, Hq. cbn [length]. lia.
  - destruct (Hother q Hne) as [-> ->]. reflexivity.
Qed.

Lemma submitted_gpu_run (s : list nat) (q : nat) : forall g,
  submitted q (gpu_run s g) = submitted q g.
Proof.
  induction s as [|q' s IH]; intros g; [reflexivity|].
  cbn [gpu_run fold_left]. unfold gpu_run in IH. rewrite IH. apply submitted_gpu_exec.
Qed.

(** ** FlushGpuQueue drains the queue *)

Lemma gpu_exec_Draining (f mq : nat) (v : Z) (q : nat) (g : Gpu) :
  Sole f mq g -> Draining f mq v g -> Draining f mq v (gpu_exec q g).
Proof.
  intros Hsole Hd.
  destruct (gpu_exec_Sole f mq q g Hsole) as [_ Hkeep].
  destruct (gpu_exec_cases q g) as [->|(c & rest & Hq & Hq' & _ & Hother & Hfv & _)];
    [exact Hd|].
  destruct (decide (q = mq)) as [->|Hne].
  - destruct Hd as [(Hlt & pre & Hpre & Hall)|[Hempty _]]; [|congruence].
    rewrite Hpre in Hq. destruct pre as [|c0 pre].
    + right. cbn [app] in Hq. injection Hq as <- <-. split; [exact Hq'|].
      rewrite Hfv, Nat.eqb_refl. reflexivity.
    + left. cbn [app] in Hq. injection Hq as <- <-.
      rewrite signals_on_cons in Hall. split.
      * rewrite Hfv. destruct c0 as [f' w|f' w|tag]; try exact Hlt.
        destruct (Nat.eqb f' f); [|exact Hlt].
        apply Forall_cons in Hall as [Hw _]. exact Hw.
      * exists pre. split; [exact Hq'|].
        destruct c0 as [f' w|f' w|tag]; try exact Hall.
        destruct (Nat.eqb f' f); [|exact Hall].
        apply Forall_cons in Hall as [_ Hall]. exact Hall.
  - destruct (Hother mq (not_eq_sym Hne)) as [Hsame _].
    unfold Draining. rewrite Hsame, (Hkeep Hne). exact Hd.
Qed.

Lemma gpu_run_Draining (f mq : nat) (v : Z) (s : list nat) : forall g,
  Sole f mq g -> Draining f mq v g ->
  Sole f mq (gpu_run s g) /\ Draining f mq v (gpu_run s g).
Proof.
  induction s as [|q s IH]; intros g Hsole Hd; [auto|].
  cbn [gpu_run fold_left]. apply IH.
  - apply gpu_exec_Sole, Hsole.
  - apply gpu_exec_Draining; assumption.
Qed.

Lemma ascending_Forall (l : list Z) : forall lo hi,
  ascending lo l hi -> Forall (fun w => w <= hi) l.
Proof.
  induction l as [|w l IH]; intros lo hi H; [constructor|].
  destruct H as [_ H]. constructor; [eapply ascending_le, H|eapply IH, H].
Qed.

(** The runtime when [CpuWait] has returned: the GPU ran, and if the thread
    slept, the event was registered, the GPU ran on, and the event was
    reset. *)
Lemma CpuWait_Ok_gpu (this : Fence) (value : Z) (e e' : Env) :
  CpuWait this value e = Ok tt e' ->
  exists s1,
    gpu e' = gpu_run s1 (gpu e) \/
    exists s2 w,
      gpu e' = write_event (m_fenceEvent this) false
                 (gpu_run s2 (register_event (m_fence this) w (m_fenceEvent this)
                                             (gpu_run s1 (gpu e)))).
Proof.
  rewrite CpuWait_eq. cbv zeta.
  set (v := if value =? UnspecifiedFenceValue then m_currentFenceValue this else value).
  destruct (_ <? _).
  - destruct (FAILED _); [discriminate|].
    destruct (event_set _ _); [|discriminate].
    intros H. injection H as <-.
    destruct (gpu_sleeping this v e) as (s1 & s2 & Hg).
    exists s1. right. exists s2, v. unfold woken. env_simpl. rewrite Hg. reflexivity.
  - intros H. injection H as <-. exists (burst e). left. apply gpu_queried.
Qed.

(** X6. [FlushGpuQueue] drains the queue of the fence. When the fence object
    owns its native fence, its event is at rest and the counter is below
    2^64 - 1, then at the return of [FlushGpuQueue] nothing is pending on the
    queue: every command submitted on it before the call, and the signal of
    the call itself, has retired. *)
Theorem FlushGpuQueue_drains (this this' : Fence) (e e' : Env)
    (Hown : Owns this (gpu e))
    (Hidle : Idle this (gpu e))
    (Hlo : 0 <= m_currentFenceValue this)
    (Hhi : m_currentFenceValue this < UINT64_MAX)
    (Hrun : FlushGpuQueue this e = Ok this' e') :
  queue (gpu e') (m_queue this) = [] /\
  retired (gpu e') (m_queue this) = S (submitted (m_queue this) (gpu e)).
Proof.
  set (f := m_fence this). set (mq := m_queue this).
  pose proof (FlushGpuQueue_Ok_inv this e this' e' Hrun) as (e1 & HS & HW).
  pose proof (Signal_Ok_inv this _ e this' e1 HS) as (Hthis & _ & He1 & _).
  change (UnspecifiedFenceValue =? UnspecifiedFenceValue) with true in Hthis.
  cbv iota in Hthis. rewrite wrap64_small in Hthis by lia.
  set (v := m_currentFenceValue this + 1) in *.
  assert (Hc : m_currentFenceValue this' = v) by (rewrite Hthis; reflexivity).
  assert (Hf : m_fence this' = f) by (rewrite Hthis; reflexivity).
  assert (Hh : m_queue this' = mq) by (rewrite Hthis; reflexivity).
  destruct (Signal_Ok_spec this _ e this' e1 Hown Hidle HS ltac:(lia))
    as (_ & _ & _ & Hown1 & Hidle1 & _).
  destruct (CpuWait_Ok_spec this' _ e1 e' Hown1 Hidle1 HW) as (_ & _ & Hreach & _).
  assert (Hreached : v <= fence_value (gpu e') f).
  { rewrite Hc, Hf in Hreach. destruct (v =? UnspecifiedFenceValue); exact Hreach. }
  (* the runtime when the signal has been submitted *)
  destruct (gpu_run_Owns this (burst e) _ Hown) as [[Hsole0 Hasc0] _].
  assert (Hg1 : gpu e1 = enqueue mq (CmdSignal f v) (gpu_run (burst e) (gpu e))).
  { rewrite He1, Hc. env_simpl. rewrite ticked_gpu. reflexivity. }
  set (g0 := gpu_run (burst e) (gpu e)) in *.
  assert (Hq1 : queue (gpu e1) mq = queue g0 mq ++ [CmdSignal f v])
    by (rewrite Hg1; cbn [enqueue queue]; apply fn_lookup_insert).
  assert (Hsole1 : Sole f mq (gpu e1)).
  { destruct Hown1 as [H _]. rewrite Hf, Hh in H. exact H. }
  assert (Hd1 : Draining f mq v (gpu e1)).
  { left. split.
    - rewrite Hg1. cbn [enqueue fence_value].
      pose proof (ascending_le _ _ _ Hasc0). unfold v. fold f in H. lia.
    - exists (queue g0 mq). split; [exact Hq1|].
      apply ascending_Forall in Hasc0. fold f mq in Hasc0.
      eapply Forall_impl; [exact Hasc0|]. intros w Hw. cbn beta in Hw. unfold v. lia. }
  assert (Hsub1 : submitted mq (gpu e1) = S (submitted mq (gpu e))).
  { unfold submitted at 1. rewrite Hq1, length_app. cbn [length].
    rewrite Hg1. cbn [enqueue retired].
    pose proof (submitted_gpu_run (burst e) mq (gpu e)) as Hs. fold g0 in Hs.
    unfold submitted in Hs |- *. lia. }
  (* the wait *)
  assert (Hend : Draining f mq v (gpu e') /\ submitted mq (gpu e') = submitted mq (gpu e1)).
  { destruct (CpuWait_Ok_gpu this' _ e1 e' HW) as (s1 & [Hg|(s2 & w & Hg)]).
    - rewrite Hg. split; [apply gpu_run_Draining; assumption|apply submitted_gpu_run].
    - destruct (gpu_run_Draining f mq v s1 _ Hsole1 Hd1) as [Hsole2 Hd2].
      set (g2 := register_event (m_fence this') w (m_fenceEvent this')
                                (gpu_run s1 (gpu e1))) in *.
      destruct (gpu_run_Draining f mq v s2 g2 Hsole2 Hd2) as [_ Hd3].
      rewrite Hg. split; [exact Hd3|].
      change (submitted mq (write_event (m_fenceEvent this') false (gpu_run s2 g2)))
        with (submitted mq (gpu_run s2 g2)).
      rewrite submitted_gpu_run. change (submitted mq g2)
        with (submitted mq (gpu_run s1 (gpu e1))). apply submitted_gpu_run. }
  destruct Hend as [[(Hlt & _)|[Hempty _]] Hsub]; [lia|].
  split; [exact Hempty|].
  unfold submitted in Hsub at 1. rewrite Hempty in Hsub. cbn [length] in Hsub.
  rewrite Hsub1 in Hsub. lia.
Qed.

Lemma FlushGpuQueue_drains_witness :
  let this := {| m_fence := 1; m_queue := 0; m_currentFenceValue := 0; m_fenceEvent := 1 |} in
  let e := env_of (Fence_new 0 (boot true (replicate 6 ([], 0) ++ [([O], 0)]))) in
  let this' := set_currentFenceValue 1 this in
  let e' := env_of (FlushGpuQueue this e) in
  (Owns this (gpu e) /\ Idle this (gpu e) /\
   0 <= m_currentFenceValue this /\ m_currentFenceValue this < UINT64_MAX /\
   FlushGpuQueue this e = Ok this' e') /\
  queue (gpu e') (m_queue this) = [] /\
  retired (gpu e') (m_queue this) = S (submitted (m_queue this) (gpu e)).
Proof.
  intros this e this' e'.
  assert (H1 : Owns this (gpu e)).
  { split; [intros q _; vm_compute; reflexivity|vm_compute; discriminate]. }
  assert (H2 : Idle this (gpu e)).
  { split; [vm_compute; reflexivity|intros r Hin; vm_compute in Hin; destruct Hin]. }
  assert (H3 : 0 <= m_currentFenceValue this) by (vm_compute; discriminate).
  assert (H4 : m_currentFenceValue this < UINT64_MAX) by (vm_compute; reflexivity).
  assert (H5 : FlushGpuQueue this e = Ok this' e') by (vm_compute; reflexivity).
  split; [auto 6|].
  exact (FlushGpuQueue_drains this this' e e' H1 H2 H3 H4 H5).
Defined.

(** ** A command at its place in the queue *)

Section Place.

Variables f mq p0 : nat.
Variable c : Cmd.
Variable P : Z -> list Z -> Prop.

(** [P] survives the retirement of the oldest signal ahead. *)
Hypothesis P_pop : forall fv w l, P fv (w :: l) -> P w l.

Lemma own_step_Placed (g g' : Gpu) :
  own_step f mq g g' -> Placed f mq p0 c P g -> Placed f mq p0 c P g'.
Proof.
  intros Hstep [Hsole Hat].
  destruct Hstep as [q g|q c1 g Hc1|f' v h g|h b g|f' v g Hne].
  - destruct (gpu_exec_Sole f mq q g Hsole) as [Hsole' Hkeep].
    split; [exact Hsole'|].
    destruct (gpu_exec_cases q g) as [->|(c0 & rest & Hq & Hq' & Hr & Hother & Hfv & _)];
      [exact Hat|].
    destruct (decide (q = mq)) as [->|Hqm].
    + rewrite Hr. intros Hle. destruct (Hat ltac:(lia)) as [Hlook HP].
      unfold ahead in *. rewrite Hr, Hq'. rewrite Hq in Hlook, HP.
      replace (p0 - retired g mq)%nat with (S (p0 - S (retired g mq))) in Hlook, HP by lia.
      cbn [lookup list_lookup] in Hlook. split; [exact Hlook|].
      cbn [take] in HP. rewrite signals_on_cons in HP. rewrite Hfv.
      destruct c0 as [f0 w|f0 w|tag]; try exact HP.
      destruct (Nat.eqb f0 f); [apply P_pop in HP|]; exact HP.
    + destruct (Hother mq (not_eq_sym Hqm)) as [Hsq Hsr].
      unfold ahead. rewrite Hsr, Hsq, (Hkeep Hqm). exact Hat.
  - split.
    + intros q' Hq'. cbn [enqueue queue]. destruct (decide (q = q')) as [->|Hqq].
      * rewrite fn_lookup_insert, signals_on_snoc, (Hsole q' Hq'), (Hc1 Hq').
        reflexivity.
      * rewrite fn_lookup_insert_ne by assumption. apply Hsole, Hq'.
    + unfold ahead. cbn [enqueue queue retired fence_value]. intros Hle.
      destruct (Hat Hle) as [Hlook HP].
      destruct (decide (q = mq)) as [->|Hqm].
      * rewrite fn_lookup_insert. split; [apply lookup_app_l_Some, Hlook|].
        rewrite take_app_le; [exact HP|].
        apply lookup_lt_Some in Hlook. lia.
      * rewrite fn_lookup_insert_ne by assumption. split; assumption.
  - split; [exact Hsole|exact Hat].
  - split; [exact Hsole|exact Hat].
  - split; [exact Hsole|].
    unfold ahead. cbn [new_fence queue retired fence_value].
    rewrite fn_lookup_insert_ne by assumption. exact Hat.
Qed.

Lemma own_steps_Placed (g g' : Gpu) :
  rtc (own_step f mq) g g' -> Placed f mq p0 c P g -> Placed f mq p0 c P g'.
Proof.
  intros Hreach. induction Hreach as [g|g g1 g' Hstep _ IH]; [auto|].
  intros H. apply IH. eapply own_step_Placed; eassumption.
Qed.

End Place.

(** ** GpuWait on the queue of the fence itself *)

Lemma last_cons_default (w d : Z) (l : list Z) : List.last (w :: l) d = List.last l w.
Proof.
  revert w d. induction l as [|x l IH]; intros w d; [reflexivity|].
  change (List.last (w :: x :: l) d) with (List.last (x :: l) d).
  rewrite (IH x d), (IH x w). reflexivity.
Qed.

Lemma gpu_exec_Current (this : Fence) (q : nat) (g : Gpu) :
  Sole (m_fence this) (m_queue this) g -> Current this g -> Current this (gpu_exec q g).
Proof.
  intros Hsole Hcur.
  destruct (gpu_exec_Sole _ _ q g Hsole) as [_ Hkeep].
  destruct (gpu_exec_cases q g) as [->|(c0 & rest & Hq & Hq' & _ & Hother & Hfv & _)];
    [exact Hcur|].
  unfold Current in *. destruct (decide (q = m_queue this)) as [->|Hne].
  - rewrite Hq', Hfv. rewrite Hq, signals_on_cons in Hcur.
    destruct c0 as [f0 w|f0 w|tag]; try exact Hcur.
    destruct (Nat.eqb f0 (m_fence this)); [|exact Hcur].
    rewrite last_cons_default in Hcur. exact Hcur.
  - destruct (Hother _ (not_eq_sym Hne)) as [-> _]. rewrite (Hkeep Hne). exact Hcur.
Qed.

Lemma gpu_run_Current (this : Fence) (s : list nat) : forall g,
  Sole (m_fence this) (m_queue this) g -> Current this g ->
  Sole (m_fence this) (m_queue this) (gpu_run s g) /\ Current this (gpu_run s g).
Proof.
  induction s as [|q s IH]; intros g Hsole Hcur; [auto|].
  cbn [gpu_run fold_left]. apply IH.
  - apply gpu_exec_Sole, Hsole.
  - apply gpu_exec_Current; assumption.
Qed.

(** The wait that [GpuWait] has just submitted, at its place. *)
Lemma GpuWait_Placed (this : Fence) (value : Z) (e e' : Env) (P : Z -> list Z -> Prop) :
  Sole (m_fence this) (m_queue this) (gpu e) ->
  (forall s, P (fence_value (gpu_run s (gpu e)) (m_fence this))
               (signals_on (m_fence this) (queue (gpu_run s (gpu e)) (m_queue this)))) ->
  GpuWait this value e = Ok tt e' ->
  Placed (m_fence this) (m_queue this) (last_position (m_queue this) (gpu e'))
         (CmdWait (m_fence this)
                  (if value =? UnspecifiedFenceValue
                   then m_currentFenceValue this else value))
         P (gpu e') /\
  (retired (gpu e') (m_queue this) <= last_position (m_queue this) (gpu e'))%nat.
Proof.
  intros Hsole HP. unfold GpuWait. rewrite GpuWait_static_eq. cbv zeta.
  set (v := if value =? UnspecifiedFenceValue then m_currentFenceValue this else value).
  destruct (FAILED (status e)); [discriminate|]. intros H. injection H as <-.
  env_simpl. rewrite ticked_gpu. specialize (HP (burst e)).
  assert (Hsole0 : Sole (m_fence this) (m_queue this) (gpu_run (burst e) (gpu e))).
  { clear HP. generalize (burst e) as s. intros s. revert Hsole.
    generalize (gpu e) as g. induction s as [|q s IH]; intros g Hg; [exact Hg|].
    cbn [gpu_run fold_left]. apply IH, gpu_exec_Sole, Hg. }
  set (g0 := gpu_run (burst e) (gpu e)) in *.
  set (f := m_fence this) in *. set (mq := m_queue this) in *.
  assert (Hq : queue (enqueue mq (CmdWait f v) g0) mq = queue g0 mq ++ [CmdWait f v])
    by (cbn [enqueue queue]; apply fn_lookup_insert).
  assert (Hp0 : (last_position mq (enqueue mq (CmdWait f v) g0) - retired g0 mq
                 = length (queue g0 mq))%nat).
  { unfold last_position. rewrite Hq, length_app. cbn [length enqueue retired]. lia. }
  split; [|unfold last_position; rewrite Hq, length_app; cbn [length enqueue retired]; lia].
  split.
  - intros q Hne. cbn [enqueue queue].
    rewrite fn_lookup_insert_ne by (apply not_eq_sym, Hne). apply Hsole0, Hne.
  - intros _. unfold ahead.
    change (retired (enqueue mq (CmdWait f v) g0) mq) with (retired g0 mq).
    change (fence_value (enqueue mq (CmdWait f v) g0) f) with (fence_value g0 f).
    rewrite Hp0, Hq. split; [apply list_lookup_middle; reflexivity|].
    rewrite take_app_le, firstn_all by lia. exact HP.
Qed.

(** X7. A wait that [GpuWait] puts on the queue of the fence for a value
    that does not exceed the counter (the counter itself when no value is
    given) never holds the queue up. Provided the counter is the value of the
    newest signal and the fence is signalled from its own queue only: by the
    time the wait has become the oldest command of the queue, the signals
    ahead of it have run, the fence holds the counter found by the call, and
    the next GPU step on the queue retires the wait. *)
Theorem GpuWait_reached_value_never_stalls (this : Fence) (value : Z) (e e' : Env)
    (Hsole : Sole (m_fence this) (m_queue this) (gpu e))
    (Hcur : Current this (gpu e))
    (Hle : (if value =? UnspecifiedFenceValue then m_currentFenceValue this else value)
           <= m_currentFenceValue this)
    (Hrun : GpuWait this value e = Ok tt e') :
  forall g : Gpu,
    rtc (own_step (m_fence this) (m_queue this)) (gpu e') g ->
    retired g (m_queue this) = last_position (m_queue this) (gpu e') ->
    queue g (m_queue this) !! O
      = Some (CmdWait (m_fence this)
                (if value =? UnspecifiedFenceValue
                 then m_currentFenceValue this else value)) /\
    fence_value g (m_fence this) = m_currentFenceValue this /\
    retired (gpu_exec (m_queue this) g) (m_queue this) = S (retired g (m_queue this)).
Proof.
  intros g Hreach Hhead.
  set (v := if value =? UnspecifiedFenceValue then m_currentFenceValue this else value) in *.
  set (P := fun (fv : Z) (l : list Z) => List.last l fv = m_currentFenceValue this).
  assert (Hpop : forall fv w l, P fv (w :: l) -> P w l).
  { intros fv w l H. unfold P in *. rewrite last_cons_default in H. exact H. }
  assert (H0 : Placed (m_fence this) (m_queue this)
                 (last_position (m_queue this) (gpu e')) (CmdWait (m_fence this) v) P (gpu e') /\
               (retired (gpu e') (m_queue this)
                <= last_position (m_queue this) (gpu e'))%nat).
  { apply (GpuWait_Placed this value e e' P Hsole); [|exact Hrun].
    intros s. apply (gpu_run_Current this s (gpu e) Hsole Hcur). }
  destruct H0 as [H0 _].
  pose proof (own_steps_Placed _ _ _ _ P Hpop _ _ Hreach H0) as [_ Hat].
  destruct (Hat ltac:(lia)) as [Hlook HP].
  unfold ahead in HP. rewrite Hhead, Nat.sub_diag in Hlook, HP.
  cbn [take signals_on omap list_omap] in HP. unfold P in HP. cbn [List.last] in HP.
  assert (Hfv : fence_value g (m_fence this) = m_currentFenceValue this) by exact HP.
  clear HP Hat. split; [exact Hlook|]. split; [exact Hfv|].
  unfold gpu_exec. destruct (queue g (m_queue this)) as [|c0 rest]; [discriminate|].
  cbn in Hlook. injection Hlook as ->.
  assert (Hge : (fence_value g (m_fence this) <? v) = false) by (apply Z.ltb_ge; lia).
  rewrite Hge. cbn [retire retired]. apply fn_lookup_insert.
Qed.

Lemma GpuWait_reached_value_never_stalls_witness :
  let this := {| m_fence := 1; m_queue := 0; m_currentFenceValue := 1; m_fenceEvent := 1 |} in
  let e := env_of ((fresh ← Fence_new 0; Signal fresh (arg None)) (boot true [])) in
  let e' := env_of (GpuWait this (arg None) e) in
  let g := gpu_exec 0 (gpu e') in
  (Sole (m_fence this) (m_queue this) (gpu e) /\ Current this (gpu e) /\
   (if arg None =? UnspecifiedFenceValue then m_currentFenceValue this else arg None)
     <= m_currentFenceValue this /\
   GpuWait this (arg None) e = Ok tt e' /\
   rtc (own_step (m_fence this) (m_queue this)) (gpu e') g /\
   retired g (m_queue this) = last_position (m_queue this) (gpu e')) /\
  fence_value g (m_fence this) = m_currentFenceValue this /\
  retired (gpu_exec (m_queue this) g) (m_queue this) = S (retired g (m_queue this)).
Proof.
  intros this e e' g.
  assert (H1 : Sole (m_fence this) (m_queue this) (gpu e)).
  { intros q Hq. destruct q as [|q]; [exfalso; apply Hq; reflexivity|].
    vm_compute. reflexivity. }
  assert (H2 : Current this (gpu e)) by (vm_compute; reflexivity).
  assert (H3 : (if arg None =? UnspecifiedFenceValue
                then m_currentFenceValue this else arg None)
               <= m_currentFenceValue this) by (vm_compute; discriminate).
  assert (H4 : GpuWait this (arg None) e = Ok tt e') by (vm_compute; reflexivity).
  assert (H5 : rtc (own_step (m_fence this) (m_queue this)) (gpu e') g)
    by (apply rtc_once, own_exec).
  assert (H6 : retired g (m_queue this) = last_position (m_queue this) (gpu e'))
    by (vm_compute; reflexivity).
  split; [auto 7|].
  exact (proj2 (GpuWait_reached_value_never_stalls this (arg None) e e' H1 H2 H3 H4 g H5 H6)).
Defined.

Lemma gpu_run_own_steps (f mq : nat) (s : list nat) : forall g,
  rtc (own_step f mq) g (gpu_run s g).
Proof.
  induction s as [|q s IH]; intros g; [apply rtc_refl|].
  cbn [gpu_run fold_left]. eapply rtc_l; [apply own_exec|apply IH].
Qed.








(** The wrap-around undoes it: with the counter back at 0, [FlushGpuQueue]
    finds the fence at its value and returns, although the wait for 1 is
    still the oldest command of the queue and nothing has retired. *)
Example FlushGpuQueue_past_a_stuck_wait :
  value_of ((lf ← LinearFence_new 0 2;
             '(final, _) ← script [OpGpuWait (Some 1); OpSignal (Some (UINT64_MAX - 1));
                                   OpSignal None; OpFlushGpuQueue] lf;
             r ← Fence_GetCompletedValue (m_fence (base final));
             done ← gets (fun e => retired (gpu e) 0);
             mret (m_currentFenceValue (base final), r, done))
              (boot true (replicate 16 ([O], 0))))
  = Some (0, 0, O).
Proof. vm_compute. reflexivity. Qed.

(** ** Fences side by side *)

Section Bystander.

Variable this : Fence.

Lemma Kept_refl (g : Gpu) : Kept this g g.
Proof. intros Hown Hidle. split; [exact Hown|]. split; [exact Hidle|lia]. Qed.

Lemma Kept_trans (g1 g2 g3 : Gpu) :
  Kept this g1 g2 -> Kept this g2 g3 -> Kept this g1 g3.
Proof.
  intros H12 H23 Hown Hidle.
  destruct (H12 Hown Hidle) as (Hown2 & Hidle2 & Hm2).
  destruct (H23 Hown2 Hidle2) as (Hown3 & Hidle3 & Hm3).
  split; [exact Hown3|]. split; [exact Hidle3|lia].
Qed.

Lemma Kept_gpu_run (s : list nat) (g : Gpu) : Kept this g (gpu_run s g).
Proof.
  intros Hown Hidle. destruct (gpu_run_Owns this s g Hown) as [H1 H2].
  split; [exact H1|]. split; [apply gpu_run_Idle, Hidle|exact H2].
Qed.

Lemma Kept_ticked (e : Env) : Kept this (gpu e) (gpu (ticked e)).
Proof. rewrite ticked_gpu. apply Kept_gpu_run. Qed.

Lemma Kept_enqueue (q : nat) (c : Cmd) (g : Gpu) :
  signals_on (m_fence this) [c] = [] -> Kept this g (enqueue q c g).
Proof.
  intros Hc [Helse Hasc] Hidle.
  assert (Hsig : forall q', signals_on (m_fence this) (queue (enqueue q c g) q')
                            = signals_on (m_fence this) (queue g q')).
  { intros q'. cbn [enqueue queue]. destruct (decide (q = q')) as [->|Hne].
    - rewrite fn_lookup_insert, signals_on_snoc, Hc. apply app_nil_r.
    - rewrite fn_lookup_insert_ne by assumption. reflexivity. }
  split; [|split; [exact Hidle|cbn; lia]]. split.
  - intros q' Hne. rewrite Hsig. apply Helse, Hne.
  - rewrite Hsig. exact Hasc.
Qed.

Lemma Kept_register_event (f' : nat) (v : Z) (h : nat) (g : Gpu) :
  h <> m_fenceEvent this -> Kept this g (register_event f' v h g).
Proof.
  intros Hh Hown [Hev Hregs].
  split; [apply (Owns_ext this g); auto|]. split; [|cbn; lia].
  unfold Idle. cbn [register_event event_set registrations].
  destruct (v <=? fence_value g f').
  - rewrite fn_lookup_insert_ne by assumption. auto.
  - split; [exact Hev|]. intros r Hin. apply in_app_or in Hin as [Hin|[<-|[]]].
    + apply Hregs, Hin.
    + exact Hh.
Qed.

Lemma Kept_write_event (h : nat) (b : bool) (g : Gpu) :
  h <> m_fenceEvent this -> Kept this g (write_event h b g).
Proof.
  intros Hh Hown [Hev Hregs].
  split; [apply (Owns_ext this g); auto|]. split; [|cbn; lia].
  unfold Idle. cbn [write_event event_set registrations].
  rewrite fn_lookup_insert_ne by assumption. auto.
Qed.

Lemma Kept_new_fence (f' : nat) (v : Z) (g : Gpu) :
  f' <> m_fence this -> Kept this g (new_fence f' v g).
Proof.
  intros Hf [Helse Hasc] Hidle.
  assert (Hv : fence_value (new_fence f' v g) (m_fence this) = fence_value g (m_fence this))
    by (cbn [new_fence fence_value]; apply fn_lookup_insert_ne, Hf).
  split; [|split; [exact Hidle|lia]].
  split; [exact Helse|]. rewrite Hv. exact Hasc.
Qed.

(** The calls on another fence object. *)

Lemma Signal_Kept (other : Fence) (value : Z) (e : Env) :
  m_fence other <> m_fence this ->
  Kept this (gpu e) (gpu (env_of (Signal other value e))).
Proof.
  intros Hf. rewrite Signal_eq. cbv zeta.
  destruct (_ && _ && _); [apply Kept_refl|].
  destruct (FAILED (status e)); cbn [env_of]; env_simpl.
  - apply Kept_ticked.
  - eapply Kept_trans; [apply Kept_ticked|]. apply Kept_enqueue.
    rewrite signals_on_cons. cbn [set_currentFenceValue m_fence].
    apply Nat.eqb_neq in Hf. rewrite Hf. reflexivity.
Qed.

Lemma GpuWait_static_Kept (pQueue : nat) (pFence : Fence) (value : Z) (e : Env) :
  Kept this (gpu e) (gpu (env_of (GpuWait_static pQueue pFence value e))).
Proof.
  rewrite GpuWait_static_eq. cbv zeta.
  destruct (FAILED (status e)); cbn [env_of]; env_simpl.
  - apply Kept_ticked.
  - eapply Kept_trans; [apply Kept_ticked|]. apply Kept_enqueue. reflexivity.
Qed.

Lemma CpuWait_Kept (other : Fence) (value : Z) (e : Env) :
  m_fenceEvent other <> m_fenceEvent this ->
  Kept this (gpu e) (gpu (env_of (CpuWait other value e))).
Proof.
  intros Hh. rewrite CpuWait_eq. cbv zeta.
  set (v := if value =? UnspecifiedFenceValue then m_currentFenceValue other else value).
  assert (H1 : Kept this (gpu e) (gpu (queried other e)))
    by (rewrite gpu_queried; apply Kept_gpu_run).
  assert (H2 : Kept this (gpu e) (gpu (registering other v e))).
  { unfold registering. env_simpl. eapply Kept_trans; [exact H1|apply Kept_ticked]. }
  assert (H3 : Kept this (gpu e) (gpu (sleeping other v e))).
  { destruct (gpu_sleeping other v e) as (s1 & s2 & ->).
    eapply Kept_trans; [apply Kept_gpu_run|].
    eapply Kept_trans; [apply Kept_register_event, Hh|apply Kept_gpu_run]. }
  destruct (_ <? _); [|exact H1].
  destruct (FAILED _); [exact H2|].
  destruct (event_set _ _); cbn [env_of]; [|exact H3].
  unfold woken. env_simpl.
  eapply Kept_trans; [exact H3|apply Kept_write_event, Hh].
Qed.

Lemma bind_Kept {A B : Type} (m : M A) (k : A -> M B) (e : Env) :
  Kept this (gpu e) (gpu (env_of (m e))) ->
  (forall a e', m e = Ok a e' -> Kept this (gpu e') (gpu (env_of (k a e')))) ->
  Kept this (gpu e) (gpu (env_of ((m ≫= k) e))).
Proof.
  intros Hm Hk. rewrite bind_eq. destruct (m e) as [a e'|err e']; [|exact Hm].
  eapply Kept_trans; [exact Hm|]. apply Hk. reflexivity.
Qed.

Lemma FlushGpuQueue_Kept (other : Fence) (e : Env) :
  m_fence other <> m_fence this ->
  m_fenceEvent other <> m_fenceEvent this ->
  Kept this (gpu e) (gpu (env_of (FlushGpuQueue other e))).
Proof.
  intros Hf Hh. unfold FlushGpuQueue.
  apply bind_Kept; [apply Signal_Kept, Hf|].
  intros b e1 HS. apply Signal_Ok_inv in HS as (Hb & _).
  apply bind_Kept; [|intros; apply Kept_refl].
  apply CpuWait_Kept. rewrite Hb. exact Hh.
Qed.

Lemma Next_Kept (other : LinearFence) (e : Env) :
  m_fenceEvent (base other) <> m_fenceEvent this ->
  Kept this (gpu e) (gpu (env_of (Next other e))).
Proof.
  intros Hh. unfold Next. apply bind_Kept.
  { unfold vec_store. destruct (_ && _); apply Kept_refl. }
  intros history e1 H1.
  assert (e1 = e) as ->.
  { unfold vec_store in H1. destruct (_ && _) in H1; [|discriminate].
    rewrite ret_eq in H1. congruence. }
  clear H1. apply bind_Kept.
  { unfold urem. destruct (_ =? 0); apply Kept_refl. }
  intros r e1 H1. unfold urem in H1. destruct (_ =? 0) in H1; [discriminate|].
  rewrite ret_eq in H1. injection H1 as _ <-.
  apply bind_Kept.
  { unfold vec_load. destruct (0 <=? _); [|apply Kept_refl].
    destruct (_ !! _); apply Kept_refl. }
  intros v e1 H1. unfold vec_load in H1. destruct (0 <=? _) in H1; [|discriminate].
  destruct (_ !! _) in H1; [|discriminate]. rewrite ret_eq in H1. injection H1 as _ <-.
  apply bind_Kept; [apply CpuWait_Kept, Hh|]. intros; apply Kept_refl.
Qed.

Lemma Fence_new_Kept (pQueue : nat) (e : Env) :
  (m_fence this <= fences_made e)%nat ->
  (m_fenceEvent this <= events_made e)%nat ->
  Kept this (gpu e) (gpu (env_of (Fence_new pQueue e))).
Proof.
  intros Hf Hh. rewrite Fence_new_eq. cbv zeta.
  set (e1 := logged (CallQueryInterface pQueue) (ticked e)).
  set (e2 := logged (CallGetDevice pQueue) (ticked e1)).
  set (e3 := logged (CallCreateFence 0) (ticked e2)).
  set (e3' := with_gpu (new_fence (S (fences_made e3)) 0 (gpu e3))
                       (with_fences_made (S (fences_made e3)) e3)).
  set (e4 := logged (CallCreateEvent false false) (ticked e3')).
  assert (Hf3 : fences_made e3 = fences_made e) by (unfold e3, e2, e1; now env_simpl).
  assert (Hm4 : events_made e4 = events_made e) by (unfold e4, e3', e3, e2, e1; now env_simpl).
  assert (K1 : Kept this (gpu e) (gpu e1)) by (unfold e1; env_simpl; apply Kept_ticked).
  assert (K2 : Kept this (gpu e) (gpu e2)).
  { unfold e2. env_simpl. eapply Kept_trans; [exact K1|apply Kept_ticked]. }
  assert (K3 : Kept this (gpu e) (gpu e3)).
  { unfold e3. env_simpl. eapply Kept_trans; [exact K2|apply Kept_ticked]. }
  assert (K4 : Kept this (gpu e) (gpu e4)).
  { unfold e4. env_simpl. eapply Kept_trans; [|apply Kept_ticked].
    unfold e3'. env_simpl. eapply Kept_trans; [exact K3|].
    apply Kept_new_fence. lia. }
  destruct (FAILED (status e)); [exact K1|].
  destruct (FAILED (status e1)); [exact K2|].
  destruct (FAILED (status e2)); [exact K3|].
  destruct (status e3' =? 0); cbn [env_of]; env_simpl; [|exact K4].
  eapply Kept_trans; [exact K4|]. apply Kept_write_event. lia.
Qed.

End Bystander.

(** X9. The calls on one fence object leave another one in order, also when
    both sit on the same queue. If the two objects have different native
    fences and different events, then whatever call is made on the one, and
    whether it returns, throws or blocks, the other still owns its native
    fence (its pending signals are in order, below its counter), its event is
    still at rest, and its completed value has not fallen. *)
Theorem other_fence_keeps_discipline (this : Fence) (other : LinearFence) (op : Op)
    (e : Env)
    (Hf : m_fence (base other) <> m_fence this)
    (Hh : m_fenceEvent (base other) <> m_fenceEvent this)
    (Hown : Owns this (gpu e))
    (Hidle : Idle this (gpu e)) :
  Owns this (gpu (env_of (perform op other e))) /\
  Idle this (gpu (env_of (perform op other e))) /\
  fence_value (gpu e) (m_fence this)
    <= fence_value (gpu (env_of (perform op other e))) (m_fence this).
Proof.
  assert (HK : Kept this (gpu e) (gpu (env_of (perform op other e)))).
  { destruct op as [value|value|value| | |q tag]; cbn [perform].
    - apply bind_Kept; [apply Signal_Kept, Hf|]. intros; apply Kept_refl.
    - apply bind_Kept; [apply GpuWait_static_Kept|]. intros; apply Kept_refl.
    - apply bind_Kept; [apply CpuWait_Kept, Hh|]. intros; apply Kept_refl.
    - apply bind_Kept; [apply FlushGpuQueue_Kept; assumption|]. intros; apply Kept_refl.
    - apply Next_Kept, Hh.
    - apply bind_Kept; [|intros; apply Kept_refl].
      rewrite Queue_Submit_eq. cbn [env_of]. env_simpl.
      eapply Kept_trans; [apply Kept_ticked|]. apply Kept_enqueue. reflexivity. }
  exact (HK Hown Hidle).
Qed.

Lemma other_fence_keeps_discipline_witness :
  let this := {| m_fence := 1; m_queue := 0; m_currentFenceValue := 0; m_fenceEvent := 1 |} in
  let other := {| base := {| m_fence := 2; m_queue := 0;
                             m_currentFenceValue := 0; m_fenceEvent := 2 |};
                  m_signalHistory := [0; 0]; m_signalIndex := 0 |} in
  let e := env_of ((a ← Fence_new 0; LinearFence_new 0 2) (boot true [])) in
  let e' := env_of (perform (OpSignal None) other e) in
  (m_fence (base other) <> m_fence this /\
   m_fenceEvent (base other) <> m_fenceEvent this /\
   Owns this (gpu e) /\ Idle this (gpu e)) /\
  Owns this (gpu e') /\ Idle this (gpu e') /\
  fence_value (gpu e) (m_fence this) <= fence_value (gpu e') (m_fence this).
Proof.
  intros this other e e'.
  assert (H1 : m_fence (base other) <> m_fence this) by discriminate.
  assert (H2 : m_fenceEvent (base other) <> m_fenceEvent this) by discriminate.
  assert (H3 : Owns this (gpu e)).
  { split; [intros q _; vm_compute; reflexivity|vm_compute; discriminate]. }
  assert (H4 : Idle this (gpu e)).
  { split; [vm_compute; reflexivity|intros r Hin; vm_compute in Hin; destruct Hin]. }
  split; [auto|].
  exact (other_fence_keeps_discipline this other (OpSignal None) e H1 H2 H3 H4).
Defined.

(** X10. A Fence constructed later gets a native fence and an event of its
    own. For a fence object in order whose fence and event the runtime handed
    out before, and a runtime in which nothing refers yet to the fence and the
    event to come: a construction that returns yields an object with another
    native fence and another event, counter 0, which owns its native fence and
    whose event is at rest, and it leaves the first object in order, also when
    both are made for the same queue. *)
Theorem Fence_new_apart (this : Fence) (pQueue : nat) (e : Env) (other : Fence) (e' : Env)
    (Hf : (m_fence this <= fences_made e)%nat)
    (Hh : (m_fenceEvent this <= events_made e)%nat)
    (Hown : Owns this (gpu e))
    (Hidle : Idle this (gpu e))
    (Hclean : Untouched (S (fences_made e)) (S (events_made e)) (gpu e))
    (Hnew : Fence_new pQueue e = Ok other e') :
  m_fence other <> m_fence this /\ m_fenceEvent other <> m_fenceEvent this /\
  m_currentFenceValue other = 0 /\ Owns other (gpu e') /\ Idle other (gpu e') /\
  Owns this (gpu e') /\ Idle this (gpu e') /\
  fence_value (gpu e) (m_fence this) <= fence_value (gpu e') (m_fence this).
Proof.
  pose proof (Fence_new_Kept this pQueue e Hf Hh Hown Hidle) as HK.
  rewrite Hnew in HK. cbn [env_of] in HK.
  destruct (Fence_new_Ok_spec pQueue e other e' Hclean Hnew) as (Hc & Hown' & Hidle').
  pose proof (Fence_new_cases pQueue e) as HN. rewrite Hnew in HN.
  destruct HN as (Hother & _).
  split; [rewrite Hother; cbn [m_fence]; lia|].
  split; [rewrite Hother; cbn [m_fenceEvent]; lia|].
  split; [exact Hc|]. split; [exact Hown'|]. split; [exact Hidle'|]. exact HK.
Qed.

Lemma Fence_new_apart_witness :
  let this := {| m_fence := 1; m_queue := 0; m_currentFenceValue := 0; m_fenceEvent := 1 |} in
  let other := {| m_fence := 2; m_queue := 0; m_currentFenceValue := 0; m_fenceEvent := 2 |} in
  let e := env_of (Fence_new 0 (boot true [])) in
  let e' := env_of (Fence_new 0 e) in
  ((m_fence this <= fences_made e)%nat /\ (m_fenceEvent this <= events_made e)%nat /\
   Owns this (gpu e) /\ Idle this (gpu e) /\
   Untouched (S (fences_made e)) (S (events_made e)) (gpu e) /\
   Fence_new 0 e = Ok other e') /\
  m_fence other <> m_fence this /\ m_fenceEvent other <> m_fenceEvent this /\
  m_currentFenceValue other = 0 /\ Owns other (gpu e') /\ Idle other (gpu e') /\
  Owns this (gpu e') /\ Idle this (gpu e') /\
  fence_value (gpu e) (m_fence this) <= fence_value (gpu e') (m_fence this).
Proof.
  intros this other e e'.
  assert (H1 : (m_fence this <= fences_made e)%nat) by (vm_compute; lia).
  assert (H2 : (m_fenceEvent this <= events_made e)%nat) by (vm_compute; lia).
  assert (H3 : Owns this (gpu e)).
  { split; [intros q _; vm_compute; reflexivity|vm_compute; discriminate]. }
  assert (H4 : Idle this (gpu e)).
  { split; [vm_compute; reflexivity|intros r Hin; vm_compute in Hin; destruct Hin]. }
  assert (H5 : Untouched (S (fences_made e)) (S (events_made e)) (gpu e)).
  { split; [intros q; vm_compute; reflexivity|intros r Hin; vm_compute in Hin; destruct Hin]. }
  assert (H6 : Fence_new 0 e = Ok other e') by (vm_compute; reflexivity).
  split; [auto 7|].
  exact (Fence_new_apart this 0 e other e' H1 H2 H3 H4 H5 H6).
Defined.

(** ** When FlushGpuQueue returns *)

Lemma Signal_unspecified_Ok (this : Fence) (e : Env) :
  FAILED (status e) = false ->
  Signal this UnspecifiedFenceValue e
  = Ok (set_currentFenceValue (wrap64 (m_currentFenceValue this + 1)) this)
       (env_of (Signal this UnspecifiedFenceValue e)).
Proof.
  intros Hok. rewrite Signal_eq. cbv zeta.
  change (UnspecifiedFenceValue =? UnspecifiedFenceValue) with true.
  cbn [negb andb]. rewrite Hok. reflexivity.
Qed.

Lemma sleeping_from_queried (this : Fence) (v : Z) (e : Env) :
  exists s2 s3,
    gpu (sleeping this v e) =
    gpu_run s3 (register_event (m_fence this) v (m_fenceEvent this)
                               (gpu_run s2 (gpu (queried this e)))).
Proof.
  unfold sleeping. env_simpl. rewrite ticked_gpu. env_simpl.
  rewrite (ticked_gpu (queried this e)). eauto.
Qed.

(** X11. [FlushGpuQueue] returns exactly when the GPU gets through the
    queue. For a fence object that owns its native fence, with its event at
    rest, the counter below 2^64 - 2 and native calls that succeed: the call
    returns if and only if, by the time the thread would wake from its sleep
    on the event, the queue of the fence is empty; if the GPU has not come
    that far, the thread sleeps on. *)
Theorem FlushGpuQueue_returns_iff_drained (this : Fence) (e : Env)
    (Hown : Owns this (gpu e))
    (Hidle : Idle this (gpu e))
    (Hlo : 0 <= m_currentFenceValue this)
    (Hhi : m_currentFenceValue this + 1 < UINT64_MAX)
    (Hok : FAILED (status e) = false)
    (Hok' : FAILED (status (queried this (env_of (Signal this (arg None) e)))) = false) :
  let this' := set_currentFenceValue (m_currentFenceValue this + 1) this in
  let e1 := env_of (Signal this (arg None) e) in
  ((exists e', FlushGpuQueue this e = Ok this' e') <->
   queue (gpu (sleeping this' (m_currentFenceValue this') e1)) (m_queue this) = []) /\
  (queue (gpu (sleeping this' (m_currentFenceValue this') e1)) (m_queue this) <> [] ->
   error_of (FlushGpuQueue this e) = Some Blocked).
Proof.
  intros this' e1. change (arg None) with UnspecifiedFenceValue in *.
  set (f := m_fence this). set (mq := m_queue this).
  set (v := m_currentFenceValue this + 1).
  change (m_currentFenceValue this') with v.
  pose proof (Signal_unspecified_Ok this e Hok) as HS.
  rewrite wrap64_small in HS by (unfold UINT64_MAX in *; lia).
  fold this' e1 in HS.
  assert (Hv : v <> UnspecifiedFenceValue) by (unfold UnspecifiedFenceValue, v; lia).
  destruct (Signal_Ok_spec this _ e this' e1 Hown Hidle HS ltac:(cbn; lia))
    as (_ & _ & _ & Hown1 & Hidle1 & _).
  pose proof (Signal_Ok_inv this _ e this' e1 HS) as (_ & _ & He1 & _).
  (* the queue when the signal has been submitted *)
  destruct (gpu_run_Owns this (burst e) _ Hown) as [[_ Hasc0] _].
  assert (Hg1 : gpu e1 = enqueue mq (CmdSignal f v) (gpu_run (burst e) (gpu e))).
  { rewrite He1. env_simpl. rewrite ticked_gpu. reflexivity. }
  set (g0 := gpu_run (burst e) (gpu e)) in *.
  assert (Hsole1 : Sole f mq (gpu e1)) by (destruct Hown1 as [H _]; exact H).
  assert (Hd1 : Draining f mq v (gpu e1)).
  { left. split.
    - rewrite Hg1. cbn [enqueue fence_value].
      pose proof (ascending_le _ _ _ Hasc0) as H. fold f in H. unfold v. lia.
    - exists (queue g0 mq). split.
      + rewrite Hg1. cbn [enqueue queue]. apply fn_lookup_insert.
      + apply ascending_Forall in Hasc0. fold f mq in Hasc0.
        eapply Forall_impl; [exact Hasc0|]. intros w Hw. cbn beta in Hw. unfold v. lia. }
  (* the runtime when the thread wakes *)
  assert (Hq' : FAILED (status (queried this' e1)) = false) by exact Hok'.
  assert (Hds : Draining f mq v (gpu (sleeping this' v e1))).
  { destruct (gpu_sleeping this' v e1) as (s1 & s2 & ->).
    destruct (gpu_run_Draining f mq v s1 _ Hsole1 Hd1) as [Hsole2 Hd2].
    apply (gpu_run_Draining f mq v s2
             (register_event (m_fence this') v (m_fenceEvent this') (gpu_run s1 (gpu e1)))
             Hsole2 Hd2). }
  assert (Hmono : fence_value (gpu (queried this' e1)) f
                  <= fence_value (gpu (sleeping this' v e1)) f).
  { destruct (sleeping_from_queried this' v e1) as (s2 & s3 & ->).
    assert (Hownq : Owns this' (gpu (queried this' e1)))
      by (rewrite gpu_queried; apply gpu_run_Owns, Hown1).
    destruct (gpu_run_Owns this' s2 _ Hownq) as [Hown2 Hm2].
    set (g2 := register_event (m_fence this') v (m_fenceEvent this')
                              (gpu_run s2 (gpu (queried this' e1)))) in *.
    assert (Hown3 : Owns this' g2)
      by (apply (Owns_ext this' (gpu_run s2 (gpu (queried this' e1)))); auto).
    destruct (gpu_run_Owns this' s3 _ Hown3) as [_ Hm3].
    change (m_fence this') with f in *.
    change (fence_value g2 f) with (fence_value (gpu_run s2 (gpu (queried this' e1))) f) in Hm3.
    lia. }
  assert (Hcases : v <= fence_value (gpu (sleeping this' v e1)) f ->
                   exists e', CpuWait this' v e1 = Ok tt e').
  { intros Hreach.
    destruct (Z_lt_le_dec (fence_value (gpu (queried this' e1)) f) v) as [Hlt|Hge].
    - eexists. apply (CpuWait_blocks_until this' v e1 Hown1 Hidle1 Hv Hlt Hq'), Hreach.
    - eexists. apply CpuWait_reached; assumption. }
  assert (Hflush : forall o, CpuWait this' v e1 = o ->
            FlushGpuQueue this e = match o with
                                   | Ok _ e' => Ok this' e'
                                   | Fail err e' => Fail err e'
                                   end).
  { intros o <-. unfold FlushGpuQueue. rewrite bind_eq, HS, bind_eq.
    change (m_currentFenceValue this') with v.
    destruct (CpuWait this' v e1) as [[] e'|err e']; reflexivity. }
  split; [split|].
  - intros [e' HF].
    destruct Hds as [(Hlt & _)|[Hempty _]]; [exfalso|exact Hempty].
    rewrite (Hflush _ eq_refl) in HF. clear Hflush Hcases.
    destruct (CpuWait this' v e1) as [[] e2|err e2] eqn:HW; [|discriminate].
    + destruct (CpuWait_Ok_spec this' v e1 e2 Hown1 Hidle1 HW) as (_ & _ & Hreach & _).
      apply Z.eqb_neq in Hv. rewrite Hv in Hreach.
      rewrite CpuWait_eq in HW. cbv zeta in HW. rewrite Hv in HW.
      change (m_fence this') with f in *.
      destruct (fence_value (gpu (queried this' e1)) f <? v) eqn:Hcmp.
      * rewrite Hq' in HW.
        destruct (event_set (gpu (sleeping this' v e1)) (m_fenceEvent this'));
          [|discriminate].
        injection HW as <-. unfold woken in Hreach. autorewrite with env in Hreach.
        change (fence_value (write_event (m_fenceEvent this') false
                               (gpu (sleeping this' v e1))) f)
          with (fence_value (gpu (sleeping this' v e1)) f) in Hreach. lia.
      * apply Z.ltb_ge in Hcmp. lia.
  - intros Hempty.
    destruct Hds as [(_ & pre & Hpre & _)|[_ Hval]].
    { fold mq in Hempty. rewrite Hempty in Hpre. destruct pre; discriminate. }
    destruct (Hcases ltac:(lia)) as [e' HW].
    exists e'. rewrite (Hflush _ HW). reflexivity.
  - intros Hne.
    destruct Hds as [(Hlt & _)|[Hempty _]]; [|contradiction].
    assert (Hlt' : fence_value (gpu (queried this' e1)) f < v) by lia.
    destruct (CpuWait_blocks_until this' v e1 Hown1 Hidle1 Hv Hlt' Hq') as [_ Hno].
    rewrite (Hflush _ (Hno Hlt)). reflexivity.
Qed.

Lemma FlushGpuQueue_returns_iff_drained_witness :
  let this := {| m_fence := 1; m_queue := 0; m_currentFenceValue := 0; m_fenceEvent := 1 |} in
  let e := env_of (Fence_new 0 (boot true (replicate 7 ([], 0) ++ [([O], 0)]))) in
  let this' := set_currentFenceValue (m_currentFenceValue this + 1) this in
  let e1 := env_of (Signal this (arg None) e) in
  (Owns this (gpu e) /\ Idle this (gpu e) /\
   0 <= m_currentFenceValue this /\ m_currentFenceValue this + 1 < UINT64_MAX /\
   FAILED (status e) = false /\
   FAILED (status (queried this (env_of (Signal this (arg None) e)))) = false) /\
  ((exists e', FlushGpuQueue this e = Ok this' e') <->
   queue (gpu (sleeping this' (m_currentFenceValue this') e1)) (m_queue this) = []) /\
  queue (gpu (sleeping this' (m_currentFenceValue this') e1)) (m_queue this) = [].
Proof.
  intros this e this' e1.
  assert (H1 : Owns this (gpu e)).
  { split; [intros q _; vm_compute; reflexivity|vm_compute; discriminate]. }
  assert (H2 : Idle this (gpu e)).
  { split; [vm_compute; reflexivity|intros r Hin; vm_compute in Hin; destruct Hin]. }
  assert (H3 : 0 <= m_currentFenceValue this) by (vm_compute; discriminate).
  assert (H4 : m_currentFenceValue this + 1 < UINT64_MAX) by (vm_compute; reflexivity).
  assert (H5 : FAILED (status e) = false) by (vm_compute; reflexivity).
  assert (H6 : FAILED (status (queried this (env_of (Signal this (arg None) e)))) = false)
    by (vm_compute; reflexivity).
  split; [auto 7|].
  split; [|vm_compute; reflexivity].
  exact (proj1 (FlushGpuQueue_returns_iff_drained this e H1 H2 H3 H4 H5 H6)).
Defined.

(** ** What the calls submit *)

Lemma submitted_enqueue (q0 : nat) (c : Cmd) (q : nat) (g : Gpu) :
  submitted q (enqueue q0 c g)
  = (submitted q g + if Nat.eqb q q0 then 1 else 0)%nat.
Proof.
  unfold submitted. cbn [enqueue queue retired].
  destruct (Nat.eqb q q0) eqn:Hq.
  - apply Nat.eqb_eq in Hq. subst q0. rewrite fn_lookup_insert, length_app.
    cbn [length]. lia.
  - apply Nat.eqb_neq in Hq. rewrite fn_lookup_insert_ne by (apply not_eq_sym, Hq). lia.
Qed.

Lemma submitted_ticked (q : nat) (e : Env) :
  submitted q (gpu (ticked e)) = submitted q (gpu e).
Proof. rewrite ticked_gpu. apply submitted_gpu_run. Qed.

Lemma Signal_submitted (this : Fence) (value : Z) (e : Env) (this' : Fence) (e' : Env)
    (q : nat) :
  Signal this value e = Ok this' e' ->
  m_queue this' = m_queue this /\
  submitted q (gpu e')
  = (submitted q (gpu e) + if Nat.eqb q (m_queue this) then 1 else 0)%nat.
Proof.
  intros HS. apply Signal_Ok_inv in HS as (-> & _ & -> & _).
  split; [reflexivity|]. env_simpl. rewrite submitted_enqueue, submitted_ticked.
  reflexivity.
Qed.

Lemma CpuWait_submitted (this : Fence) (value : Z) (e e' : Env) (q : nat) :
  CpuWait this value e = Ok tt e' -> submitted q (gpu e') = submitted q (gpu e).
Proof.
  intros HW. destruct (CpuWait_Ok_gpu this value e e' HW) as (s1 & [->|(s2 & w & ->)]).
  - apply submitted_gpu_run.
  - set (g2 := register_event (m_fence this) w (m_fenceEvent this) (gpu_run s1 (gpu e))).
    change (submitted q (write_event (m_fenceEvent this) false (gpu_run s2 g2)))
      with (submitted q (gpu_run s2 g2)).
    rewrite submitted_gpu_run.
    change (submitted q g2) with (submitted q (gpu_run s1 (gpu e))).
    apply submitted_gpu_run.
Qed.

Lemma perform_submitted (op : Op) (this this' : LinearFence) (e e' : Env) (q : nat) :
  perform op this e = Ok this' e' ->
  m_queue (base this') = m_queue (base this) /\
  submitted q (gpu e') = (submitted q (gpu e) + submits op (base this) q)%nat.
Proof.
  intros Hop. destruct op as [value|value|value| | |q0 tag]; cbn [perform submits] in *.
  - apply bind_Ok_inv in Hop as (b & e1 & HS & H). rewrite ret_eq in H.
    injection H as <- <-. cbn [base with_base].
    apply (Signal_submitted _ _ _ _ _ q HS).
  - apply bind_Ok_inv in Hop as ([] & e1 & HS & H). rewrite ret_eq in H.
    injection H as <- <-. split; [reflexivity|].
    unfold GpuWait in HS. rewrite GpuWait_static_eq in HS. cbv zeta in HS.
    destruct (FAILED (status e)); [discriminate|]. injection HS as <-.
    env_simpl. rewrite submitted_enqueue, submitted_ticked. reflexivity.
  - apply bind_Ok_inv in Hop as ([] & e1 & HS & H). rewrite ret_eq in H.
    injection H as <- <-. split; [reflexivity|].
    rewrite (CpuWait_submitted _ _ _ _ q HS). lia.
  - apply bind_Ok_inv in Hop as (b & e1 & HF & H). rewrite ret_eq in H.
    injection H as <- <-. cbn [base with_base].
    apply FlushGpuQueue_Ok_inv in HF as (e2 & HS & HW).
    destruct (Signal_submitted _ _ _ _ _ q HS) as [Hq Hs].
    split; [exact Hq|]. rewrite (CpuWait_submitted _ _ _ _ q HW). exact Hs.
  - apply Next_Ok_inv in Hop as (history & r & v & _ & _ & _ & HW & ->).
    cbn [base]. split; [reflexivity|].
    rewrite (CpuWait_submitted _ _ _ _ q HW). lia.
  - apply bind_Ok_inv in Hop as ([] & e1 & HS & H). rewrite ret_eq in H.
    injection H as <- <-. split; [reflexivity|].
    rewrite Queue_Submit_eq in HS. injection HS as <-.
    env_simpl. rewrite submitted_enqueue, submitted_ticked. reflexivity.
Qed.

Lemma submits_queue (op : Op) (a b : Fence) (q : nat) :
  m_queue a = m_queue b -> submits op a q = submits op b q.
Proof. intros H. destruct op; cbn [submits]; rewrite ?H; reflexivity. Qed.

(** X12. The commands a run of calls submits. When a run of calls on a
    LinearFence has returned, each queue has received, beyond what it had
    received before, one command for every [Signal], [GpuWait] and
    [FlushGpuQueue] of the run if it is the queue of the fence, and one for
    every submission of the callers on it; [CpuWait] and [Next] submit
    nothing, on any queue. *)
Theorem run_submits (ops : list Op) (this final : LinearFence)
    (journal : list (Op * Z)) (e e' : Env)
    (Hrun : script ops this e = Ok (final, journal) e') :
  forall q : nat,
    submitted q (gpu e') = (submitted q (gpu e) + submits_all ops (base this) q)%nat.
Proof.
  intros q. revert this final journal e e' Hrun.
  induction ops as [|op ops IH]; intros this final journal e e' Hrun; cbn [script] in Hrun.
  - rewrite ret_eq in Hrun. injection Hrun as _ _ <-. unfold submits_all. cbn. lia.
  - apply bind_Ok_inv in Hrun as (this1 & e1 & Hop & Hrun).
    apply bind_Ok_inv in Hrun as ([final' journal'] & e2 & Hrest & Hrun).
    rewrite ret_eq in Hrun. injection Hrun as _ _ <-.
    destruct (perform_submitted op this this1 e e1 q Hop) as [Hq Hs].
    rewrite (IH this1 final' journal' e1 e2 Hrest), Hs.
    unfold submits_all, list_sum. cbn [map fold_right].
    assert (Hsame : map (fun op0 => submits op0 (base this1) q) ops
                    = map (fun op0 => submits op0 (base this) q) ops).
    { apply map_ext. intros op0. apply submits_queue, Hq. }
    rewrite Hsame. lia.
Qed.

Lemma run_submits_witness :
  let ops := [OpSignal None; OpSubmit 0 7; OpGpuWait None; OpSubmit 1 8; OpNext;
              OpFlushGpuQueue] in
  let fresh := {| base := {| m_fence := 1; m_queue := 0;
                             m_currentFenceValue := 0; m_fenceEvent := 1 |};
                  m_signalHistory := [0; 0]; m_signalIndex := 0 |} in
  let e := env_of (LinearFence_new 0 2 (boot true (replicate 16 ([O], 0)))) in
  let final := {| base := {| m_fence := 1; m_queue := 0;
                             m_currentFenceValue := 2; m_fenceEvent := 1 |};
                  m_signalHistory := [1; 0]; m_signalIndex := 1 |} in
  let journal := [(OpSignal None, 0); (OpSubmit 0 7, 1); (OpGpuWait None, 1);
                  (OpSubmit 1 8, 1); (OpNext, 1); (OpFlushGpuQueue, 1)] in
  let e' := env_of (script ops fresh e) in
  script ops fresh e = Ok (final, journal) e' /\
  submitted 0 (gpu e') = (submitted 0 (gpu e) + 4)%nat /\
  submitted 1 (gpu e') = (submitted 1 (gpu e) + 1)%nat.
Proof.
  intros ops fresh e final journal e'.
  assert (Hrun : script ops fresh e = Ok (final, journal) e') by (vm_compute; reflexivity).
  split; [exact Hrun|]. split.
  - exact (run_submits ops fresh final journal e e' Hrun 0%nat).
  - exact (run_submits ops fresh final journal e e' Hrun 1%nat).
Defined.

(** ** The throttle of Next, both ways *)

(** X13. Once a LinearFence of capacity [n] has seen [n - 1] calls of
    [Next], the next call waits for the value [v] that was recorded [n - 1]
    calls earlier (the counter of this very call when [n] is 1), and for
    nothing else: with the fence constructed where nothing referred to it, a
    counter that never decreased, [v] other than 2^64 - 1 and native calls
    that succeed, [Next] returns if and only if the fence holds [v] when it is
    queried or when the thread wakes from its sleep; otherwise the thread
    sleeps on. *)
Theorem Next_returns_iff_oldest_reached (pQueue n : nat) (e0 : Env)
    (fresh : LinearFence) (e1 : Env) (ops : list Op) (final : LinearFence)
    (journal : list (Op * Z)) (e2 : Env) (v : Z)
    (Hn : 1 <= Z.of_nat n <= UINT_MAX)
    (Hclean : Untouched (S (fences_made e0)) (S (events_made e0)) (gpu e0))
    (Hnew : LinearFence_new pQueue (Z.of_nat n) e0 = Ok fresh e1)
    (Hrun : script ops fresh e1 = Ok (final, journal) e2)
    (Hmono : ascending 0 (map snd journal) (m_currentFenceValue (base final)))
    (Hfull : (n <= length (recorded journal) + 1)%nat)
    (Hold : (recorded journal ++ [m_currentFenceValue (base final)])
              !! (length (recorded journal) + 1 - n)%nat = Some v)
    (Hv : v <> UnspecifiedFenceValue)
    (Hok : FAILED (status (queried (base final) e2)) = false) :
  ((exists this' e3, Next final e2 = Ok this' e3) <->
   v <= fence_value (gpu (queried (base final) e2)) (m_fence (base final)) \/
   v <= fence_value (gpu (sleeping (base final) v e2)) (m_fence (base final))) /\
  (fence_value (gpu (queried (base final) e2)) (m_fence (base final)) < v ->
   fence_value (gpu (sleeping (base final) v e2)) (m_fence (base final)) < v ->
   error_of (Next final e2) = Some Blocked).
Proof.
  destruct (LinearFence_new_Paced pQueue n e0 fresh e1 Hclean Hnew) as [Hc Hp].
  rewrite <- Hc in Hmono.
  pose proof (script_Paced n ops [] fresh final journal e1 e2 Hn Hp Hrun Hmono)
    as (Hring & Hown & Hidle & _).
  cbn [app] in Hring.
  destruct (Ring_Next_eq n _ final e2 Hn Hring) as (v' & Hlook & HN).
  destruct (Ring_advance n _ final ltac:(lia) Hring) as (_ & Hslot).
  specialize (Hslot v' Hlook).
  assert (Hcmp : (n <=? length (recorded journal) + 1)%nat = true)
    by (apply Nat.leb_le; exact Hfull).
  rewrite Hcmp in Hslot. assert (v' = v) as -> by congruence.
  set (b := base final) in *. set (f := m_fence b).
  destruct (Z_lt_le_dec (fence_value (gpu (queried b e2)) f) v) as [Hlt|Hge].
  - destruct (CpuWait_blocks_until b v e2 Hown Hidle Hv Hlt Hok) as [Hyes Hno].
    split; [split|].
    + intros (this' & e3 & H3). right.
      destruct (Z_lt_le_dec (fence_value (gpu (sleeping b v e2)) f) v) as [Hlt'|Hge'];
        [|exact Hge'].
      rewrite HN, (Hno Hlt') in H3. discriminate.
    + intros [H|H]; [lia|]. rewrite HN, (Hyes H). eauto.
    + intros _ Hlt'. rewrite HN, (Hno Hlt'). reflexivity.
  - pose proof (CpuWait_reached b v e2 Hv Hge) as HW.
    split; [split|].
    + intros _. left. exact Hge.
    + intros _. rewrite HN, HW. eauto.
    + intros Hlt. lia.
Qed.

Lemma Next_returns_iff_oldest_reached_witness :
  let fresh := {| base := {| m_fence := 1; m_queue := 0;
                             m_currentFenceValue := 0; m_fenceEvent := 1 |};
                  m_signalHistory := [0; 0]; m_signalIndex := 0 |} in
  let e0 := boot true [] in
  let e1 := env_of (LinearFence_new 0 (Z.of_nat 2) e0) in
  let ops := [OpSignal None; OpNext; OpSignal None] in
  let final := {| base := {| m_fence := 1; m_queue := 0;
                             m_currentFenceValue := 2; m_fenceEvent := 1 |};
                  m_signalHistory := [1; 0]; m_signalIndex := 1 |} in
  let journal := [(OpSignal None, 0); (OpNext, 1); (OpSignal None, 1)] in
  let e2 := env_of (script ops fresh e1) in
  (1 <= Z.of_nat 2 <= UINT_MAX /\
   Untouched (S (fences_made e0)) (S (events_made e0)) (gpu e0) /\
   LinearFence_new 0 (Z.of_nat 2) e0 = Ok fresh e1 /\
   script ops fresh e1 = Ok (final, journal) e2 /\
   ascending 0 (map snd journal) (m_currentFenceValue (base final)) /\
   (2 <= length (recorded journal) + 1)%nat /\
   (recorded journal ++ [m_currentFenceValue (base final)])
     !! (length (recorded journal) + 1 - 2)%nat = Some 1 /\
   1 <> UnspecifiedFenceValue /\
   FAILED (status (queried (base final) e2)) = false) /\
  (fence_value (gpu (queried (base final) e2)) (m_fence (base final)) < 1 ->
   fence_value (gpu (sleeping (base final) 1 e2)) (m_fence (base final)) < 1 ->
   error_of (Next final e2) = Some Blocked) /\
  error_of (Next final e2) = Some Blocked.
Proof.
  intros fresh e0 e1 ops final journal e2.
  assert (H1 : 1 <= Z.of_nat 2 <= UINT_MAX) by (unfold UINT_MAX; lia).
  assert (H2 : Untouched (S (fences_made e0)) (S (events_made e0)) (gpu e0)).
  { split; [intros q; reflexivity|intros r Hin; destruct Hin]. }
  assert (H3 : LinearFence_new 0 (Z.of_nat 2) e0 = Ok fresh e1) by (vm_compute; reflexivity).
  assert (H4 : script ops fresh e1 = Ok (final, journal) e2) by (vm_compute; reflexivity).
  assert (H5 : ascending 0 (map snd journal) (m_currentFenceValue (base final)))
    by (cbn; lia).
  assert (H6 : (2 <= length (recorded journal) + 1)%nat) by (cbn; lia).
  assert (H7 : (recorded journal ++ [m_currentFenceValue (base final)])
                 !! (length (recorded journal) + 1 - 2)%nat = Some 1) by reflexivity.
  assert (H8 : 1 <> UnspecifiedFenceValue) by discriminate.
  assert (H9 : FAILED (status (queried (base final) e2)) = false) by (vm_compute; reflexivity).
  split; [auto 10|].
  split; [|vm_compute; reflexivity].
  exact (proj2 (Next_returns_iff_oldest_reached 0 2 e0 fresh e1 ops final journal e2 1
                  H1 H2 H3 H4 H5 H6 H7 H8 H9)).
Defined.

(** ** What a signal vouches for *)

Lemma own_step_gpu_step (f mq : nat) (g g' : Gpu) : own_step f mq g g' -> gpu_step g g'.
Proof. intros [q g0|q c g0 _|f' v h g0|h b g0|f' v g0 _]; constructor. Qed.

Lemma own_step_retired (f mq q : nat) (g g' : Gpu) :
  own_step f mq g g' -> (retired g q <= retired g' q)%nat.
Proof.
  intros [q' g0|q' c g0 _|f' v h g0|h b g0|f' v g0 _]; try (cbn; lia).
  destruct (gpu_exec_cases q' g0) as [->|(c & rest & _ & _ & Hr & Hother & _)]; [lia|].
  destruct (decide (q = q')) as [->|Hne]; [lia|].
  destruct (Hother q Hne) as [_ ->]. lia.
Qed.

Lemma own_steps_retired (f mq q : nat) (g g' : Gpu) :
  rtc (own_step f mq) g g' -> (retired g q <= retired g' q)%nat.
Proof.
  intros Hreach. induction Hreach as [g|g g1 g' Hstep _ IH]; [lia|].
  pose proof (own_step_retired f mq q g g1 Hstep). lia.
Qed.

(** The signal that [Signal] has just submitted, at its place: the fence and
    the signals ahead of it are below its value. *)
Lemma Signal_Placed (this this' : Fence) (value : Z) (e e' : Env) :
  Owns this (gpu e) ->
  m_currentFenceValue this < m_currentFenceValue this' ->
  Signal this value e = Ok this' e' ->
  Placed (m_fence this) (m_queue this) (last_position (m_queue this) (gpu e'))
         (CmdSignal (m_fence this) (m_currentFenceValue this'))
         (fun fv l => fv < m_currentFenceValue this' /\
                      Forall (fun w => w < m_currentFenceValue this') l)
         (gpu e') /\
  (retired (gpu e') (m_queue this) <= last_position (m_queue this) (gpu e'))%nat.
Proof.
  intros Hown Hup HS. apply Signal_Ok_inv in HS as (_ & _ & -> & _).
  set (v := m_currentFenceValue this') in *.
  env_simpl. rewrite ticked_gpu.
  destruct (gpu_run_Owns this (burst e) _ Hown) as [[Hsole0 Hasc0] _].
  set (g0 := gpu_run (burst e) (gpu e)) in *.
  set (f := m_fence this) in *. set (mq := m_queue this) in *.
  assert (Hq : queue (enqueue mq (CmdSignal f v) g0) mq = queue g0 mq ++ [CmdSignal f v])
    by (cbn [enqueue queue]; apply fn_lookup_insert).
  assert (Hp0 : (last_position mq (enqueue mq (CmdSignal f v) g0) - retired g0 mq
                 = length (queue g0 mq))%nat).
  { unfold last_position. rewrite Hq, length_app. cbn [length enqueue retired]. lia. }
  split; [|unfold last_position; rewrite Hq, length_app; cbn [length enqueue retired]; lia].
  split.
  - intros q Hne. cbn [enqueue queue].
    rewrite fn_lookup_insert_ne by (apply not_eq_sym, Hne). apply Hsole0, Hne.
  - intros _. unfold ahead.
    change (retired (enqueue mq (CmdSignal f v) g0) mq) with (retired g0 mq).
    change (fence_value (enqueue mq (CmdSignal f v) g0) f) with (fence_value g0 f).
    rewrite Hp0, Hq. split; [apply list_lookup_middle; reflexivity|].
    rewrite take_app_le, firstn_all by lia. split.
    + pose proof (ascending_le _ _ _ Hasc0). lia.
    + apply ascending_Forall in Hasc0.
      eapply Forall_impl; [exact Hasc0|]. intros w Hw. cbn beta in Hw. lia.
Qed.

(** While a signal whose value neither the fence nor the signals ahead of it
    reach has not retired, the fence is below that value. *)
Lemma signal_pending_below (f mq p0 : nat) (v : Z) (g0 g : Gpu) :
  Placed f mq p0 (CmdSignal f v)
         (fun fv l => fv < v /\ Forall (fun w => w < v) l) g0 ->
  rtc (own_step f mq) g0 g ->
  v <= fence_value g f ->
  (p0 < retired g mq)%nat.
Proof.
  intros H0 Hreach Hge.
  assert (Hpop : forall fv w l,
            (fun fv l => fv < v /\ Forall (fun w => w < v) l) fv (w :: l) ->
            (fun fv l => fv < v /\ Forall (fun w => w < v) l) w l).
  { intros fv w l [_ H]. apply Forall_cons in H as [Hw Hl]. split; assumption. }
  pose proof (own_steps_Placed f mq p0 _ _ Hpop g0 g Hreach H0) as [_ Hat].
  destruct (le_lt_dec (retired g mq) p0) as [Hle|Hgt]; [|exact Hgt].
  destruct (Hat Hle) as [_ [Hlt _]]. lia.
Qed.

(** X14. What a completed value vouches for. When [Signal] has raised the
    counter of a fence object that owns its native fence, and the native fence
    later holds at least the new counter, then the signal of the call has
    retired, and so has every command submitted before it on the queue of the
    fence: the queue retires its commands in order, and no signal ahead of
    this one carries its value. *)
Theorem Signal_reached_means_retired (this this' : Fence) (value : Z) (e e' : Env)
    (Hown : Owns this (gpu e))
    (Hup : m_currentFenceValue this < m_currentFenceValue this')
    (Hrun : Signal this value e = Ok this' e') :
  queue (gpu e') (m_queue this)
    = queue (gpu (ticked e)) (m_queue this)
      ++ [CmdSignal (m_fence this) (m_currentFenceValue this')] /\
  forall g : Gpu,
    rtc (own_step (m_fence this) (m_queue this)) (gpu e') g ->
    m_currentFenceValue this' <= fence_value g (m_fence this) ->
    forall pos : nat,
      (pos <= last_position (m_queue this) (gpu e'))%nat ->
      retired_at (m_queue this) pos g.
Proof.
  destruct (Signal_Placed this this' value e e' Hown Hup Hrun) as [H0 _].
  split.
  - apply Signal_Ok_inv in Hrun as (_ & _ & -> & _). env_simpl.
    cbn [enqueue queue]. apply fn_lookup_insert.
  - intros g Hreach Hge pos Hpos. unfold retired_at.
    pose proof (signal_pending_below _ _ _ _ _ g H0 Hreach Hge). lia.
Qed.

Lemma Signal_reached_means_retired_witness :
  let this := {| m_fence := 1; m_queue := 0; m_currentFenceValue := 0; m_fenceEvent := 1 |} in
  let e := env_of ((fresh ← Fence_new 0; Queue_Submit 0 7) (boot true [])) in
  let this' := set_currentFenceValue 1 this in
  let e' := env_of (Signal this (arg None) e) in
  let g := gpu_run [O; O] (gpu e') in
  (Owns this (gpu e) /\ m_currentFenceValue this < m_currentFenceValue this' /\
   Signal this (arg None) e = Ok this' e' /\
   rtc (own_step (m_fence this) (m_queue this)) (gpu e') g /\
   m_currentFenceValue this' <= fence_value g (m_fence this)) /\
  forall pos : nat,
    (pos <= last_position (m_queue this) (gpu e'))%nat ->
    retired_at (m_queue this) pos g.
Proof.
  intros this e this' e' g.
  assert (H1 : Owns this (gpu e)).
  { split; [|vm_compute; discriminate].
    intros q Hq. destruct q as [|q]; [exfalso; apply Hq; reflexivity|].
    vm_compute. reflexivity. }
  assert (H2 : m_currentFenceValue this < m_currentFenceValue this') by (vm_compute; reflexivity).
  assert (H3 : Signal this (arg None) e = Ok this' e') by (vm_compute; reflexivity).
  assert (H4 : rtc (own_step (m_fence this) (m_queue this)) (gpu e') g)
    by apply gpu_run_own_steps.
  assert (H5 : m_currentFenceValue this' <= fence_value g (m_fence this))
    by (vm_compute; discriminate).
  split; [auto 6|].
  exact (proj2 (Signal_reached_means_retired this this' (arg None) e e' H1 H2 H3) g H4 H5).
Defined.

(** ** A signal on one queue, a wait on another *)

Lemma wait_blocks_own (f0 mq q p0 f : nat) (v : Z) (g0 : Gpu) :
  (retired g0 q <= p0)%nat ->
  queue g0 q !! (p0 - retired g0 q)%nat = Some (CmdWait f v) ->
  forall g, rtc (own_step f0 mq) g0 g ->
    ((retired g q <= p0)%nat /\
     queue g q !! (p0 - retired g q)%nat = Some (CmdWait f v)) \/
    exists g_mid, rtc (own_step f0 mq) g0 g_mid /\ rtc (own_step f0 mq) g_mid g /\
                  v <= fence_value g_mid f.
Proof.
  intros Hle Hat.
  apply (rtc_ind_r (fun g =>
    ((retired g q <= p0)%nat /\
     queue g q !! (p0 - retired g q)%nat = Some (CmdWait f v)) \/
    exists g_mid, rtc (own_step f0 mq) g0 g_mid /\ rtc (own_step f0 mq) g_mid g /\
                  v <= fence_value g_mid f) g0);
    [left; auto|].
  intros g g' Hreach Hstep IH.
  destruct IH as [[Hle' Hat']|(g_mid & H1 & H2 & H3)].
  - destruct (queue_step_other q g g' p0 _ (own_step_gpu_step _ _ _ _ Hstep) Hle' Hat')
      as [Hstill|(Hpos & Hhead & Hg' & Hret)]; [left; exact Hstill|].
    right. exists g. split; [exact Hreach|]. split; [apply rtc_once, Hstep|].
    subst g'. unfold gpu_exec in Hret. destruct (queue g q) as [|c rest]; [discriminate|].
    cbn in Hhead. injection Hhead as ->.
    destruct (fence_value g f <? v) eqn:Hlt; [lia|].
    apply Z.ltb_ge in Hlt. exact Hlt.
  - right. exists g_mid. split; [exact H1|]. split; [|exact H3].
    eapply rtc_r; eassumption.
Qed.

(** X15. The order a fence sets up between two queues. A producer calls
    [Signal] on a fence object that owns its native fence, which raises the
    counter, and a consumer then calls the static [GpuWait] for that fence,
    with no value, on a queue of its own. Whatever the runtime and the fence
    object do afterwards, a command submitted on the consumer's queue after the
    wait retires only when the signal, and every command submitted on the
    producer's queue before it, has retired. *)
Theorem GpuWait_static_after_Signal_orders_queues (a a' : Fence) (value : Z)
    (qb : nat) (e e1 e2 : Env)
    (Hown : Owns a (gpu e))
    (Hup : m_currentFenceValue a < m_currentFenceValue a')
    (Hsig : Signal a value e = Ok a' e1)
    (Hwait : GpuWait_static qb a' (arg None) e1 = Ok tt e2) :
  forall (g : Gpu) (later earlier : nat),
    rtc (own_step (m_fence a) (m_queue a)) (gpu e2) g ->
    (last_position qb (gpu e2) < later)%nat ->
    (earlier <= last_position (m_queue a) (gpu e1))%nat ->
    retired_at qb later g ->
    retired_at (m_queue a) earlier g.
Proof.
  intros g later earlier Hreach Hlater Hearlier Hdone.
  set (f := m_fence a) in *. set (mq := m_queue a) in *.
  set (v := m_currentFenceValue a') in *.
  destruct (Signal_Placed a a' value e e1 Hown Hup Hsig) as [H1 _].
  fold f mq v in H1.
  assert (Hf : m_fence a' = f).
  { apply Signal_Ok_inv in Hsig as (-> & _). reflexivity. }
  (* the wait, the newest command of the consumer's queue *)
  change (arg None) with UnspecifiedFenceValue in Hwait.
  rewrite GpuWait_static_eq in Hwait. cbv zeta in Hwait.
  change (UnspecifiedFenceValue =? UnspecifiedFenceValue) with true in Hwait.
  cbv iota in Hwait. fold v in Hwait. rewrite Hf in Hwait.
  destruct (FAILED (status e1)); [discriminate|]. injection Hwait as He2.
  assert (Hg2 : gpu e2 = enqueue qb (CmdWait f v) (gpu_run (burst e1) (gpu e1))).
  { rewrite <- He2. env_simpl. rewrite ticked_gpu. reflexivity. }
  set (g1 := gpu_run (burst e1) (gpu e1)) in *.
  assert (Hstep12 : rtc (own_step f mq) (gpu e1) (gpu e2)).
  { rewrite Hg2. eapply rtc_r; [apply gpu_run_own_steps|].
    apply own_enqueue. intros _. reflexivity. }
  assert (Hq : queue (gpu e2) qb = queue g1 qb ++ [CmdWait f v])
    by (rewrite Hg2; cbn [enqueue queue]; apply fn_lookup_insert).
  set (p1 := last_position qb (gpu e2)) in *.
  assert (Hp1 : p1 = (retired (gpu e2) qb + length (queue g1 qb))%nat).
  { unfold p1, last_position. rewrite Hq, length_app. cbn [length]. lia. }
  destruct (wait_blocks_own f mq qb p1 f v (gpu e2)) with (g := g)
    as [[Hle _]|(g_mid & Hm1 & Hm2 & Hm3)].
  - lia.
  - rewrite Hq. replace (p1 - retired (gpu e2) qb)%nat with (length (queue g1 qb)) by lia.
    apply list_lookup_middle. reflexivity.
  - exact Hreach.
  - unfold retired_at in Hdone. lia.
  - assert (Hreach1 : rtc (own_step f mq) (gpu e1) g_mid)
      by (eapply rtc_trans; eassumption).
    pose proof (signal_pending_below f mq _ v _ g_mid H1 Hreach1 Hm3) as Hgone.
    pose proof (own_steps_retired f mq mq g_mid g Hm2) as Hgrow.
    unfold retired_at. lia.
Qed.

Lemma GpuWait_static_after_Signal_orders_queues_witness :
  let a := {| m_fence := 1; m_queue := 0; m_currentFenceValue := 0; m_fenceEvent := 1 |} in
  let a' := set_currentFenceValue 1 a in
  let e := env_of ((fresh ← Fence_new 0; Queue_Submit 0 7) (boot true [])) in
  let e1 := env_of (Signal a (arg None) e) in
  let e2 := env_of (GpuWait_static 1 a' (arg None) e1) in
  let g := gpu_run [1; 1; 0; 0; 1; 1]%nat
             (enqueue 1 (CmdWork 8) (gpu e2)) in
  (Owns a (gpu e) /\ m_currentFenceValue a < m_currentFenceValue a' /\
   Signal a (arg None) e = Ok a' e1 /\
   GpuWait_static 1 a' (arg None) e1 = Ok tt e2 /\
   rtc (own_step (m_fence a) (m_queue a)) (gpu e2) g /\
   (last_position 1 (gpu e2) < 1)%nat /\
   (1 <= last_position (m_queue a) (gpu e1))%nat /\
   retired_at 1 1 g) /\
  retired_at (m_queue a) 1 g.
Proof.
  intros a a' e e1 e2 g.
  assert (H1 : Owns a (gpu e)).
  { split; [|vm_compute; discriminate].
    intros q Hq. destruct q as [|q]; [exfalso; apply Hq; reflexivity|].
    vm_compute. reflexivity. }
  assert (H2 : m_currentFenceValue a < m_currentFenceValue a') by (vm_compute; reflexivity).
  assert (H3 : Signal a (arg None) e = Ok a' e1) by (vm_compute; reflexivity).
  assert (H4 : GpuWait_static 1 a' (arg None) e1 = Ok tt e2) by (vm_compute; reflexivity).
  assert (H5 : rtc (own_step (m_fence a) (m_queue a)) (gpu e2) g).
  { eapply rtc_l; [|apply gpu_run_own_steps]. apply own_enqueue. intros _. reflexivity. }
  assert (H6 : (last_position 1 (gpu e2) < 1)%nat) by (vm_compute; lia).
  assert (H7 : (1 <= last_position (m_queue a) (gpu e1))%nat) by (vm_compute; lia).
  assert (H8 : retired_at 1 1 g) by (vm_compute; lia).
  split; [auto 9|].
  exact (GpuWait_static_after_Signal_orders_queues a a' (arg None) 1 e e1 e2
           H1 H2 H3 H4 g 1%nat 1%nat H5 H6 H7 H8).
Defined.

(** ** The steps of Next *)

Lemma CpuWait_at_once (this : Fence) (value : Z) (e : Env) :
  (if value =? UnspecifiedFenceValue then m_currentFenceValue this else value)
    <= fence_value (gpu (queried this e)) (m_fence this) ->
  CpuWait this value e = Ok tt (queried this e).
Proof.
  intros Hge. rewrite CpuWait_eq. cbv zeta.
  apply Z.ltb_ge in Hge. rewrite Hge. reflexivity.
Qed.

(** When the fence has reached the counter, [Next] returns after its query:
    no value in the ring exceeds the counter. *)
Lemma Next_caught_up (n : nat) (seen : list Z) (this : LinearFence) (e : Env) :
  1 <= Z.of_nat n <= UINT_MAX ->
  Paced n seen this e ->
  0 <= m_currentFenceValue (base this) ->
  m_currentFenceValue (base this) <= fence_value (gpu e) (m_fence (base this)) ->
  exists this',
    Next this e = Ok this' (queried (base this) e) /\
    base this' = base this /\
    Paced n (seen ++ [m_currentFenceValue (base this)]) this' (queried (base this) e) /\
    m_currentFenceValue (base this)
      <= fence_value (gpu (queried (base this) e)) (m_fence (base this)).
Proof.
  intros Hn Hp Hlo Hge. pose proof Hp as (Hring & Hown & Hidle & Hbound & _).
  destruct (Ring_Next_eq n seen this e Hn Hring) as (v & Hlook & HN).
  destruct (Ring_advance n seen this ltac:(lia) Hring) as (_ & Hslot).
  specialize (Hslot v Hlook).
  set (c := m_currentFenceValue (base this)) in *.
  assert (Hq : c <= fence_value (gpu (queried (base this) e)) (m_fence (base this))).
  { rewrite gpu_queried.
    destruct (gpu_run_Owns (base this) (burst e) _ Hown) as [_ Hm]. lia. }
  assert (Hvc : v <= c).
  { destruct (n <=? length seen + 1)%nat; [|lia].
    apply lookup_app_Some in Hslot as [Hi|[_ Hi]].
    - apply (Hbound _ _ Hi).
    - apply list_lookup_singleton_Some in Hi as [_ <-]. lia. }
  assert (HW : CpuWait (base this) v e = Ok tt (queried (base this) e)).
  { apply CpuWait_at_once. fold c. destruct (v =? UnspecifiedFenceValue); lia. }
  rewrite HW in HN. eexists. split; [exact HN|]. split; [reflexivity|].
  split; [|exact Hq].
  apply (perform_Paced n seen OpNext this _ e _ Hn Hp HN). cbn [base]. lia.
Qed.

Lemma Next_run_caught_up (k : nat) :
  forall (n : nat) (seen : list Z) (this : LinearFence) (e : Env),
  1 <= Z.of_nat n <= UINT_MAX ->
  Paced n seen this e ->
  0 <= m_currentFenceValue (base this) ->
  m_currentFenceValue (base this) <= fence_value (gpu e) (m_fence (base this)) ->
  exists final jl e',
    script (replicate k OpNext) this e = Ok (final, jl) e' /\
    calls e' = calls e ++ replicate k (CallGetCompletedValue (m_fence (base this))).
Proof.
  induction k as [|k IH]; intros n seen this e Hn Hp Hlo Hge.
  - exists this, [], e. cbn. rewrite app_nil_r. auto.
  - destruct (Next_caught_up n seen this e Hn Hp Hlo Hge) as (this' & HN & Hb & Hp' & Hq).
    destruct (IH n _ this' (queried (base this) e) Hn Hp') as (final & jl & e' & Hs & Hc);
      rewrite ?Hb; try assumption.
    exists final, ((OpNext, m_currentFenceValue (base this)) :: jl), e'. split.
    + cbn [replicate script perform]. rewrite bind_eq, HN, bind_eq, Hs. reflexivity.
    + rewrite Hc, Hb, calls_queried, <- app_assoc. reflexivity.
Qed.

(** C6 (as amended). On a LinearFence constructed with capacity [count],
    after any run of calls, [Next] stores the counter in [history[cursor]],
    sets the cursor to [(cursor + 1) mod count] and then calls [CpuWait] on
    the value the new cursor points at: the one stored [count - 1] calls
    before this call (the one just stored when [count] is 1), 0 while the slot
    is unwritten. (With [count = 0] the first of these steps is already
    outside the vector.) When the fence was constructed where nothing referred
    to it, the counter has never decreased and the GPU has completed every
    signal, so that the fence holds the counter, any number of calls of [Next]
    in a row return after one query of the completed value each. A LinearFence
    of capacity 2 on which nothing was signaled returns from four calls in a
    row whatever the GPU does; so it does with a signal before each call when
    the GPU completes each signal at once. *)
Theorem Next_steps (pQueue : nat) (count : Z) (e0 : Env) (fresh : LinearFence)
    (e1 : Env) (ops : list Op) (this : LinearFence) (journal : list (Op * Z))
    (e : Env)
    (Hcount : 0 <= count <= UINT_MAX)
    (Hnew : LinearFence_new pQueue count e0 = Ok fresh e1)
    (Hrun : script ops fresh e1 = Ok (this, journal) e) :
  (1 <= count ->
   exists v,
     <[Z.to_nat (m_signalIndex this) := m_currentFenceValue (base this)]>
       (m_signalHistory this)
       !! Z.to_nat ((m_signalIndex this + 1) `mod` count) = Some v /\
     Next this e =
       match CpuWait (base this) v e with
       | Ok _ e' =>
           Ok {| base := base this;
                 m_signalHistory :=
                   <[Z.to_nat (m_signalIndex this) := m_currentFenceValue (base this)]>
                     (m_signalHistory this);
                 m_signalIndex := (m_signalIndex this + 1) `mod` count |} e'
       | Fail err e' => Fail err e'
       end /\
     (if (Z.to_nat count <=? length (recorded journal) + 1)%nat
      then (recorded journal ++ [m_currentFenceValue (base this)])
             !! (length (recorded journal) + 1 - Z.to_nat count)%nat = Some v
      else v = 0)) /\
  (count = 0 -> Next this e = Fail OutOfBounds e) /\
  (1 <= count ->
   Untouched (S (fences_made e0)) (S (events_made e0)) (gpu e0) ->
   ascending 0 (map snd journal) (m_currentFenceValue (base this)) ->
   m_currentFenceValue (base this) <= fence_value (gpu e) (m_fence (base this)) ->
   forall k : nat,
   exists final jl e',
     script (replicate k OpNext) this e = Ok (final, jl) e' /\
     calls e' = calls e ++ replicate k (CallGetCompletedValue (m_fence (base this)))) /\
  (forall (q : nat) (debug : bool) (t : list (list nat * Z))
          (lf : LinearFence) (e2 : Env),
     LinearFence_new q 2 (boot debug t) = Ok lf e2 ->
     exists final jl e',
       script [OpNext; OpNext; OpNext; OpNext] lf e2 = Ok (final, jl) e' /\
       calls e' = calls e2 ++ [CallGetCompletedValue 1; CallGetCompletedValue 1;
                               CallGetCompletedValue 1; CallGetCompletedValue 1]) /\
  (let o := (lf ← LinearFence_new 0 2;
             script [OpSignal None; OpNext; OpSignal None; OpNext;
                     OpSignal None; OpNext; OpSignal None; OpNext] lf)
              (boot true (replicate 12 ([O], 0))) in
   error_of o = None /\
   calls (env_of o) =
     [CallQueryInterface 0; CallGetDevice 0; CallCreateFence 0;
      CallCreateEvent false false;
      CallQueueSignal 0 1 1; CallGetCompletedValue 1;
      CallQueueSignal 0 1 2; CallGetCompletedValue 1;
      CallQueueSignal 0 1 3; CallGetCompletedValue 1;
      CallQueueSignal 0 1 4; CallGetCompletedValue 1]).
Proof.
  assert (Hcaught :
    1 <= count ->
    Untouched (S (fences_made e0)) (S (events_made e0)) (gpu e0) ->
    ascending 0 (map snd journal) (m_currentFenceValue (base this)) ->
    m_currentFenceValue (base this) <= fence_value (gpu e) (m_fence (base this)) ->
    forall k : nat,
    exists final jl e',
      script (replicate k OpNext) this e = Ok (final, jl) e' /\
      calls e' = calls e ++ replicate k (CallGetCompletedValue (m_fence (base this)))).
  { intros Hpos Hclean Hmono Hge k.
    assert (Hn : 1 <= Z.of_nat (Z.to_nat count) <= UINT_MAX) by lia.
    assert (Hnew' : LinearFence_new pQueue (Z.of_nat (Z.to_nat count)) e0 = Ok fresh e1)
      by (rewrite Z2Nat.id by lia; exact Hnew).
    destruct (LinearFence_new_Paced pQueue _ e0 fresh e1 Hclean Hnew') as [Hc Hp].
    pose proof (ascending_le _ _ _ Hmono) as Hlo.
    rewrite <- Hc in Hmono.
    pose proof (script_Paced _ ops [] fresh this journal e1 e Hn Hp Hrun Hmono) as Hp2.
    cbn [app] in Hp2.
    apply (Next_run_caught_up k _ _ this e Hn Hp2 Hlo Hge). }
  apply LinearFence_new_Ok_inv in Hnew as (b & _ & ->).
  split; [|split; [|split; [exact Hcaught|split]]].
  - intros Hpos.
    assert (Hn : 1 <= Z.of_nat (Z.to_nat count) <= UINT_MAX) by lia.
    pose proof (script_Ring (Z.to_nat count) ops [] _ e1 Hn (Ring_new count b)) as Hring.
    rewrite Hrun in Hring. cbn [app] in Hring. clear Hrun Hcaught.
    remember (Z.to_nat count) as n eqn:Hcn.
    assert (count = Z.of_nat n) as -> by lia. clear Hcn.
    pose proof Hring as (Hlen & Hidx & _ & _).
    assert (Hn0 : n <> O) by lia.
    destruct (Ring_Next_eq _ _ this e Hn Hring) as (v & Hv & HN).
    destruct (Ring_advance _ _ this Hn0 Hring) as (_ & Hslot).
    exists v. rewrite Hidx, Nat2Z.id, next_index, Nat2Z.id by assumption.
    split; [exact Hv|]. split; [exact HN|]. apply Hslot, Hv.
  - intros ->. apply Next_empty.
    eapply script_empty; [|exact Hrun]. reflexivity.
  - intros q debug t lf e2 Hnew.
    apply fresh_LinearFence_quiet in Hnew as (-> & Hq & Hf & Hcalls).
    match goal with |- context [script _ ?f e2] =>
      destruct (script_unsignalled 4 f e2 2) as (final & jl & e' & Hs & Hc & _);
        [assumption | reflexivity | unfold UINT_MAX; lia
        | cbn [m_signalIndex]; lia | reflexivity | assumption |]
    end.
    exists final, jl, e'. split; [exact Hs|exact Hc].
  - vm_compute. split; reflexivity.
Qed.

Lemma Next_steps_witness :
  let fresh := {| base := {| m_fence := 1; m_queue := 0;
                             m_currentFenceValue := 0; m_fenceEvent := 1 |};
                  m_signalHistory := [0; 0]; m_signalIndex := 0 |} in
  let e1 := env_of (LinearFence_new 0 2 (boot true [])) in
  let this := {| base := {| m_fence := 1; m_queue := 0;
                            m_currentFenceValue := 7; m_fenceEvent := 1 |};
                 m_signalHistory := [0; 0]; m_signalIndex := 0 |} in
  let e := env_of (script [OpSignal (Some 7)] fresh e1) in
  (0 <= 2 <= UINT_MAX /\
   LinearFence_new 0 2 (boot true []) = Ok fresh e1 /\
   script [OpSignal (Some 7)] fresh e1 = Ok (this, [(OpSignal (Some 7), 0)]) e) /\
  exists v,
    <[Z.to_nat (m_signalIndex this) := m_currentFenceValue (base this)]>
      (m_signalHistory this)
      !! Z.to_nat ((m_signalIndex this + 1) `mod` 2) = Some v /\
    Next this e =
      match CpuWait (base this) v e with
      | Ok _ e' =>
          Ok {| base := base this;
                m_signalHistory :=
                  <[Z.to_nat (m_signalIndex this) := m_currentFenceValue (base this)]>
                    (m_signalHistory this);
                m_signalIndex := (m_signalIndex this + 1) `mod` 2 |} e'
      | Fail err e' => Fail err e'
      end /\
    v = 0.
Proof.
  intros fresh e1 this e.
  assert (H1 : 0 <= 2 <= UINT_MAX) by (unfold UINT_MAX; lia).
  assert (H2 : LinearFence_new 0 2 (boot true []) = Ok fresh e1) by (vm_compute; reflexivity).
  assert (H3 : script [OpSignal (Some 7)] fresh e1 = Ok (this, [(OpSignal (Some 7), 0)]) e)
    by (vm_compute; reflexivity).
  split; [auto|].
  destruct (Next_steps 0 2 (boot true []) fresh e1 [OpSignal (Some 7)] this
              [(OpSignal (Some 7), 0)] e H1 H2 H3) as [Hsteps _].
  destruct (Hsteps ltac:(lia)) as (v & Hv & HN & Hz).
  exists v. split; [exact Hv|]. split; [exact HN|exact Hz].
Defined.

(** C6 as stated fails twice over. The value [Next] waits on is not the one
    stored [N] calls earlier: with capacity 1 the very first call, after one
    signal, registers the event for the value 1 it has just stored, and on a
    GPU that stands still it sleeps for good. And a GPU that completes every
    signal at once does not keep four calls of [Next] in a row from blocking:
    with capacity 2, when the counter has wrapped around since the call before
    them, the first of the four sleeps for good on the value 2^64 - 2 of that
    call, with nothing left on the queue and the fence at 0. *)
Lemma Next_waits_on_newer_value_counterexample :
  let o1 := (lf ← LinearFence_new 0 1; script [OpSignal None; OpNext] lf)
              (boot true []) in
  let o2 := (lf ← LinearFence_new 0 2;
             script [OpSignal (Some (UINT64_MAX - 1)); OpNext;
                     OpSignal None; OpSignal None;
                     OpNext; OpNext; OpNext; OpNext] lf)
              (boot true (replicate 16 ([O; O; O], 0))) in
  error_of o1 = Some Blocked /\
  calls (env_of o1) =
    [CallQueryInterface 0; CallGetDevice 0; CallCreateFence 0;
     CallCreateEvent false false;
     CallQueueSignal 0 1 1; CallGetCompletedValue 1;
     CallSetEventOnCompletion 1 1 1;
     CallWaitForSingleObjectEx 1 INFINITE false] /\
  error_of o2 = Some Blocked /\
  queue (gpu (env_of o2)) 0 = [] /\
  fence_value (gpu (env_of o2)) 1 = 0 /\
  calls (env_of o2) =
    [CallQueryInterface 0; CallGetDevice 0; CallCreateFence 0;
     CallCreateEvent false false;
     CallQueueSignal 0 1 (UINT64_MAX - 1); CallGetCompletedValue 1;
     CallQueueSignal 0 1 UINT64_MAX; CallQueueSignal 0 1 0;
     CallGetCompletedValue 1;
     CallSetEventOnCompletion 1 (UINT64_MAX - 1) 1;
     CallWaitForSingleObjectEx 1 INFINITE false].
Proof. vm_compute. repeat split; reflexivity. Qed.
